(** * kenku-file-watcher: a shallow embedding of [src/index.ts] and [src/kenku.ts]

    The watcher keeps the playlists and soundboards of a Kenku remote in step
    with a directory tree.  This file embeds the path classifier
    ([validateDirectory], [validateFile], [removeFileType], [cleanUrl],
    [prepareFilePath]), the event queue ([handleQueue]), the start-up modes
    ([watch], [purge]) and the remote client ([callKenku] and its wrappers),
    and states the properties of the specification over them.

    Conventions of the embedding.
    - A JavaScript string is the list of its code units; a code unit is an
      [ascii], read as the code point of the same number (0..255).
    - The process-wide variables [ACTIVATED] and [queue] live in a [World]
      that also records, in order, every effect the program performs
      (requests, timers, the watcher subscription).
    - Asynchronous functions are computations in an exception monad over the
      world; the answers of the remote service are a parameter.
    - [console.log] output is not recorded. *)

From Stdlib Require Import String.
From Stdlib Require Import List Ascii ZArith Lia Bool Arith.
Import ListNotations.

Local Open Scope list_scope.

(* ================================================================== *)
(** ** Strings *)

Definition str := list ascii.

(** A string literal as a list of code units. *)
Definition js (s : String.string) : str := String.list_ascii_of_string s.
Arguments js s%_string.

Definition code (c : ascii) : nat := nat_of_ascii c.

Definition len (s : str) : Z := Z.of_nat (length s).

Fixpoint str_eqb (a b : str) : bool :=
  match a, b with
  | [], [] => true
  | x :: a', y :: b' => Ascii.eqb x y && str_eqb a' b'
  | _, _ => false
  end.

(** [startsWith p s] with the remainder: [Some rest] when [s = p ++ rest]. *)
Fixpoint strip_prefix (p s : str) : option str :=
  match p, s with
  | [], _ => Some s
  | a :: p', b :: s' => if Ascii.eqb a b then strip_prefix p' s' else None
  | _ :: _, [] => None
  end.

(** Position of the first occurrence of [needle] in [hay], if any. *)
Fixpoint find_first (needle hay : str) : option nat :=
  match strip_prefix needle hay with
  | Some _ => Some 0%nat
  | None =>
      match hay with
      | [] => None
      | _ :: hay' => option_map S (find_first needle hay')
      end
  end.

(** [String.prototype.indexOf]: the first position, or -1. *)
Definition indexOf (needle hay : str) : Z :=
  match find_first needle hay with
  | Some k => Z.of_nat k
  | None => (-1)%Z
  end.

(** [String.prototype.includes]. *)
Definition includes (needle hay : str) : bool :=
  negb (indexOf needle hay =? -1)%Z.

(** [String.prototype.slice(start, end)], negative indices counted from the
    end and both bounds clamped to the string. *)
Definition slice (from to : Z) (s : str) : str :=
  let n := len s in
  let a := if (from <? 0)%Z then Z.max (n + from) 0 else Z.min from n in
  let b := if (to <? 0)%Z then Z.max (n + to) 0 else Z.min to n in
  firstn (Z.to_nat (Z.max (b - a) 0)) (skipn (Z.to_nat a) s).

(** [String.prototype.charAt]: the empty string outside the string. *)
Definition charAt (i : Z) (s : str) : str :=
  if ((i <? 0) || (len s <=? i))%Z then []
  else match nth_error s (Z.to_nat i) with
       | Some c => [c]
       | None => []
       end.

(** [String.prototype.replace] with a string pattern: the first occurrence of
    [pat] is replaced.  [rep] is inserted as it is; the source only ever
    passes the empty string. *)
Definition replace (pat rep s : str) : str :=
  let k := indexOf pat s in
  if (k <? 0)%Z then s
  else firstn (Z.to_nat k) s ++ rep ++ skipn (Z.to_nat k + length pat) s.

Fixpoint dropWhile (p : ascii -> bool) (s : str) : str :=
  match s with
  | [] => []
  | c :: s' => if p c then dropWhile p s' else s
  end.

Fixpoint takeWhile (p : ascii -> bool) (s : str) : str :=
  match s with
  | [] => []
  | c :: s' => if p c then c :: takeWhile p s' else []
  end.

(** White space and line terminators of ECMAScript among the code units
    below 256: TAB, LF, VT, FF, CR, SP and NBSP. *)
Definition isWhiteSpace (c : ascii) : bool :=
  let n := code c in
  ((9 <=? n) && (n <=? 13)) || (n =? 32) || (n =? 160).

Definition trimStart (s : str) : str := dropWhile isWhiteSpace s.
Definition trimEnd (s : str) : str := rev (dropWhile isWhiteSpace (rev s)).

(** [String.prototype.trim]. *)
Definition trim (s : str) : str := trimEnd (trimStart s).

Definition isSlash (c : ascii) : bool := Ascii.eqb c "/"%char.
Definition isDot (c : ascii) : bool := Ascii.eqb c "."%char.

(** The text after the last [/] of a path (the whole path when it has none). *)
Definition lastSegment (p : str) : str :=
  rev (takeWhile (fun c => negb (isSlash c)) (rev p)).

(** A name with everything from its first dot on removed. *)
Definition beforeFirstDot (s : str) : str := takeWhile (fun c => negb (isDot c)) s.

Definition isBlank (s : str) : bool := forallb isWhiteSpace s.

Definition startsWithWhiteSpace (s : str) : bool :=
  match s with
  | c :: _ => isWhiteSpace c
  | [] => false
  end.

(** The number of positions of [hay] at which [needle] occurs. *)
Fixpoint occurrences (needle hay : str) : nat :=
  (match strip_prefix needle hay with Some _ => 1 | None => 0 end)
  + match hay with
    | [] => 0
    | _ :: hay' => occurrences needle hay'
    end.

(* ------------------------------------------------------------------ *)
(** *** [encodeURI] *)

Definition isAlnum (c : ascii) : bool :=
  let n := code c in
  ((97 <=? n) && (n <=? 122)) || ((65 <=? n) && (n <=? 90))
  || ((48 <=? n) && (n <=? 57)).

(** Characters [encodeURI] leaves alone: the reserved set [;/?:@&=+$,], the
    unreserved marks [-_.!~*'()], letters, digits, and [#]. *)
Definition uriKept (c : ascii) : bool :=
  isAlnum c || existsb (Ascii.eqb c) (js ";/?:@&=+$,-_.!~*'()#").

Definition hexDigit (n : nat) : ascii := nth n (js "0123456789ABCDEF") "0"%char.

Definition percent (byte : nat) : str :=
  "%"%char :: hexDigit (byte / 16) :: hexDigit (byte mod 16) :: [].

(** One code unit, UTF-8 encoded and percent-escaped unless kept. *)
Definition encodeUnit (c : ascii) : str :=
  if uriKept c then [c]
  else if code c <? 128 then percent (code c)
  else percent (192 + code c / 64) ++ percent (128 + code c mod 64).

Definition encodeURI (s : str) : str := flat_map encodeUnit s.

(** The value of an upper-case hexadecimal digit. *)
Fixpoint position (c : ascii) (s : str) : option nat :=
  match s with
  | [] => None
  | x :: s' => if Ascii.eqb x c then Some 0 else option_map S (position c s')
  end.

Definition hexValue (c : ascii) : option nat := position c (js "0123456789ABCDEF").

(* ------------------------------------------------------------------ *)
(** *** [encodeURI] on every string of the language

    The strings above hold code units below 256, which is all the examples
    need.  [encodeURI] itself reads UTF-16 code units: it writes the UTF-8
    octets of a code point, up to four, and throws at a surrogate that is
    not part of a pair.  This is the whole function; on code units below 256
    it is the [encodeURI] above. *)

Module Utf16.

(** A string as the language has it: its UTF-16 code units. *)
Definition ustr := list Z.

(** Every code unit is in 0..65535. *)
Definition units (s : ustr) : Prop := Forall (fun c => (0 <= c < 65536)%Z) s.

Definition isHigh (c : Z) : bool := ((55296 <=? c) && (c <=? 56319))%Z.
Definition isLow (c : Z) : bool := ((56320 <=? c) && (c <=? 57343))%Z.

Definition unit_ascii (c : Z) : ascii := ascii_of_nat (Z.to_nat c).

(** The code units [encodeURI] leaves alone, all below 128. *)
Definition kept (c : Z) : bool :=
  ((0 <=? c) && (c <? 128))%Z && uriKept (unit_ascii c).

(** The UTF-8 octets of a code point. *)
Definition utf8 (v : Z) : list Z :=
  (if v <? 128 then [v]
   else if v <? 2048 then [192 + v / 64; 128 + v mod 64]
   else if v <? 65536 then
     [224 + v / 4096; 128 + (v / 64) mod 64; 128 + v mod 64]
   else
     [240 + v / 262144; 128 + (v / 4096) mod 64; 128 + (v / 64) mod 64;
      128 + v mod 64])%Z.

Definition escape (v : Z) : str :=
  flat_map (fun octet => percent (Z.to_nat octet)) (utf8 v).

(** The code point of a surrogate pair. *)
Definition codePoint (high low : Z) : Z :=
  ((high - 55296) * 1024 + (low - 56320) + 65536)%Z.

(** [encodeURI]: [None] is the [URIError] thrown at a surrogate that is not
    part of a pair. *)
Fixpoint encodeURI (s : ustr) : option str :=
  match s with
  | [] => Some []
  | c :: rest =>
      if kept c then option_map (cons (unit_ascii c)) (encodeURI rest)
      else if isLow c then None
      else if isHigh c then
        match rest with
        | c' :: rest' =>
            if isLow c'
            then option_map (app (escape (codePoint c c'))) (encodeURI rest')
            else None
        | [] => None
        end
      else option_map (app (escape c)) (encodeURI rest)
  end.

Definition prepareFilePath (path : ustr) : option str :=
  option_map (app (js "file://")) (encodeURI path).

(** A string of code units below 256 among the strings of the language. *)
Definition ofStr (s : str) : ustr := map (fun c => Z.of_nat (code c)) s.

(** Whether [encodeURI] meets a surrogate that is not part of a pair. *)
Fixpoint loneSurrogate (s : ustr) : bool :=
  match s with
  | [] => false
  | c :: rest =>
      if isLow c then true
      else if isHigh c then
        match rest with
        | c' :: rest' => if isLow c' then loneSurrogate rest' else true
        | [] => true
        end
      else loneSurrogate rest
  end.

(** Reading [encodeURI] back; the source never decodes. *)
Definition readOctet (s : str) : option (Z * str) :=
  match s with
  | "%"%char :: h1 :: h2 :: rest =>
      match hexValue h1, hexValue h2 with
      | Some a, Some b => Some (Z.of_nat (16 * a + b), rest)
      | _, _ => None
      end
  | _ => None
  end.

Fixpoint readOctets (n : nat) (s : str) : option (list Z * str) :=
  match n with
  | O => Some ([], s)
  | S n' =>
      match readOctet s with
      | Some (o, rest) =>
          match readOctets n' rest with
          | Some (octets, rest') => Some (o :: octets, rest')
          | None => None
          end
      | None => None
      end
  end.

(** The code units at the head of an encoded string, and what follows. *)
Definition decodeFirst (s : str) : option (list Z * str) :=
  match s with
  | [] => None
  | "%"%char :: _ =>
      match readOctet s with
      | Some (o1, r1) =>
          (if o1 <? 128 then Some ([o1], r1)
           else if o1 <? 224 then
             match readOctets 1 r1 with
             | Some ([o2], r) => Some ([(o1 - 192) * 64 + (o2 - 128)], r)
             | _ => None
             end
           else if o1 <? 240 then
             match readOctets 2 r1 with
             | Some ([o2; o3], r) =>
                 Some ([(o1 - 224) * 4096 + (o2 - 128) * 64 + (o3 - 128)], r)
             | _ => None
             end
           else
             match readOctets 3 r1 with
             | Some ([o2; o3; o4], r) =>
                 let v := (o1 - 240) * 262144 + (o2 - 128) * 4096
                          + (o3 - 128) * 64 + (o4 - 128) - 65536 in
                 Some ([55296 + v / 1024; 56320 + v mod 1024], r)
             | _ => None
             end)%Z
      | None => None
      end
  | c :: rest => Some ([Z.of_nat (code c)], rest)
  end.

End Utf16.

(* ================================================================== *)
(** ** Regular expressions

    The fragment of ECMAScript regular expressions the two patterns of
    [index.ts] are written in, with a backtracking matcher that follows the
    priorities of the language: the left alternative first, the longest
    repetition first. *)

(** A character class as its list of inclusive ranges. *)
Definition charclass := list (ascii * ascii).

Definition in_class (cls : charclass) (c : ascii) : bool :=
  existsb (fun r => (code (fst r) <=? code c) && (code c <=? code (snd r))) cls.

(** The ranges of a class from the text between its brackets.  An atom is a
    character or a backslash and the character it escapes (the classes of
    the source only escape the dot); an atom, a hyphen and an atom are a
    range; any other atom, a final hyphen included, stands for itself. *)
Fixpoint classRanges (s : str) : charclass :=
  let range lo rest :=
    match rest with
    | "-"%char :: "\"%char :: hi :: rest' => (lo, hi) :: classRanges rest'
    | "-"%char :: hi :: rest' => (lo, hi) :: classRanges rest'
    | _ => (lo, lo) :: classRanges rest
    end in
  match s with
  | [] => []
  | "\"%char :: c :: rest => range c rest
  | c :: rest => range c rest
  end.

Inductive regex : Type :=
| Lit (s : str)                 (* the characters of [s], in order *)
| Plus (cls : charclass)        (* [[...]+] *)
| Seq (r1 r2 : regex)           (* [r1 r2] *)
| Alt (r1 r2 : regex)           (* [r1|r2] *)
| Group (n : nat) (r : regex).  (* the n-th capturing group [(r)] *)

Infix ">>" := Seq (at level 61, right associativity).

(** The captures of a match: the text of each group that took part. *)
Definition captures := list (nat * str).

Definition capture (n : nat) (caps : captures) : option str :=
  option_map snd (find (fun e => Nat.eqb (fst e) n) caps).

Definition set_capture (n : nat) (text : str) (caps : captures) : captures :=
  (n, text) :: caps.

(** [[cls]+] from the start of [s]: one character, then greedily more; the
    continuation [k] gets what is left. *)
Fixpoint plusR {A} (cls : charclass) (s : str) (k : str -> option A) : option A :=
  match s with
  | [] => None
  | c :: s' =>
      if in_class cls c then
        match plusR cls s' k with
        | Some res => Some res
        | None => k s'
        end
      else None
  end.

Fixpoint matchR (r : regex) (s : str) (caps : captures)
    (k : str -> captures -> option captures) : option captures :=
  match r with
  | Lit l =>
      match strip_prefix l s with
      | Some rest => k rest caps
      | None => None
      end
  | Plus cls => plusR cls s (fun rest => k rest caps)
  | Seq r1 r2 => matchR r1 s caps (fun rest caps' => matchR r2 rest caps' k)
  | Alt r1 r2 =>
      match matchR r1 s caps k with
      | Some res => Some res
      | None => matchR r2 s caps k
      end
  | Group n r1 =>
      matchR r1 s caps (fun rest caps' =>
        k rest (set_capture n (firstn (length s - length rest) s) caps'))
  end.

(** [s.match("^r$")]: both patterns of the source are anchored at the two
    ends, so the search for a match is a match of the whole string. *)
Definition match_anchored (r : regex) (s : str) : option captures :=
  matchR r s [] (fun rest caps => match rest with [] => Some caps | _ => None end).

(** What a pattern denotes: the texts it matches, with the captures before
    and after. *)
Fixpoint denotes (r : regex) (text : str) (caps caps' : captures) : Prop :=
  match r with
  | Lit l => text = l /\ caps' = caps
  | Plus cls => text <> [] /\ forallb (in_class cls) text = true /\ caps' = caps
  | Seq r1 r2 =>
      exists t1 t2 mid,
        text = t1 ++ t2 /\ denotes r1 t1 caps mid /\ denotes r2 t2 mid caps'
  | Alt r1 r2 => denotes r1 text caps caps' \/ denotes r2 text caps caps'
  | Group n r1 =>
      exists mid, denotes r1 text caps mid /\ caps' = set_capture n text mid
  end.

(* ================================================================== *)
(** ** The path classifier ([index.ts]) *)

Record DirectoriesConfig := {
  root : str;
  playlists : option str;
  soundboards : option str
}.

Definition DEFAULT_PLAYLIST_DIR : str := js "Playlists".
Definition DEFAULT_SOUNDBOARDS_DIR : str := js "Soundboards".

(** [a || b] for an optional string [a]: [undefined] and the empty string are
    falsy. *)
Definition or_default (a : option str) (b : str) : str :=
  match a with
  | Some (c :: s) => c :: s
  | _ => b
  end.

Definition playlistsDir (d : DirectoriesConfig) : str :=
  or_default (playlists d) DEFAULT_PLAYLIST_DIR.

Definition soundboardsDir (d : DirectoriesConfig) : str :=
  or_default (soundboards d) DEFAULT_SOUNDBOARDS_DIR.

(** [[a-zA-Z0-9 -]]: letters, digits, the space and the hyphen. *)
Definition folderClass : charclass := classRanges (js "a-zA-Z0-9 -").

(** [[a-zA-Z0-9 -\.]]: in a class, [ -\.] is the range from the space
    (U+0020) to the full stop (U+002E), so the class also holds the marks
    between them. *)
Definition fileClass : charclass := classRanges (js "a-zA-Z0-9 -\.").

Definition folderRegex : regex := Plus folderClass.
Definition fileRegex : regex := Plus fileClass.

(** [^root/(playlists|soundboards)/(folderRegex)$].  The root and the two
    directory names are spliced into the pattern source unescaped; the
    embedding reads them as literal text, which is what the pattern means
    when they hold no character of the pattern syntax ([plain_config]
    below). *)
Definition directoryPattern (directories : DirectoriesConfig) : regex :=
  Lit (root directories) >> Lit (js "/")
  >> Group 1 (Alt (Lit (playlistsDir directories)) (Lit (soundboardsDir directories)))
  >> Lit (js "/") >> Group 2 folderRegex.

(** [^root/(playlists|soundboards)/folderRegex/(fileRegex)$] *)
Definition filePattern (directories : DirectoriesConfig) : regex :=
  Lit (root directories) >> Lit (js "/")
  >> Group 1 (Alt (Lit (playlistsDir directories)) (Lit (soundboardsDir directories)))
  >> Lit (js "/") >> folderRegex >> Lit (js "/") >> Group 2 fileRegex.

(** [match ? match[2] : undefined].  The two validators are those of the
    source for the configurations of [plain_config]; with a name that holds
    a character of the pattern syntax the pattern of the source means
    something else, or is no pattern at all; the statements about what the
    validators accept carry [plain_config]. *)
Definition validateDirectory (directories : DirectoriesConfig) (path : str) : option str :=
  match match_anchored (directoryPattern directories) path with
  | Some m => capture 2 m
  | None => None
  end.

Definition validateFile (directories : DirectoriesConfig) (path : str) : option str :=
  match match_anchored (filePattern directories) path with
  | Some m => capture 2 m
  | None => None
  end.

(** The characters of the pattern syntax. *)
Definition isSyntaxChar (c : ascii) : bool :=
  existsb (Ascii.eqb c) (js "^$\.*+?()[]{}|").

Definition plain (s : str) : bool := forallb (fun c => negb (isSyntaxChar c)) s.

Definition plain_config (d : DirectoriesConfig) : bool :=
  plain (root d) && plain (playlistsDir d) && plain (soundboardsDir d).

Definition removeFileType (fileName : str) : str :=
  let clean :=
    if includes (js ".") fileName
    then slice 0 (indexOf (js ".") fileName) (trim fileName)
    else trim fileName in
  if (len (trim clean) =? 0)%Z then js "UnknownTitle" else clean.

Definition prepareFilePath (path : str) : str := js "file://" ++ encodeURI path.

Definition cleanUrl (path : str) : str :=
  if negb (str_eqb (charAt (len path - 1) path) (js "/"))
  then path
  else slice 0 (len path - 1) path.

(** The earlier revision of [index.ts] that the repository keeps beside the
    current one ([src/unnamed/part_000]).  Its classifier and queue worker
    are those above; its [removeFileType] is this one. *)
Module Part000.

Definition removeFileType (fileName : str) : str :=
  slice 0 (indexOf (js ".") fileName) fileName.

End Part000.

(** The paths [validateDirectory] accepts, with the name it returns. *)
Definition directoryShape (d : DirectoriesConfig) (p name : str) : Prop :=
  exists sub,
    p = root d ++ js "/" ++ sub ++ js "/" ++ name
    /\ (sub = playlistsDir d \/ sub = soundboardsDir d)
    /\ name <> [] /\ forallb (in_class folderClass) name = true.

(** The paths [validateFile] accepts, with the name it returns. *)
Definition fileShape (d : DirectoriesConfig) (p name : str) : Prop :=
  exists sub coll,
    p = root d ++ js "/" ++ sub ++ js "/" ++ coll ++ js "/" ++ name
    /\ (sub = playlistsDir d \/ sub = soundboardsDir d)
    /\ coll <> [] /\ forallb (in_class folderClass) coll = true
    /\ name <> [] /\ forallb (in_class fileClass) name = true.

(* ------------------------------------------------------------------ *)
(** *** The grammar of the specification *)

(** Letters, digits, spaces and hyphens. *)
Definition folderChar (c : ascii) : bool :=
  isAlnum c || Ascii.eqb c " "%char || Ascii.eqb c "-"%char.

Definition collectionName (s : str) : Prop :=
  s <> [] /\ forallb folderChar s = true.

(** An item name in which the dot may occur any number of times. *)
Definition itemName (s : str) : Prop :=
  s <> [] /\ forallb (fun c => folderChar c || isDot c) s = true.

(** An item name with at most one dot. *)
Definition itemNameOneDot (s : str) : Prop :=
  itemName s /\ (length (filter isDot s) <= 1)%nat.

(** [<root>/(<playlistsDirName>|<soundboardsDirName>)/<collectionName>] *)
Definition directoryGrammar (d : DirectoriesConfig) (p : str) : Prop :=
  exists sub name,
    p = root d ++ js "/" ++ sub ++ js "/" ++ name
    /\ (sub = playlistsDir d \/ sub = soundboardsDir d)
    /\ collectionName name.

(** [<root>/(<playlistsDirName>|<soundboardsDirName>)/<collectionName>/<itemName>],
    for a given reading [item] of what an item name is. *)
Definition fileGrammar (item : str -> Prop) (d : DirectoriesConfig) (p : str) : Prop :=
  exists sub coll name,
    p = root d ++ js "/" ++ sub ++ js "/" ++ coll ++ js "/" ++ name
    /\ (sub = playlistsDir d \/ sub = soundboardsDir d)
    /\ collectionName coll
    /\ item name.

(** The marks that [fileClass] holds besides letters, digits, the space, the
    hyphen and the dot: the code units 33 to 44. *)
Definition isStrayMark (c : ascii) : bool :=
  (33 <=? code c) && (code c <=? 44).

(** The title the specification gives for an item name: the name up to its
    first dot, or [UnknownTitle] when that is empty or blank. *)
Definition statedTitle (name : str) : str :=
  if isBlank (beforeFirstDot name) then js "UnknownTitle" else beforeFirstDot name.

(* ================================================================== *)
(** ** The world: process state and effects *)

Variant Action := add | addDir | unlink | unlinkDir.

Record Event := { action : Action; path : str }.

Variant Method := get | put | post.

(** The request bodies of [kenku.ts], one constructor per shape. *)
Variant Body :=
| CollectionBody (title url : str)
| TrackBody (title url playlistUrl : str)
| RemoveTrackBody (trackUrl playlistUrl : str)
| UrlBody (url : str)
| SoundBody (soundboardUrl title url : str) (loop : bool) (volume fadeIn fadeOut : Z)
| RemoveSoundBody (soundUrl soundboardUrl : str).

Variant Effect :=
| Fetch (url : str) (method : Method) (body : option Body)  (* a request sent *)
| Delay (ms : Z)                                            (* [setTimeout] awaited *)
| SetInterval (ms : Z)                                      (* the queue timer *)
| Watch (root : str).                                       (* the chokidar subscription *)

Record World := {
  ACTIVATED : bool;
  queue : list Event;
  trace : list Effect
}.

Definition initial : World :=
  {| ACTIVATED := false; queue := []; trace := [] |}.

Definition set_ACTIVATED (b : bool) (w : World) : World :=
  {| ACTIVATED := b; queue := queue w; trace := trace w |}.

Definition set_queue (q : list Event) (w : World) : World :=
  {| ACTIVATED := ACTIVATED w; queue := q; trace := trace w |}.

Definition perform (e : Effect) (w : World) : World :=
  {| ACTIVATED := ACTIVATED w; queue := queue w; trace := trace w ++ [e] |}.

Definition JOB_FREQUENCY : Z := 500.

Record KenkuRemoteConfig := { host : str; port : str }.

Definition DEFAULT_KENKU_CONFIG : KenkuRemoteConfig :=
  {| host := js "127.0.0.1"; port := js "3333" |}.

Record Request := {
  req_path : str;
  req_method : Method;
  req_body : option Body
}.

Definition url (host port : str) : str :=
  js "http://" ++ host ++ js ":" ++ port ++ js "/v1".

(** The request [callKenku] sends for [req]. *)
Definition sent (config : KenkuRemoteConfig) (req : Request) : Effect :=
  Fetch (url (host config) (port config) ++ js "/" ++ req_path req)
        (req_method req) (req_body req).

Definition is_fetch (e : Effect) : bool :=
  match e with Fetch _ _ _ => true | _ => false end.

Definition is_delay (e : Effect) : bool :=
  match e with Delay _ => true | _ => false end.

(** The effects [es], performed in order. *)
Definition performs (es : list Effect) (w : World) : World :=
  fold_left (fun w e => perform e w) es w.

(** The collection url of a request body for a track or a sound. *)
Definition collectionUrl (b : Body) : option str :=
  match b with
  | TrackBody _ _ playlistUrl => Some playlistUrl
  | RemoveTrackBody _ playlistUrl => Some playlistUrl
  | SoundBody soundboardUrl _ _ _ _ _ _ => Some soundboardUrl
  | RemoveSoundBody _ soundboardUrl => Some soundboardUrl
  | CollectionBody _ _ | UrlBody _ => None
  end.

(** What the environment delivers to the callbacks [watch] registered. *)
Variant Signal :=
| Ready                            (* chokidar's [ready] *)
| Changed (a : Action) (p : str)   (* chokidar's [add], [addDir], [unlink], [unlinkDir] *)
| Tick.                            (* the interval timer fires *)

Definition is_ready (s : Signal) : bool :=
  match s with Ready => true | _ => false end.

Definition enqueue (e : Event) : Signal := Changed (action e) (path e).

(** The validator [handleQueue] applies to an event of each kind. *)
Definition classify (directories : DirectoriesConfig) (e : Event) : option str :=
  match action e with
  | add | unlink => validateFile directories (path e)
  | addDir | unlinkDir => validateDirectory directories (path e)
  end.

Definition is_tick (s : Signal) : bool :=
  match s with Tick => true | _ => false end.

(** The events a sequence of signals pushes on the queue, in order. *)
Definition enqueued (signals : list Signal) : list Event :=
  flat_map (fun s => match s with
                     | Changed a p => [{| action := a; path := p |}]
                     | _ => []
                     end) signals.

(** The number of requests in a trace. *)
Definition requests (t : list Effect) : nat := length (filter is_fetch t).

Definition is_get (e : Effect) : bool :=
  match e with Fetch _ get _ => true | _ => false end.

Definition is_put (e : Effect) : bool :=
  match e with Fetch _ put _ => true | _ => false end.

(** The value of an option as [yargs] hands it to [driver].  An option that
    was not given is [undefined]; text that does not read as a number is a
    string.  Any other value (the number of [--rootDir 0], the boolean of a
    bare [--rootDir], the array of an option given twice) is [VOther]: the
    program only tests it, converts it to a string in a template or as the
    argument of [includes], and hands the root to [chokidar]; so it is kept
    as its truthiness and its conversion to a string. *)
Variant Value :=
| undefined
| VString (s : str)
| VOther (truthy : bool) (shown : str).

(** [!!v]: the empty string, [undefined], [0], [NaN] and [false] are falsy. *)
Definition truthy (v : Value) : bool :=
  match v with
  | undefined => false
  | VString [] => false
  | VString (_ :: _) => true
  | VOther t _ => t
  end.

(** The conversion of a value in a template string. *)
Definition toString (v : Value) : str :=
  match v with
  | undefined => js "undefined"
  | VString s => s
  | VOther _ shown => shown
  end.

(** [v === s] for a string [s], which is also what [includes] tests on an
    array of strings: a value that is not a string equals none. *)
Definition sameValue (v : Value) (s : str) : bool :=
  match v with
  | VString x => str_eqb x s
  | _ => false
  end.

(** A directory name of the command line as [DirectoriesConfig] holds it: a
    falsy value gives way to the default, and a truthy one is used through
    its conversion to a string, which is not empty for a number, a boolean
    or the array of a repeated option. *)
Definition directoryName (v : Value) : option str :=
  if truthy v then Some (toString v) else None.

Record Argv := {
  argv_action : Value;
  argv_rootDir : Value;
  argv_host : Value;
  argv_port : Value;
  argv_playlistsDir : Value;
  argv_soundboardsDir : Value
}.

(** A response of the service: its status and [response.json()], [None] when
    the body is not JSON.  [Json] is the type of decoded values ([any] in
    the source). *)
Record Response (Json : Type) := {
  status : Z;
  json : option Json
}.

Arguments status {Json} r.
Arguments json {Json} r.

(** What [fetch] settles to. *)
Variant FetchResult (Json : Type) :=
| Rejected
| Responded (response : Response Json).

Arguments Rejected {Json}.
Arguments Responded {Json} response.

(** Modelled from the spec: the requests of [listPlaylists] and
    [listSoundboards], which the given [kenku.ts] does not define; the
    interface table of the specification names the two GET paths. *)
Definition listPlaylistsRequest : Request :=
  {| req_path := js "playlist/list"; req_method := get; req_body := None |}.

Definition listSoundboardsRequest : Request :=
  {| req_path := js "soundboard/list"; req_method := get; req_body := None |}.

(** The requests [removePlaylist] and [removeSoundboard] send for a url. *)
Definition removePlaylistRequest (u : str) : Request :=
  {| req_path := js "playlist/remove"; req_method := put; req_body := Some (UrlBody u) |}.

Definition removeSoundboardRequest (u : str) : Request :=
  {| req_path := js "soundboard/remove"; req_method := put; req_body := Some (UrlBody u) |}.

(* ================================================================== *)
(** ** Asynchronous computations *)

(** What a rejected promise carries. *)
Variant Exn :=
| Error (message : str)   (* [Error(message)] *)
| SyntaxError             (* [response.json()] on a body that is not JSON *)
| FetchError.             (* [fetch] rejected: the service was not reached *)

Variant Outcome (A : Type) :=
| Returned (a : A)
| Thrown (e : Exn).

Arguments Returned {A} a.
Arguments Thrown {A} e.

(** An awaited computation: it runs against the world and returns or throws. *)
Definition M (A : Type) : Type := World -> Outcome A * World.

Definition ret {A} (a : A) : M A := fun w => (Returned a, w).

Definition throw {A} (e : Exn) : M A := fun w => (Thrown e, w).

Definition bind {A B} (m : M A) (f : A -> M B) : M B :=
  fun w =>
    match m w with
    | (Returned a, w') => f a w'
    | (Thrown e, w') => (Thrown e, w')
    end.

Notation "x <- m ;; k" := (bind m (fun x => k))
  (at level 62, m at next level, right associativity).
Notation "m ;;; k" := (bind m (fun _ => k))
  (at level 62, right associativity).

(** [for (const x of xs) { await body(x) }] *)
Fixpoint forEach {A} (xs : list A) (body : A -> M unit) : M unit :=
  match xs with
  | [] => ret tt
  | x :: xs' => body x ;;; forEach xs' body
  end.

(** [m.catch(console.log)] on a promise nobody awaits: the effects of [m]
    happen, its result and its failure are dropped. *)
Definition catch_log {A} (m : M A) (w : World) : World := snd (m w).

(** [delay(ms)], awaited. *)
Definition delay (ms : Z) : M unit := fun w => (Returned tt, perform (Delay ms) w).

(* ================================================================== *)
(** ** Example data *)

(** The directory layout of the examples: the defaults of the source under
    the root [/r]. *)
Definition underR : DirectoriesConfig :=
  {| root := js "/r"; playlists := Some (js "Playlists"); soundboards := None |}.

Definition song : str := js "/r/Playlists/Jazz/Song 1.mp3".

(** A layout with configured directory names: playlists under [Music],
    soundboards under [Effects]. *)
Definition underMusic : DirectoriesConfig :=
  {| root := js "/r"; playlists := Some (js "Music"); soundboards := Some (js "Effects") |}.

Definition tune : str := js "/r/Music/Jazz/Song 1.mp3".

(** A service whose decoded answers are listings of urls, in three
    behaviours: never reached, healthy, and refusing every removal. *)
Definition Listing := list str.

Definition show_listing (l : Listing) : str := concat l.

Definition remotePlaylists : Listing := [js "/r/Playlists/Jazz"; js "/r/Playlists/Rock"].
Definition remoteSoundboards : Listing := [js "/r/Soundboards/Combat"].

Definition unreachable : list Effect -> FetchResult Listing :=
  fun _ => Rejected.

(** Answers the two listing requests with the listings above and every other
    request with [removalStatus] and an empty body. *)
Definition service (removalStatus : Z) (history : list Effect) : FetchResult Listing :=
  match last history (Delay 0) with
  | Fetch u get _ =>
      if str_eqb u (url (js "127.0.0.1") (js "3333") ++ js "/playlist/list")
      then Responded {| status := 200; json := Some remotePlaylists |}
      else Responded {| status := 200; json := Some remoteSoundboards |}
  | _ => Responded {| status := removalStatus; json := Some [] |}
  end.

Definition healthy := service 200.
Definition refusing := service 500.

(** A service with a state: it lists what has not been removed yet, and
    answers the removal of a url that was removed before with 404. *)
Definition removedUrls (history : list Effect) : list str :=
  flat_map (fun e => match e with
                     | Fetch _ put (Some (UrlBody u)) => [u]
                     | _ => []
                     end) history.

Definition stillThere (history : list Effect) (l : Listing) : Listing :=
  filter (fun x => negb (existsb (str_eqb x) (removedUrls history))) l.

Definition live (history : list Effect) : FetchResult Listing :=
  match last history (Delay 0) with
  | Fetch u get _ =>
      if str_eqb u (url (js "127.0.0.1") (js "3333") ++ js "/playlist/list")
      then Responded {| status := 200; json := Some (stillThere history remotePlaylists) |}
      else Responded {| status := 200; json := Some (stillThere history remoteSoundboards) |}
  | Fetch _ put (Some (UrlBody u)) =>
      if existsb (str_eqb u) (removedUrls (removelast history))
      then Responded {| status := 404; json := Some [] |}
      else Responded {| status := 200; json := Some [] |}
  | _ => Responded {| status := 200; json := Some [] |}
  end.

(** Command lines: [--action view], and [--action backfill --rootDir /r]. *)
Definition viewArgv : Argv :=
  {| argv_action := VString (js "view"); argv_rootDir := undefined;
     argv_host := undefined; argv_port := VOther true (js "3334");
     argv_playlistsDir := undefined; argv_soundboardsDir := undefined |}.


(** [--action watch --rootDir 0]: the root is the number 0. *)
Definition watchZeroArgv : Argv :=
  {| argv_action := VString (js "watch"); argv_rootDir := VOther false (js "0");
     argv_host := undefined; argv_port := undefined;
     argv_playlistsDir := undefined; argv_soundboardsDir := undefined |}.

(** [--action delete --rootDir /r]. *)
Definition deleteArgv : Argv :=
  {| argv_action := VString (js "delete"); argv_rootDir := VString (js "/r");
     argv_host := undefined; argv_port := undefined;
     argv_playlistsDir := undefined; argv_soundboardsDir := undefined |}.

(** A watcher library that refuses every root that is not a string. *)
Definition stringsOnly (v : Value) : option Exn :=
  Some (Error (js "Non-string provided as watch path: " ++ toString v)).

(** A soundboard whose name holds the name of the playlists directory. *)
Definition oldPlaylists : str := js "/r/Soundboards/Old Playlists".

Definition closedWorld (q : list Event) : World :=
  {| ACTIVATED := false; queue := q; trace := [] |}.

Definition openWorld (q : list Event) : World :=
  {| ACTIVATED := true; queue := q; trace := [] |}.

(* ================================================================== *)
(** ** The program *)

Section Kenku.

(** The decoded JSON values and [JSON.stringify] on them. *)
Variable Json : Type.
Variable stringify : Json -> str.

(** The remote service: its answer to the last request of a trace. *)
Variable remote : list Effect -> FetchResult Json.

(** The urls of the entries of [data.playlists] and of [data.soundboards],
    for the answers to the two listing requests. *)
Variable playlists_of : Json -> list str.
Variable soundboards_of : Json -> list str.

(** [chokidar.watch] on a root that is not a string: what it throws, if it
    throws.  The library is not part of the repository. *)
Variable subscribe : Value -> option Exn.

(* ------------------------------------------------------------------ *)
(** *** [kenku.ts] *)

Definition fetch (config : KenkuRemoteConfig) (req : Request) : M (Response Json) :=
  fun w =>
    let w' := perform (sent config req) w in
    match remote (trace w') with
    | Rejected => (Thrown FetchError, w')
    | Responded response => (Returned response, w')
    end.

Definition response_json (response : Response Json) : M Json :=
  match json response with
  | Some data => ret data
  | None => throw SyntaxError
  end.

Definition callKenku (config : KenkuRemoteConfig) (req : Request) : M Json :=
  response <- fetch config req ;;
  data <- response_json response ;;
  if (status response >=? 400)%Z
  then throw (Error (stringify data))
  else ret data.

Definition addPlaylist (config : KenkuRemoteConfig) (body : Body) : M Json :=
  callKenku config
    {| req_path := js "playlist/add"; req_method := put; req_body := Some body |}.

Definition addTrack (config : KenkuRemoteConfig) (body : Body) : M Json :=
  callKenku config
    {| req_path := js "playlist/addTrack"; req_method := put; req_body := Some body |}.

Definition removeTrack (config : KenkuRemoteConfig) (body : Body) : M Json :=
  callKenku config
    {| req_path := js "playlist/removeTrack"; req_method := put; req_body := Some body |}.

Definition removePlaylist (config : KenkuRemoteConfig) (body : Body) : M Json :=
  callKenku config
    {| req_path := js "playlist/remove"; req_method := put; req_body := Some body |}.

Definition addSoundboard (config : KenkuRemoteConfig) (body : Body) : M Json :=
  callKenku config
    {| req_path := js "soundboard/add"; req_method := put; req_body := Some body |}.

Definition addSound (config : KenkuRemoteConfig) (body : Body) : M Json :=
  callKenku config
    {| req_path := js "soundboard/addSound"; req_method := put; req_body := Some body |}.

Definition removeSound (config : KenkuRemoteConfig) (body : Body) : M Json :=
  callKenku config
    {| req_path := js "soundboard/removeSound"; req_method := put; req_body := Some body |}.

Definition removeSoundboard (config : KenkuRemoteConfig) (body : Body) : M Json :=
  callKenku config
    {| req_path := js "soundboard/remove"; req_method := put; req_body := Some body |}.

(** Modelled from the spec: [listPlaylists] and [listSoundboards], which
    [index.ts] imports from [kenku.ts] and the given [kenku.ts] does not
    define.  Each is one GET round trip through [callKenku], answered with
    the listing. *)
Definition listPlaylists (config : KenkuRemoteConfig) : M Json :=
  callKenku config listPlaylistsRequest.

Definition listSoundboards (config : KenkuRemoteConfig) : M Json :=
  callKenku config listSoundboardsRequest.

(* ------------------------------------------------------------------ *)
(** *** The queue worker ([index.ts]) *)

(** [ACTIVATED && v]: the classified name when the gate is open and the name
    is truthy. *)
Definition gated (activated : bool) (v : option str) : option str :=
  if activated then
    match v with
    | Some (c :: s) => Some (c :: s)
    | _ => None
    end
  else None.

(** One firing of the queue timer.  The paths of this development hold code
    units below 256, for which [encodeURI] does not throw
    ([Utf16.encodeURI]); the validators are read as said above. *)
Definition handleQueue (directories : DirectoriesConfig)
    (kenkuConfig : KenkuRemoteConfig) (w : World) : World :=
  match queue w with
  | [] => w
  | event :: rest =>
      let w := set_queue rest w in   (* [queue.shift()] *)
      let path := path event in
      match action event with
      | add =>
          match gated (ACTIVATED w) (validateFile directories path) with
          | Some fileToAdd =>
              if includes (playlistsDir directories) path then
                catch_log (addTrack kenkuConfig
                  (TrackBody (removeFileType fileToAdd)
                             (cleanUrl (prepareFilePath path))
                             (cleanUrl (replace fileToAdd [] path)))) w
              else
                catch_log (addSound kenkuConfig
                  (SoundBody (cleanUrl (replace fileToAdd [] path))
                             (removeFileType fileToAdd)
                             (cleanUrl (prepareFilePath path))
                             true 100 500 500)) w
          | None => w
          end
      | addDir =>
          match gated (ACTIVATED w) (validateDirectory directories path) with
          | Some dirToAdd =>
              if includes (playlistsDir directories) path then
                catch_log (addPlaylist kenkuConfig
                  (CollectionBody dirToAdd (cleanUrl path))) w
              else
                catch_log (addSoundboard kenkuConfig
                  (CollectionBody dirToAdd (cleanUrl path))) w
          | None => w
          end
      | unlink =>
          match gated (ACTIVATED w) (validateFile directories path) with
          | Some file =>
              if includes (playlistsDir directories) path then
                catch_log (removeTrack kenkuConfig
                  (RemoveTrackBody (cleanUrl (prepareFilePath path))
                                   (cleanUrl (replace file [] path)))) w
              else
                catch_log (removeSound kenkuConfig
                  (RemoveSoundBody (cleanUrl (prepareFilePath path))
                                   (cleanUrl (replace file [] path)))) w
          | None => w
          end
      | unlinkDir =>
          match gated (ACTIVATED w) (validateDirectory directories path) with
          | Some dir =>
              if includes (playlistsDir directories) path then
                catch_log (removePlaylist kenkuConfig (UrlBody (cleanUrl path))) w
              else
                catch_log (removeSoundboard kenkuConfig (UrlBody (cleanUrl path))) w
          | None => w
          end
      end
  end.

(* ------------------------------------------------------------------ *)
(** *** Start-up modes ([index.ts]) *)

Definition purge (kenkuConfig : KenkuRemoteConfig) : M unit :=
  playlists <- listPlaylists kenkuConfig ;;
  soundboards <- listSoundboards kenkuConfig ;;
  (match playlists_of playlists with
   | [] => ret tt
   | _ :: _ =>
       forEach (playlists_of playlists) (fun playlist =>
         removePlaylist kenkuConfig (UrlBody playlist) ;;; delay 500)
   end) ;;;
  (match soundboards_of soundboards with
   | [] => ret tt
   | _ :: _ =>
       forEach (soundboards_of soundboards) (fun soundboard =>
         removeSoundboard kenkuConfig (UrlBody soundboard) ;;; delay 500)
   end).

(** The synchronous part of [watch]: the gate is set from the mode, the
    queue timer is started and the watcher is subscribed. *)
Definition watch (backfill : bool) (directories : DirectoriesConfig)
    (kenkuConfig : KenkuRemoteConfig) (w : World) : World :=
  perform (Watch (root directories))
    (perform (SetInterval JOB_FREQUENCY) (set_ACTIVATED backfill w)).

Definition deliver (directories : DirectoriesConfig)
    (kenkuConfig : KenkuRemoteConfig) (w : World) (s : Signal) : World :=
  match s with
  | Ready => set_ACTIVATED true w
  | Changed a p => set_queue (queue w ++ [{| action := a; path := p |}]) w
  | Tick => handleQueue directories kenkuConfig w
  end.

(** A run of the watcher: [watch] from the initial world, then the signals
    in the order they arrive. *)
Definition run (backfill : bool) (directories : DirectoriesConfig)
    (kenkuConfig : KenkuRemoteConfig) (signals : list Signal) : World :=
  fold_left (deliver directories kenkuConfig) signals
    (watch backfill directories kenkuConfig initial).

(** The table of the specification: the remote operation for an event kind
    and a branch ([true] for the playlist branch). *)
Definition operation (a : Action) (playlistBranch : bool)
    : KenkuRemoteConfig -> Body -> M Json :=
  match a, playlistBranch with
  | add, true => addTrack
  | add, false => addSound
  | unlink, true => removeTrack
  | unlink, false => removeSound
  | addDir, true => addPlaylist
  | addDir, false => addSoundboard
  | unlinkDir, true => removePlaylist
  | unlinkDir, false => removeSoundboard
  end.

(** [n] firings of the queue timer. *)
Definition ticks (directories : DirectoriesConfig) (kenkuConfig : KenkuRemoteConfig)
    (n : nat) (w : World) : World :=
  Nat.iter n (handleQueue directories kenkuConfig) w.

(** The service's answer at [history], the trace up to and including the
    request answered: a JSON body [data] with a status below 400.  The answer
    may depend on everything sent before, so a listing may change after a
    removal. *)
Definition answers (history : list Effect) (data : Json) : Prop :=
  exists response,
    remote history = Responded response
    /\ json response = Some data /\ (status response < 400)%Z.

Definition accepts (history : list Effect) : Prop :=
  exists data, answers history data.

(** The request that ends [history] fails with [e]: the service is not
    reached, its body is not JSON, or its status is 400 or more. *)
Definition refuses (history : list Effect) (e : Exn) : Prop :=
  match remote history with
  | Rejected => e = FetchError
  | Responded response =>
      match json response with
      | None => e = SyntaxError
      | Some data => (status response >= 400)%Z /\ e = Error (stringify data)
      end
  end.

(** The effects of a loop of removals that all return: for each url its
    request, then the pause. *)
Definition removals (config : KenkuRemoteConfig) (request : str -> Request)
    (urls : list str) : list Effect :=
  flat_map (fun u => [sent config (request u); Delay 500]) urls.

(** The trace when the removal of the [i]-th of [urls] has just been sent,
    the removals before it having returned; [before] is the trace at the
    start of the loop. *)
Definition removalSent (config : KenkuRemoteConfig) (request : str -> Request)
    (before : list Effect) (urls : list str) (i : nat) : list Effect :=
  before ++ removals config request (firstn i urls)
         ++ [sent config (request (nth i urls []))].

(** A computation that only talks to the service and waits. *)
Definition remote_only {A} (m : M A) : Prop :=
  forall w,
    exists es,
      snd (m w) = performs es w
      /\ forallb (fun e => is_fetch e || is_delay e) es = true.

(** A computation all of whose effects satisfy [P], and that leaves the
    queue and the gate alone. *)
Definition emits {A} (P : Effect -> Prop) (m : M A) : Prop :=
  forall w, exists es, snd (m w) = performs es w /\ Forall P es.

(** What [purge] may do: wait 500, list, or remove a collection. *)
Definition purgeEffect (config : KenkuRemoteConfig) (e : Effect) : Prop :=
  e = Delay 500
  \/ e = sent config listPlaylistsRequest
  \/ e = sent config listSoundboardsRequest
  \/ (exists u, e = sent config (removePlaylistRequest u))
  \/ (exists u, e = sent config (removeSoundboardRequest u)).

(** [kenkuConfig] of [driver]: the host and the port of the command line,
    or the defaults; the url is built from their conversions to strings. *)
Definition driver_kenkuConfig (argv : Argv) : KenkuRemoteConfig :=
  {| host := if truthy (argv_host argv) then toString (argv_host argv)
             else host DEFAULT_KENKU_CONFIG;
     port := if truthy (argv_port argv) then toString (argv_port argv)
             else port DEFAULT_KENKU_CONFIG |}.

(** The actions [driver] accepts. *)
Definition actions : list str := [js "purge"; js "backfill"; js "watch"; js "view"].

(** The directories [driver] hands to [watch]. *)
Definition driver_directories (argv : Argv) : DirectoriesConfig :=
  {| root := toString (argv_rootDir argv);
     playlists := directoryName (argv_playlistsDir argv);
     soundboards := directoryName (argv_soundboardsDir argv) |}.

(** The two watching cases of [driver]: the root is tested, then [watch]
    runs; [chokidar] takes a string, and does what it does with another
    value. *)
Definition driver_watch (backfill : bool) (argv : Argv) : M unit :=
  if negb (truthy (argv_rootDir argv)) then throw (Error (js "Missing rootDir!"))
  else fun w =>
    let w' := watch backfill (driver_directories argv) (driver_kenkuConfig argv) w in
    match argv_rootDir argv with
    | VString _ => (Returned tt, w')
    | v => match subscribe v with
           | Some e => (Thrown e, w')
           | None => (Returned tt, w')
           end
    end.

(** [driver]: the action is checked first, then the root directory for the
    two watching modes; [view] lists and prints, [purge] purges, [backfill]
    and [watch] start the watcher with the gate open or closed. *)
Definition driver (argv : Argv) : M unit :=
  let kenkuConfig := driver_kenkuConfig argv in
  if negb (truthy (argv_action argv))
     || negb (existsb (sameValue (argv_action argv)) actions)
  then throw (Error (js "Invalid action: " ++ toString (argv_action argv)))
  else if sameValue (argv_action argv) (js "view") then
    playlists <- listPlaylists kenkuConfig ;;
    soundboards <- listSoundboards kenkuConfig ;;
    ret tt
  else if sameValue (argv_action argv) (js "purge") then purge kenkuConfig
  else if sameValue (argv_action argv) (js "backfill") then driver_watch true argv
  else if sameValue (argv_action argv) (js "watch") then driver_watch false argv
  else ret tt.

(** The requests of the events [es], each handled alone with the gate at
    [gate]. *)
Definition requestsOf (directories : DirectoriesConfig)
    (kenkuConfig : KenkuRemoteConfig) (gate : bool) (es : list Event) : list Effect :=
  flat_map (fun e =>
    trace (handleQueue directories kenkuConfig
             {| ACTIVATED := gate; queue := [e]; trace := [] |})) es.

(* ================================================================== *)
(** ** Facts about strings *)

Lemma str_eqb_eq (a b : str) : str_eqb a b = true <-> a = b.
Proof.
  revert b; induction a as [|x a IH]; intros [|y b]; simpl; split;
    try congruence; try reflexivity.
  - intros H. apply andb_true_iff in H as [Hx Hab].
    apply Ascii.eqb_eq in Hx. apply IH in Hab. congruence.
  - intros H. injection H as -> ->.
    apply andb_true_iff. split; [apply Ascii.eqb_refl | now apply IH].
Qed.

Lemma strip_prefix_app (p rest : str) : strip_prefix p (p ++ rest) = Some rest.
Proof.
  induction p as [|a p IH]; simpl; [reflexivity|].
  now rewrite Ascii.eqb_refl.
Qed.

Lemma strip_prefix_Some (p s rest : str) :
  strip_prefix p s = Some rest -> s = p ++ rest.
Proof.
  revert s; induction p as [|a p IH]; intros s; simpl.
  - congruence.
  - destruct s as [|b s]; [discriminate|].
    destruct (Ascii.eqb a b) eqn:E; [|discriminate].
    apply Ascii.eqb_eq in E. subst b. intros H. f_equal. now apply IH.
Qed.

Lemma len_app (a b : str) : len (a ++ b) = (len a + len b)%Z.
Proof. unfold len. rewrite length_app. lia. Qed.

Lemma takeWhile_app_stop (p : ascii -> bool) (l m : str) (x : ascii) :
  forallb p l = true -> p x = false -> takeWhile p (l ++ x :: m) = l.
Proof.
  induction l as [|c l IH]; simpl; intros Hl Hx.
  - now rewrite Hx.
  - apply andb_true_iff in Hl as [Hc Hl]. rewrite Hc. f_equal. now apply IH.
Qed.

Lemma takeWhile_all (p : ascii -> bool) (l : str) :
  forallb p l = true -> takeWhile p l = l.
Proof.
  induction l as [|c l IH]; simpl; [reflexivity|].
  intros H. apply andb_true_iff in H as [Hc Hl]. rewrite Hc. f_equal. now apply IH.
Qed.

Lemma dropWhile_app_stop (p : ascii -> bool) (l m : str) (x : ascii) :
  p x = false -> dropWhile p (l ++ x :: m) = dropWhile p l ++ x :: m.
Proof.
  intros Hx. induction l as [|c l IH]; simpl.
  - now rewrite Hx.
  - destruct (p c); [exact IH | reflexivity].
Qed.

Lemma dropWhile_all (p : ascii -> bool) (l : str) :
  forallb p l = true -> dropWhile p l = [].
Proof.
  induction l as [|c l IH]; simpl; [reflexivity|].
  intros H. apply andb_true_iff in H as [Hc Hl]. rewrite Hc. now apply IH.
Qed.

Lemma forallb_rev (p : ascii -> bool) (l : str) :
  forallb p (rev l) = forallb p l.
Proof.
  induction l as [|c l IH]; simpl; [reflexivity|].
  rewrite forallb_app, IH. simpl. rewrite andb_true_r. apply andb_comm.
Qed.

(** The final segment of [dir/name] is [name] when [name] has no slash. *)
Lemma lastSegment_app (dir name : str) :
  forallb (fun c => negb (isSlash c)) name = true ->
  lastSegment (dir ++ js "/" ++ name) = name.
Proof.
  intros H. unfold lastSegment. simpl.
  rewrite rev_app_distr. simpl. rewrite <- app_assoc. simpl.
  rewrite takeWhile_app_stop.
  - apply rev_involutive.
  - now rewrite forallb_rev.
  - reflexivity.
Qed.

Lemma folderChar_no_slash (c : ascii) : folderChar c = true -> negb (isSlash c) = true.
Proof.
  destruct c as [[] [] [] [] [] [] [] []]; vm_compute; intros H;
    (reflexivity || exact H).
Qed.

(** A text is cut at its first slash in one way only. *)
Lemma split_at_first_slash (a a' b b' : str) :
  forallb (fun c => negb (isSlash c)) a = true ->
  forallb (fun c => negb (isSlash c)) a' = true ->
  a ++ js "/" ++ b = a' ++ js "/" ++ b' ->
  a = a' /\ b = b'.
Proof.
  revert a'; induction a as [|c a IH]; intros [|c' a'] Ha Ha' H; simpl in *.
  - injection H as ->. auto.
  - injection H as <- _. discriminate.
  - injection H as -> _. discriminate.
  - injection H as -> H.
    apply andb_true_iff in Ha as [_ Ha]. apply andb_true_iff in Ha' as [_ Ha'].
    destruct (IH a' Ha Ha' H) as [-> ->]. auto.
Qed.

(* ------------------------------------------------------------------ *)
(** *** [slice], [charAt] and [cleanUrl] *)

Lemma slice_prefix (k : nat) (s : str) : slice 0 (Z.of_nat k) s = firstn k s.
Proof.
  unfold slice, len. simpl.
  replace (Z.min 0 (Z.of_nat (length s))) with 0%Z by lia.
  replace (Z.of_nat k <? 0)%Z with false by (symmetry; apply Z.ltb_ge; lia).
  simpl. rewrite Z.sub_0_r.
  destruct (Nat.le_gt_cases k (length s)) as [Hk|Hk].
  - f_equal. lia.
  - rewrite !firstn_all2 by lia. reflexivity.
Qed.

Lemma len_snoc (s : str) (c : ascii) : (len (s ++ [c]) - 1)%Z = Z.of_nat (length s).
Proof. rewrite len_app. unfold len. simpl. lia. Qed.

Lemma charAt_last (s : str) (c : ascii) : charAt (len (s ++ [c]) - 1) (s ++ [c]) = [c].
Proof.
  rewrite len_snoc. unfold charAt.
  assert (E : ((Z.of_nat (length s) <? 0) || (len (s ++ [c]) <=? Z.of_nat (length s)))%Z = false).
  { apply orb_false_iff. split; [apply Z.ltb_ge; lia|].
    apply Z.leb_gt. pose proof (len_snoc s c). lia. }
  rewrite E, Nat2Z.id, nth_error_app2 by lia.
  now rewrite Nat.sub_diag.
Qed.

Lemma cleanUrl_nil : cleanUrl [] = [].
Proof. reflexivity. Qed.

Lemma cleanUrl_snoc (s : str) (c : ascii) :
  cleanUrl (s ++ [c]) = if isSlash c then s else s ++ [c].
Proof.
  unfold cleanUrl. rewrite charAt_last, len_snoc, slice_prefix.
  unfold isSlash. simpl str_eqb. rewrite andb_true_r.
  destruct (Ascii.eqb c "/"); simpl; [|reflexivity].
  rewrite firstn_app, Nat.sub_diag, firstn_all. simpl. apply app_nil_r.
Qed.

(** [cleanUrl] removes a final slash and changes nothing else. *)
Lemma cleanUrl_cases (x : str) :
  (cleanUrl x = x /\ forall y, x <> y ++ js "/") \/ x = cleanUrl x ++ js "/".
Proof.
  destruct x as [|a x'] using rev_ind.
  - left. split; [reflexivity|]. intros y H. now destruct y.
  - clear IHx'. rewrite cleanUrl_snoc. unfold isSlash.
    destruct (Ascii.eqb a "/") eqn:E.
    + apply Ascii.eqb_eq in E. subst a. now right.
    + left. split; [reflexivity|]. intros y H. apply app_inj_tail in H as [_ ->].
      discriminate.
Qed.

Lemma cleanUrl_idem_iff (x : str) :
  cleanUrl (cleanUrl x) = cleanUrl x <-> ~ exists y, x = y ++ js "//".
Proof.
  destruct x as [|a x' _] using rev_ind.
  - split; [|reflexivity]. intros _ [y H]. now destruct y as [|? [|? ?]].
  - rewrite cleanUrl_snoc. unfold isSlash. destruct (Ascii.eqb a "/") eqn:E.
    + apply Ascii.eqb_eq in E. subst a.
      destruct x' as [|b x'' _] using rev_ind.
      * split; [|reflexivity]. intros _ [y H]. destruct y as [|? [|? ?]]; discriminate.
      * rewrite cleanUrl_snoc. unfold isSlash. destruct (Ascii.eqb b "/") eqn:E'.
        -- apply Ascii.eqb_eq in E'. subst b. split.
           ++ intros H. exfalso. apply (f_equal (@length ascii)) in H.
              rewrite length_app in H. simpl in H. lia.
           ++ intros H. exfalso. apply H. exists x''. now rewrite <- app_assoc.
        -- split; [|reflexivity]. intros _ [y H].
           change (js "//") with (["/"%char] ++ ["/"%char]) in H.
           rewrite app_assoc in H. apply app_inj_tail in H as [H _].
           apply app_inj_tail in H as [_ ->]. discriminate.
    + rewrite cleanUrl_snoc. unfold isSlash. rewrite E. split; [|reflexivity].
      intros _ [y H]. change (js "//") with (["/"%char] ++ ["/"%char]) in H.
      rewrite app_assoc in H. apply app_inj_tail in H as [_ ->]. discriminate.
Qed.

(* ================================================================== *)
(** ** Facts about the matcher *)

Lemma plusR_sound {A} (cls : charclass) (s : str) (k : str -> option A) (res : A) :
  plusR cls s k = Some res ->
  exists text rest,
    s = text ++ rest /\ text <> [] /\ forallb (in_class cls) text = true
    /\ k rest = Some res.
Proof.
  revert res; induction s as [|c s IH]; intros res; simpl; [discriminate|].
  destruct (in_class cls c) eqn:Hc; [|discriminate].
  destruct (plusR cls s k) as [res'|] eqn:Hrec.
  - intros H. injection H as <-.
    destruct (IH res' eq_refl) as (text & rest & -> & _ & Hall & Hk).
    exists (c :: text), rest. simpl. rewrite Hc, Hall. repeat split; auto; discriminate.
  - intros Hk. exists [c], s. simpl. rewrite Hc. repeat split; auto; discriminate.
Qed.

Lemma plusR_complete {A} (cls : charclass) (text rest : str) (k : str -> option A) :
  text <> [] -> forallb (in_class cls) text = true -> k rest <> None ->
  plusR cls (text ++ rest) k <> None.
Proof.
  induction text as [|c text IH]; [congruence|]. intros _ Hall Hk. simpl in *.
  apply andb_true_iff in Hall as [Hc Hall]. rewrite Hc.
  destruct text as [|c' text].
  - simpl. destruct (plusR cls rest k); [discriminate | exact Hk].
  - assert (H : plusR cls ((c' :: text) ++ rest) k <> None)
      by (apply IH; [discriminate | exact Hall | exact Hk]).
    destruct (plusR cls ((c' :: text) ++ rest) k); [discriminate | contradiction].
Qed.

Lemma firstn_consumed (text rest : str) :
  firstn (length (text ++ rest) - length rest) (text ++ rest) = text.
Proof.
  rewrite length_app. replace (length text + length rest - length rest)%nat
    with (length text) by lia.
  rewrite firstn_app, Nat.sub_diag, firstn_all. simpl. apply app_nil_r.
Qed.

(** Every result of the matcher comes from a text the pattern denotes. *)
Lemma matchR_sound (r : regex) :
  forall s caps k res,
    matchR r s caps k = Some res ->
    exists text rest caps',
      s = text ++ rest /\ denotes r text caps caps' /\ k rest caps' = Some res.
Proof.
  induction r as [l|cls|r1 IH1 r2 IH2|r1 IH1 r2 IH2|n r1 IH1];
    intros s caps k res; simpl.
  - destruct (strip_prefix l s) as [rest|] eqn:E; [|discriminate].
    intros Hk. apply strip_prefix_Some in E. exists l, rest, caps. auto.
  - intros H. apply plusR_sound in H as (text & rest & -> & Hne & Hall & Hk).
    exists text, rest, caps. auto.
  - intros H. apply IH1 in H as (t1 & rest1 & mid & -> & H1 & H).
    apply IH2 in H as (t2 & rest & caps' & -> & H2 & Hk).
    exists (t1 ++ t2), rest, caps'. rewrite app_assoc. split; [reflexivity|].
    split; [|exact Hk]. exists t1, t2, mid. auto.
  - destruct (matchR r1 s caps k) as [res1|] eqn:E1.
    + intros H. injection H as <-.
      apply IH1 in E1 as (text & rest & caps' & -> & H1 & Hk).
      exists text, rest, caps'. auto.
    + intros H. apply IH2 in H as (text & rest & caps' & -> & H2 & Hk).
      exists text, rest, caps'. auto.
  - intros H. apply IH1 in H as (text & rest & mid & -> & H1 & Hk).
    rewrite firstn_consumed in Hk.
    exists text, rest, (set_capture n text mid). split; [reflexivity|].
    split; [|exact Hk]. exists mid. auto.
Qed.

(** A text the pattern denotes, followed by a rest the continuation accepts,
    is matched. *)
Lemma matchR_complete (r : regex) :
  forall text caps caps' rest k,
    denotes r text caps caps' -> k rest caps' <> None ->
    matchR r (text ++ rest) caps k <> None.
Proof.
  induction r as [l|cls|r1 IH1 r2 IH2|r1 IH1 r2 IH2|n r1 IH1];
    intros text caps caps' rest k; simpl.
  - intros [-> ->] Hk. now rewrite strip_prefix_app.
  - intros (Hne & Hall & ->) Hk. now apply plusR_complete.
  - intros (t1 & t2 & mid & -> & H1 & H2) Hk. rewrite <- app_assoc.
    apply (IH1 t1 caps mid); [exact H1|]. now apply (IH2 t2 mid caps').
  - intros [H1|H2] Hk.
    + pose proof (IH1 _ _ _ _ _ H1 Hk) as H.
      destruct (matchR r1 (text ++ rest) caps k); [discriminate | contradiction].
    + destruct (matchR r1 (text ++ rest) caps k); [discriminate|].
      now apply (IH2 _ _ caps').
  - intros (mid & H1 & ->) Hk. apply (IH1 text caps mid); [exact H1|].
    now rewrite firstn_consumed.
Qed.

(* ================================================================== *)
(** ** What the two validators accept *)

Ltac each_ascii c :=
  destruct c as [[] [] [] [] [] [] [] []]; try reflexivity.

Lemma folderClass_chars (c : ascii) : in_class folderClass c = folderChar c.
Proof. each_ascii c. Qed.

Lemma fileClass_chars (c : ascii) :
  in_class fileClass c = folderChar c || isDot c || isStrayMark c.
Proof. each_ascii c. Qed.

Lemma fileClass_no_slash (c : ascii) :
  in_class fileClass c = true -> negb (isSlash c) = true.
Proof.
  destruct c as [[] [] [] [] [] [] [] []]; vm_compute; intros H;
    (reflexivity || exact H).
Qed.

Lemma forallb_impl (p q : ascii -> bool) (s : str) :
  (forall c, p c = true -> q c = true) -> forallb p s = true -> forallb q s = true.
Proof.
  intros H. induction s as [|c s IH]; simpl; [reflexivity|].
  intros Hs. apply andb_true_iff in Hs as [Hc Hs].
  rewrite (H c Hc). now apply IH.
Qed.

Lemma forallb_ext_str (p q : ascii -> bool) (s : str) :
  (forall c, p c = q c) -> forallb p s = forallb q s.
Proof.
  intros H. induction s as [|c s IH]; simpl; [reflexivity|]. now rewrite H, IH.
Qed.

Lemma directoryPattern_sound (d : DirectoriesConfig) (p : str) (m : captures) :
  match_anchored (directoryPattern d) p = Some m ->
  exists name, capture 2 m = Some name /\ directoryShape d p name.
Proof.
  unfold match_anchored. intros H.
  apply matchR_sound in H as (text & rest & caps' & -> & Hden & Hk).
  destruct rest; [|discriminate]. injection Hk as <-. rewrite app_nil_r.
  simpl in Hden.
  destruct Hden as (t1 & u1 & c1 & -> & [-> ->] & Hden).
  destruct Hden as (t2 & u2 & c2 & -> & [-> ->] & Hden).
  destruct Hden as (t3 & u3 & c3 & -> & (c3' & Halt & ->) & Hden).
  destruct Hden as (t4 & u4 & c4 & -> & [-> ->] & (c5 & (Hne & Hall & ->) & ->)).
  exists u4. split; [reflexivity|]. exists t3. repeat split; auto.
  destruct Halt as [[-> _]|[-> _]]; auto.
Qed.

Lemma filePattern_sound (d : DirectoriesConfig) (p : str) (m : captures) :
  match_anchored (filePattern d) p = Some m ->
  exists name, capture 2 m = Some name /\ fileShape d p name.
Proof.
  unfold match_anchored. intros H.
  apply matchR_sound in H as (text & rest & caps' & -> & Hden & Hk).
  destruct rest; [|discriminate]. injection Hk as <-. rewrite app_nil_r.
  simpl in Hden.
  destruct Hden as (t1 & u1 & c1 & -> & [-> ->] & Hden).
  destruct Hden as (t2 & u2 & c2 & -> & [-> ->] & Hden).
  destruct Hden as (t3 & u3 & c3 & -> & (c3' & Halt & ->) & Hden).
  destruct Hden as (t4 & u4 & c4 & -> & [-> ->] & Hden).
  destruct Hden as (t5 & u5 & c5 & -> & (Hne5 & Hall5 & ->) & Hden).
  destruct Hden as (t6 & u6 & c6 & -> & [-> ->] & (c7 & (Hne & Hall & ->) & ->)).
  exists u6. split; [reflexivity|]. exists t3, t5. repeat split; auto.
  destruct Halt as [[-> _]|[-> _]]; auto.
Qed.

Lemma directoryPattern_complete (d : DirectoriesConfig) (p name : str) :
  directoryShape d p name -> match_anchored (directoryPattern d) p <> None.
Proof.
  intros (sub & -> & Hsub & Hne & Hall). unfold match_anchored.
  rewrite <- (app_nil_r (root d ++ _)).
  apply matchR_complete with (caps' := set_capture 2 name (set_capture 1 sub []));
    [|discriminate].
  simpl.
  exists (root d), (js "/" ++ sub ++ js "/" ++ name), []. repeat split; auto.
  exists (js "/"), (sub ++ js "/" ++ name), []. repeat split; auto.
  exists sub, (js "/" ++ name), (set_capture 1 sub []). split; [reflexivity|]. split.
  - exists []. split; [|reflexivity]. destruct Hsub as [->| ->]; [left|right]; auto.
  - exists (js "/"), name, (set_capture 1 sub []). repeat split; auto.
    exists (set_capture 1 sub []). repeat split; auto.
Qed.

Lemma filePattern_complete (d : DirectoriesConfig) (p name : str) :
  fileShape d p name -> match_anchored (filePattern d) p <> None.
Proof.
  intros (sub & coll & -> & Hsub & Hnec & Hallc & Hne & Hall). unfold match_anchored.
  rewrite <- (app_nil_r (root d ++ _)).
  apply matchR_complete with (caps' := set_capture 2 name (set_capture 1 sub []));
    [|discriminate].
  simpl.
  exists (root d), (js "/" ++ sub ++ js "/" ++ coll ++ js "/" ++ name), [].
  repeat split; auto.
  exists (js "/"), (sub ++ js "/" ++ coll ++ js "/" ++ name), []. repeat split; auto.
  exists sub, (js "/" ++ coll ++ js "/" ++ name), (set_capture 1 sub []).
  split; [reflexivity|]. split.
  - exists []. split; [|reflexivity]. destruct Hsub as [->| ->]; [left|right]; auto.
  - exists (js "/"), (coll ++ js "/" ++ name), (set_capture 1 sub []). repeat split; auto.
    exists coll, (js "/" ++ name), (set_capture 1 sub []). repeat split; auto.
    exists (js "/"), name, (set_capture 1 sub []). repeat split; auto.
    exists (set_capture 1 sub []). repeat split; auto.
Qed.

(** The name a validator returns is the final segment of the path. *)
Lemma fileShape_lastSegment (d : DirectoriesConfig) (p name : str) :
  fileShape d p name -> lastSegment p = name.
Proof.
  intros (sub & coll & -> & _ & _ & _ & _ & Hall).
  rewrite !app_assoc. rewrite <- app_assoc. apply lastSegment_app.
  revert Hall. apply forallb_impl, fileClass_no_slash.
Qed.

Lemma directoryShape_lastSegment (d : DirectoriesConfig) (p name : str) :
  directoryShape d p name -> lastSegment p = name.
Proof.
  intros (sub & -> & _ & _ & Hall).
  rewrite !app_assoc. rewrite <- app_assoc. apply lastSegment_app.
  revert Hall. apply forallb_impl. intros c Hc. apply fileClass_no_slash.
  rewrite fileClass_chars. rewrite folderClass_chars in Hc. now rewrite Hc.
Qed.

Lemma validateDirectory_iff (d : DirectoriesConfig) (p name : str) :
  validateDirectory d p = Some name <-> directoryShape d p name.
Proof.
  unfold validateDirectory. split.
  - destruct (match_anchored (directoryPattern d) p) as [m|] eqn:E; [|discriminate].
    apply directoryPattern_sound in E as (name' & -> & Hshape).
    intros H. now injection H as <-.
  - intros Hshape. pose proof (directoryPattern_complete _ _ _ Hshape) as H.
    destruct (match_anchored (directoryPattern d) p) as [m|] eqn:E; [|contradiction].
    apply directoryPattern_sound in E as (name' & -> & Hshape').
    f_equal. rewrite <- (directoryShape_lastSegment _ _ _ Hshape).
    symmetry. now apply (directoryShape_lastSegment d).
Qed.

Lemma validateFile_iff (d : DirectoriesConfig) (p name : str) :
  validateFile d p = Some name <-> fileShape d p name.
Proof.
  unfold validateFile. split.
  - destruct (match_anchored (filePattern d) p) as [m|] eqn:E; [|discriminate].
    apply filePattern_sound in E as (name' & -> & Hshape).
    intros H. now injection H as <-.
  - intros Hshape. pose proof (filePattern_complete _ _ _ Hshape) as H.
    destruct (match_anchored (filePattern d) p) as [m|] eqn:E; [|contradiction].
    apply filePattern_sound in E as (name' & -> & Hshape').
    f_equal. rewrite <- (fileShape_lastSegment _ _ _ Hshape).
    symmetry. now apply (fileShape_lastSegment d).
Qed.

(* ================================================================== *)
(** ** Facts about the remote client and the queue worker *)

(** Whatever the service answers, [callKenku] sends exactly its request. *)
Lemma callKenku_world (config : KenkuRemoteConfig) (req : Request) (w : World) :
  snd (callKenku config req w) = perform (sent config req) w.
Proof.
  unfold callKenku, bind, fetch, response_json.
  destruct (remote (trace (perform (sent config req) w))) as [|response];
    [reflexivity|].
  destruct (json response); simpl; [|reflexivity].
  destruct (status response >=? 400)%Z; reflexivity.
Qed.

Lemma catch_log_operation (a : Action) (b : bool) (config : KenkuRemoteConfig)
    (body : Body) (w : World) :
  exists req,
    catch_log (operation a b config body) w = perform (sent config req) w
    /\ req_method req = put /\ req_body req = Some body.
Proof.
  unfold catch_log.
  destruct a, b; cbn [operation];
    unfold addTrack, addSound, removeTrack, removeSound, addPlaylist,
      addSoundboard, removePlaylist, removeSoundboard;
    rewrite callKenku_world; eexists; split; try reflexivity; split; reflexivity.
Qed.

(** One firing of the timer on a non-empty queue: the head is removed and,
    when the gate lets its classification through, one operation of the
    table is started. *)
Lemma handleQueue_step (d : DirectoriesConfig) (config : KenkuRemoteConfig)
    (w : World) (e : Event) (rest : list Event) :
  queue w = e :: rest ->
  (gated (ACTIVATED w) (classify d e) = None
   /\ handleQueue d config w = set_queue rest w)
  \/ (exists name body,
        gated (ACTIVATED w) (classify d e) = Some name
        /\ handleQueue d config w =
           catch_log (operation (action e) (includes (playlistsDir d) (path e))
                        config body) (set_queue rest w)).
Proof.
  intros Hq. unfold handleQueue, classify. rewrite Hq. simpl.
  destruct (action e);
    match goal with
    | |- context [gated ?g ?v] => destruct (gated g v) as [name|] eqn:E
    end; try (left; split; reflexivity);
    right; exists name; destruct (includes (playlistsDir d) (path e));
    eexists; split; reflexivity.
Qed.

Lemma handleQueue_empty (d : DirectoriesConfig) (config : KenkuRemoteConfig)
    (w : World) :
  queue w = [] -> handleQueue d config w = w.
Proof. intros Hq. unfold handleQueue. now rewrite Hq. Qed.

Lemma gated_closed (v : option str) : gated false v = None.
Proof. reflexivity. Qed.

Lemma gated_open (name : str) : name <> [] -> gated true (Some name) = Some name.
Proof. destruct name; [congruence | reflexivity]. Qed.

Lemma classify_nonempty (d : DirectoriesConfig) (e : Event) (name : str) :
  classify d e = Some name -> name <> [].
Proof.
  unfold classify. destruct (action e); intros H;
    first [ apply validateFile_iff in H as (? & ? & _ & _ & _ & _ & Hne & _)
          | apply validateDirectory_iff in H as (? & _ & _ & Hne & _) ];
    exact Hne.
Qed.

(** The worker never writes the gate. *)
Lemma handleQueue_ACTIVATED (d : DirectoriesConfig) (config : KenkuRemoteConfig)
    (w : World) :
  ACTIVATED (handleQueue d config w) = ACTIVATED w.
Proof.
  destruct (queue w) as [|e rest] eqn:Hq.
  - now rewrite handleQueue_empty.
  - destruct (handleQueue_step d config w e rest Hq) as [[_ ->]|(name & body & _ & ->)].
    + reflexivity.
    + destruct (catch_log_operation (action e) (includes (playlistsDir d) (path e))
                  config body (set_queue rest w)) as (req & -> & _).
      reflexivity.
Qed.

Lemma skipn_S_tl {A} (n : nat) (l : list A) : skipn (S n) l = tl (skipn n l).
Proof.
  revert l; induction n as [|n IH]; intros [|x l]; try reflexivity.
  change (skipn (S (S n)) (x :: l)) with (skipn (S n) l). now rewrite IH.
Qed.

(** With the gate closed the worker only shortens the queue. *)
Lemma ticks_closed (d : DirectoriesConfig) (config : KenkuRemoteConfig)
    (n : nat) (w : World) :
  ACTIVATED w = false ->
  ticks d config n w = set_queue (skipn n (queue w)) w.
Proof.
  intros Hgate. induction n as [|n IH].
  - destruct w; reflexivity.
  - unfold ticks in *. simpl Nat.iter. rewrite IH. rewrite skipn_S_tl.
    destruct (skipn n (queue w)) as [|e rest] eqn:Hq.
    + now rewrite handleQueue_empty.
    + destruct (handleQueue_step d config (set_queue (e :: rest) w) e rest eq_refl)
        as [[_ ->]|(name & body & Hg & _)]; [reflexivity|].
      simpl in Hg. rewrite Hgate in Hg. discriminate.
Qed.

(** Enqueueing does not read the gate. *)
Lemma enqueue_set_ACTIVATED (d : DirectoriesConfig) (config : KenkuRemoteConfig)
    (b : bool) (events : list Event) (w : World) :
  fold_left (deliver d config) (map enqueue events) (set_ACTIVATED b w)
  = set_ACTIVATED b (fold_left (deliver d config) (map enqueue events) w).
Proof.
  revert w; induction events as [|e events IH]; intros w; [reflexivity|].
  simpl. rewrite <- IH. reflexivity.
Qed.

Lemma run_app (backfill : bool) (d : DirectoriesConfig) (config : KenkuRemoteConfig)
    (s1 s2 : list Signal) :
  run backfill d config (s1 ++ s2)
  = fold_left (deliver d config) s2 (run backfill d config s1).
Proof. unfold run. apply fold_left_app. Qed.

Lemma deliver_ACTIVATED (d : DirectoriesConfig) (config : KenkuRemoteConfig)
    (signals : list Signal) (w : World) :
  ACTIVATED (fold_left (deliver d config) signals w)
  = ACTIVATED w || existsb is_ready signals.
Proof.
  revert w; induction signals as [|s signals IH]; intros w; simpl.
  - now rewrite orb_false_r.
  - rewrite IH. destruct s; simpl.
    + now rewrite orb_true_r.
    + reflexivity.
    + now rewrite handleQueue_ACTIVATED.
Qed.

(* ================================================================== *)
(** ** The event queue and the activation gate *)

Lemma handleQueue_open (d : DirectoriesConfig) (config : KenkuRemoteConfig)
    (w : World) (e : Event) (rest : list Event) (name : str) :
  queue w = e :: rest -> ACTIVATED w = true -> classify d e = Some name ->
  exists body req,
    handleQueue d config w
    = catch_log (operation (action e) (includes (playlistsDir d) (path e))
                   config body) (set_queue rest w)
    /\ handleQueue d config w = perform (sent config req) (set_queue rest w).
Proof.
  intros Hq Hgate Hname.
  destruct (handleQueue_step d config w e rest Hq) as [[Hg _]|(name' & body & _ & Hw)].
  - rewrite Hgate, Hname, gated_open in Hg by now apply (classify_nonempty d e).
    discriminate.
  - destruct (catch_log_operation (action e) (includes (playlistsDir d) (path e))
                config body (set_queue rest w)) as (req & Hreq & _).
    exists body, req. split; [exact Hw | now rewrite Hw].
Qed.

(** The gate and the queue.  While the gate is false, any number of firings
    of the timer send no request, and each removes one event from the queue.
    The gate is read when an event is dequeued and not when it is enqueued:
    a run in which events arrive before [ready] is the run in which they
    arrive after it, so an event that arrived during the initial scan and is
    dequeued after [ready] starts its request. *)
Theorem closed_gate_discards_and_gate_is_read_at_dequeue
    (d : DirectoriesConfig) (config : KenkuRemoteConfig) :
  (forall w n,
      ACTIVATED w = false ->
      trace (ticks d config n w) = trace w
      /\ queue (ticks d config n w) = skipn n (queue w)
      /\ ACTIVATED (ticks d config n w) = false)
  /\ (forall events later,
        run false d config (map enqueue events ++ Ready :: later)
        = run false d config (Ready :: map enqueue events ++ later))
  /\ (forall e name,
        plain_config d = true ->
        classify d e = Some name ->
        exists call,
          is_fetch call = true
          /\ trace (run false d config [enqueue e; Ready; Tick])
             = trace (run false d config [enqueue e; Ready]) ++ [call]).
Proof.
  split; [|split].
  - intros w n Hgate. rewrite ticks_closed by exact Hgate. simpl. auto.
  - intros events later. unfold run.
    rewrite fold_left_app. simpl fold_left.
    rewrite fold_left_app. f_equal.
    symmetry. apply enqueue_set_ACTIVATED.
  - intros e name _ Hname. destruct e as [a p].
    change (run false d config [enqueue {| action := a; path := p |}; Ready; Tick])
      with (handleQueue d config
              (run false d config [enqueue {| action := a; path := p |}; Ready])).
    set (w := run false d config [enqueue {| action := a; path := p |}; Ready]).
    destruct (handleQueue_open d config w {| action := a; path := p |} [] name
                eq_refl eq_refl Hname) as (body & req & _ & ->).
    exists (sent config req). split; reflexivity.
Qed.

(** C2.  Under a configuration whose names hold no character of the pattern
    syntax, an event that is dequeued with the gate open and that classifies
    starts exactly one remote operation, the one the table gives for its
    kind and for the branch chosen by whether the path contains the
    configured name of the playlists directory, [Playlists] when none is
    configured. *)
Theorem classified_event_dispatches_one_operation
    (d : DirectoriesConfig) (config : KenkuRemoteConfig)
    (w : World) (e : Event) (rest : list Event) (name : str) :
  plain_config d = true ->
  queue w = e :: rest ->
  ACTIVATED w = true ->
  classify d e = Some name ->
  let configured :=
    match playlists d with
    | Some (c :: n) => c :: n
    | _ => js "Playlists"
    end in
  (exists body,
      handleQueue d config w
      = catch_log (operation (action e) (includes configured (path e))
                     config body) (set_queue rest w))
  /\ (exists call,
        is_fetch call = true
        /\ trace (handleQueue d config w) = trace w ++ [call])
  /\ queue (handleQueue d config w) = rest.
Proof.
  intros _ Hq Hgate Hname configured.
  change configured with (playlistsDir d).
  destruct (handleQueue_open d config w e rest name Hq Hgate Hname)
    as (body & req & Hop & Hw).
  split; [exists body; exact Hop|].
  rewrite Hw. split; [|reflexivity].
  exists (sent config req). split; reflexivity.
Qed.

(** C9.  [watch] sets the gate to the mode: false for watch-only, true for
    backfill, before any signal is handled.  After any signals the gate is
    true exactly when the run is a backfill or [ready] has arrived; the
    [ready] handler sets it again without any other change; and once true it
    stays true for the rest of the run. *)
Theorem gate_follows_mode_and_ready
    (d : DirectoriesConfig) (config : KenkuRemoteConfig) :
  (forall backfill w, ACTIVATED (watch backfill d config w) = backfill)
  /\ (forall backfill signals,
        ACTIVATED (run backfill d config signals)
        = backfill || existsb is_ready signals)
  /\ (forall w,
        ACTIVATED (deliver d config w Ready) = true
        /\ deliver d config (deliver d config w Ready) Ready
           = deliver d config w Ready)
  /\ (forall backfill before after,
        ACTIVATED (run backfill d config before) = true ->
        ACTIVATED (run backfill d config (before ++ after)) = true).
Proof.
  split; [|split; [|split]].
  - reflexivity.
  - intros backfill signals. unfold run. now rewrite deliver_ACTIVATED.
  - intros w. split; reflexivity.
  - intros backfill before after H.
    rewrite run_app, deliver_ACTIVATED, H. reflexivity.
Qed.

(* ================================================================== *)
(** ** The remote client *)

(** The outcome of [callKenku] for a response whose body is JSON. *)
Lemma callKenku_outcome (config : KenkuRemoteConfig) (req : Request) (w : World)
    (response : Response Json) (data : Json) :
  remote (trace w ++ [sent config req]) = Responded response ->
  json response = Some data ->
  callKenku config req w
  = (if (status response >=? 400)%Z
     then Thrown (Error (stringify data))
     else Returned data,
     perform (sent config req) w).
Proof.
  intros Hremote Hjson.
  unfold callKenku, bind, fetch, response_json. simpl trace.
  rewrite Hremote, Hjson. unfold ret.
  now destruct (status response >=? 400)%Z.
Qed.

(** C8.  For a response whose body is JSON, [callKenku] throws exactly when
    the status is at least 400, the error then carrying the serialised
    decoded body, and returns the decoded body when the status is below
    400. *)
Theorem callKenku_throws_iff_status_at_least_400
    (config : KenkuRemoteConfig) (req : Request) (w : World)
    (response : Response Json) (data : Json) :
  remote (trace w ++ [sent config req]) = Responded response ->
  json response = Some data ->
  (fst (callKenku config req w) = Thrown (Error (stringify data))
   <-> (400 <= status response)%Z)
  /\ ((exists e, fst (callKenku config req w) = Thrown e)
      <-> (400 <= status response)%Z)
  /\ (fst (callKenku config req w) = Returned data
      <-> (status response < 400)%Z).
Proof.
  intros Hremote Hjson.
  rewrite (callKenku_outcome config req w response data Hremote Hjson).
  simpl fst. destruct (status response >=? 400)%Z eqn:E.
  - apply Z.geb_le in E. split; [|split]; split;
      try (intros _; lia); try reflexivity.
    + intros _. now exists (Error (stringify data)).
    + discriminate.
    + lia.
  - assert (Hlt : (status response < 400)%Z)
      by (rewrite Z.geb_leb in E; apply Z.leb_gt in E; lia).
    split; [|split]; split; try (intros _; exact Hlt); try reflexivity.
    + discriminate.
    + lia.
    + intros [e He]. discriminate.
    + lia.
Qed.

Lemma callKenku_ok (config : KenkuRemoteConfig) (req : Request) (w : World)
    (response : Response Json) (data : Json) :
  remote (trace w ++ [sent config req]) = Responded response ->
  json response = Some data ->
  (status response < 400)%Z ->
  callKenku config req w = (Returned data, perform (sent config req) w).
Proof.
  intros Hremote Hjson Hstatus.
  unfold callKenku, bind, fetch, response_json. simpl trace.
  rewrite Hremote, Hjson. unfold ret.
  replace (status response >=? 400)%Z with false; [reflexivity|].
  symmetry. rewrite Z.geb_leb. apply Z.leb_gt. lia.
Qed.

(* ================================================================== *)
(** ** Purge *)

Lemma performs_app (es1 es2 : list Effect) (w : World) :
  performs (es1 ++ es2) w = performs es2 (performs es1 w).
Proof. apply fold_left_app. Qed.

Lemma performs_world (es : list Effect) (w : World) :
  performs es w
  = {| ACTIVATED := ACTIVATED w; queue := queue w; trace := trace w ++ es |}.
Proof.
  revert w; induction es as [|e es IH]; intros w; simpl.
  - rewrite app_nil_r. now destruct w.
  - unfold performs in IH. rewrite IH. simpl. now rewrite <- app_assoc.
Qed.

Lemma remote_only_ret {A} (a : A) : remote_only (ret a).
Proof. intros w. now exists []. Qed.

Lemma remote_only_bind {A B} (m : M A) (f : A -> M B) :
  remote_only m -> (forall a, remote_only (f a)) -> remote_only (bind m f).
Proof.
  intros Hm Hf w. unfold bind. destruct (Hm w) as (es1 & H1 & Hall1).
  destruct (m w) as [[a|e] w1]; simpl in H1; subst w1.
  - destruct (Hf a (performs es1 w)) as (es2 & H2 & Hall2).
    exists (es1 ++ es2). rewrite performs_app, forallb_app, Hall1, Hall2. auto.
  - exists es1. auto.
Qed.

Lemma remote_only_callKenku (config : KenkuRemoteConfig) (req : Request) :
  remote_only (callKenku config req).
Proof. intros w. exists [sent config req]. now rewrite callKenku_world. Qed.

Lemma remote_only_delay (ms : Z) : remote_only (delay ms).
Proof. intros w. now exists [Delay ms]. Qed.

Lemma remote_only_forEach {A} (xs : list A) (body : A -> M unit) :
  (forall x, remote_only (body x)) -> remote_only (forEach xs body).
Proof.
  intros Hbody. induction xs as [|x xs IH]; simpl.
  - apply remote_only_ret.
  - apply remote_only_bind; auto.
Qed.

Lemma remote_only_purge (config : KenkuRemoteConfig) : remote_only (purge config).
Proof.
  unfold purge, listPlaylists, listSoundboards.
  apply remote_only_bind; [apply remote_only_callKenku | intros pl].
  apply remote_only_bind; [apply remote_only_callKenku | intros sb].
  apply remote_only_bind.
  - destruct (playlists_of pl); [apply remote_only_ret|].
    apply remote_only_forEach. intros u. unfold removePlaylist.
    apply remote_only_bind; [apply remote_only_callKenku | intros _].
    apply remote_only_delay.
  - intros _. destruct (soundboards_of sb); [apply remote_only_ret|].
    apply remote_only_forEach. intros u. unfold removeSoundboard.
    apply remote_only_bind; [apply remote_only_callKenku | intros _].
    apply remote_only_delay.
Qed.

Lemma callKenku_refused (config : KenkuRemoteConfig) (req : Request) (w : World)
    (e : Exn) :
  refuses (trace w ++ [sent config req]) e ->
  callKenku config req w = (Thrown e, perform (sent config req) w).
Proof.
  unfold refuses, callKenku, bind, fetch, response_json. cbn [trace perform].
  destruct (remote (trace w ++ [sent config req])) as [|response]; [now intros ->|].
  destruct (json response) as [data|]; [|now intros ->].
  intros [Hstatus ->]. unfold ret.
  replace (status response >=? 400)%Z with true; [reflexivity|].
  symmetry. rewrite Z.geb_leb. apply Z.leb_le. lia.
Qed.

Lemma callKenku_accepted (config : KenkuRemoteConfig) (req : Request) (w : World) :
  accepts (trace w ++ [sent config req]) ->
  exists data, callKenku config req w = (Returned data, perform (sent config req) w).
Proof.
  intros (data & response & Hr & Hj & Hs). exists data.
  now apply (callKenku_ok config req w response data).
Qed.

Lemma removalSent_0 (config : KenkuRemoteConfig) (request : str -> Request)
    (before : list Effect) (u : str) (urls : list str) :
  removalSent config request before (u :: urls) 0 = before ++ [sent config (request u)].
Proof. reflexivity. Qed.

Lemma removalSent_S (config : KenkuRemoteConfig) (request : str -> Request)
    (before : list Effect) (u : str) (urls : list str) (i : nat) :
  removalSent config request before (u :: urls) (S i)
  = removalSent config request (before ++ [sent config (request u); Delay 500]) urls i.
Proof. unfold removalSent, removals. cbn [firstn flat_map nth app]. now rewrite <- app_assoc. Qed.

(** A loop of removals that all return: each url gets its request, then the
    pause. *)
Lemma forEach_removals (config : KenkuRemoteConfig) (request : str -> Request)
    (urls : list str) (w : World) :
  (forall i, (i < length urls)%nat ->
             accepts (removalSent config request (trace w) urls i)) ->
  forEach urls (fun u => callKenku config (request u) ;;; delay 500) w
  = (Returned tt, performs (removals config request urls) w).
Proof.
  revert w; induction urls as [|u urls IH]; intros w Hok; [reflexivity|].
  cbn [forEach]. unfold bind at 1. unfold bind at 1.
  destruct (callKenku_accepted config (request u) w) as (data & ->).
  { rewrite <- removalSent_0 with (urls := urls). apply Hok. cbn [length]. lia. }
  unfold delay at 1. rewrite IH.
  - reflexivity.
  - intros i Hi. cbn [trace perform]. rewrite <- app_assoc. cbn [app].
    rewrite <- removalSent_S. apply Hok. cbn [length]. lia.
Qed.

(** A loop of removals ends at the first one that fails. *)
Lemma forEach_removals_stop (config : KenkuRemoteConfig) (request : str -> Request)
    (urls : list str) (w : World) (i : nat) (e : Exn) :
  (i < length urls)%nat ->
  (forall j, (j < i)%nat -> accepts (removalSent config request (trace w) urls j)) ->
  refuses (removalSent config request (trace w) urls i) e ->
  forEach urls (fun u => callKenku config (request u) ;;; delay 500) w
  = (Thrown e,
     performs (removals config request (firstn i urls)
               ++ [sent config (request (nth i urls []))]) w).
Proof.
  revert w i; induction urls as [|u urls IH]; intros w i Hi Hok Hfail;
    [cbn [length] in Hi; lia|].
  cbn [forEach]. unfold bind at 1. unfold bind at 1. destruct i as [|i].
  - rewrite removalSent_0 in Hfail.
    now rewrite (callKenku_refused config (request u) w e Hfail).
  - destruct (callKenku_accepted config (request u) w) as (data & ->).
    { rewrite <- removalSent_0 with (urls := urls). apply Hok. lia. }
    unfold delay at 1. rewrite (IH _ i).
    + reflexivity.
    + cbn [length] in Hi. lia.
    + intros j Hj. cbn [trace perform]. rewrite <- app_assoc. cbn [app].
      rewrite <- removalSent_S. apply Hok. lia.
    + cbn [trace perform]. rewrite <- app_assoc. cbn [app].
      now rewrite <- removalSent_S.
Qed.

(** [purge] after its two listings; the tests on the lengths of the listings
    change nothing, the loop over an empty listing does nothing. *)
Lemma purge_listed (config : KenkuRemoteConfig) (w : World) (pdata sdata : Json) :
  answers (trace w ++ [sent config listPlaylistsRequest]) pdata ->
  answers (trace w ++ [sent config listPlaylistsRequest;
                       sent config listSoundboardsRequest]) sdata ->
  purge config w
  = (forEach (playlists_of pdata)
       (fun u => callKenku config (removePlaylistRequest u) ;;; delay 500) ;;;
     forEach (soundboards_of sdata)
       (fun u => callKenku config (removeSoundboardRequest u) ;;; delay 500))
      (performs [sent config listPlaylistsRequest; sent config listSoundboardsRequest] w).
Proof.
  intros (rp & Hrp & Hjp & Hsp) (rs & Hrs & Hjs & Hss).
  unfold purge.
  change (listPlaylists config) with (callKenku config listPlaylistsRequest).
  change (listSoundboards config) with (callKenku config listSoundboardsRequest).
  unfold bind at 1.
  rewrite (callKenku_ok config listPlaylistsRequest w rp pdata Hrp Hjp Hsp).
  unfold bind at 1.
  rewrite (callKenku_ok config listSoundboardsRequest _ rs sdata); try assumption.
  - now destruct (playlists_of pdata), (soundboards_of sdata).
  - cbn [trace perform]. now rewrite <- app_assoc.
Qed.

(** C7 (amended).  When the two listings are answered, [purge] sends one
    [removePlaylist] per listed playlist url, in order, then one
    [removeSoundboard] per listed soundboard url, each awaited and followed
    by the pause of 500, as long as each removal is accepted when it is
    sent; the first removal that fails ends the run at that request, with
    its error.  The service is asked at the trace of this very run, so its
    answers may change with what was removed before.  In every case [purge]
    only sends requests and waits: it leaves the queue and the gate alone
    and never subscribes to the file system. *)
Theorem purge_removes_every_listed_collection_when_removals_succeed
    (config : KenkuRemoteConfig) (w : World) (pdata sdata : Json) :
  answers (trace w ++ [sent config listPlaylistsRequest]) pdata ->
  answers (trace w ++ [sent config listPlaylistsRequest;
                       sent config listSoundboardsRequest]) sdata ->
  let listed :=
    trace w ++ [sent config listPlaylistsRequest; sent config listSoundboardsRequest] in
  let cleared :=
    listed ++ removals config removePlaylistRequest (playlists_of pdata) in
  let playlistsGo :=
    forall i, (i < length (playlists_of pdata))%nat ->
              accepts (removalSent config removePlaylistRequest listed
                         (playlists_of pdata) i) in
  (playlistsGo ->
   (forall i, (i < length (soundboards_of sdata))%nat ->
              accepts (removalSent config removeSoundboardRequest cleared
                         (soundboards_of sdata) i)) ->
   fst (purge config w) = Returned tt
   /\ trace (snd (purge config w))
      = cleared ++ removals config removeSoundboardRequest (soundboards_of sdata))
  /\ (forall i e,
        (i < length (playlists_of pdata))%nat ->
        (forall j, (j < i)%nat ->
                   accepts (removalSent config removePlaylistRequest listed
                              (playlists_of pdata) j)) ->
        refuses (removalSent config removePlaylistRequest listed
                   (playlists_of pdata) i) e ->
        fst (purge config w) = Thrown e
        /\ trace (snd (purge config w))
           = removalSent config removePlaylistRequest listed (playlists_of pdata) i)
  /\ (forall i e,
        playlistsGo ->
        (i < length (soundboards_of sdata))%nat ->
        (forall j, (j < i)%nat ->
                   accepts (removalSent config removeSoundboardRequest cleared
                              (soundboards_of sdata) j)) ->
        refuses (removalSent config removeSoundboardRequest cleared
                   (soundboards_of sdata) i) e ->
        fst (purge config w) = Thrown e
        /\ trace (snd (purge config w))
           = removalSent config removeSoundboardRequest cleared
               (soundboards_of sdata) i)
  /\ (exists es,
        snd (purge config w) = performs es w
        /\ forallb (fun e => is_fetch e || is_delay e) es = true)
  /\ queue (snd (purge config w)) = queue w
  /\ ACTIVATED (snd (purge config w)) = ACTIVATED w.
Proof.
  intros Hlp Hls listed cleared playlistsGo.
  pose proof (purge_listed config w pdata sdata Hlp Hls) as Hpurge.
  set (w2 := performs [sent config listPlaylistsRequest;
                       sent config listSoundboardsRequest] w) in Hpurge.
  assert (Hw2 : trace w2 = listed).
  { unfold w2. now rewrite performs_world. }
  assert (Hplaylists : playlistsGo ->
            forEach (playlists_of pdata)
              (fun u => callKenku config (removePlaylistRequest u) ;;; delay 500) w2
            = (Returned tt,
               performs (removals config removePlaylistRequest (playlists_of pdata)) w2)).
  { intros Hgo. apply forEach_removals. intros i Hi. rewrite Hw2. now apply Hgo. }
  assert (Hcleared : trace (performs (removals config removePlaylistRequest
                                        (playlists_of pdata)) w2) = cleared).
  { now rewrite performs_world, Hw2. }
  split; [|split; [|split; [|split; [|split]]]].
  - intros Hgo Hsb.
    assert (E : purge config w
                = (Returned tt,
                   performs (removals config removeSoundboardRequest
                               (soundboards_of sdata))
                     (performs (removals config removePlaylistRequest
                                  (playlists_of pdata)) w2))).
    { rewrite Hpurge. unfold bind at 1. rewrite (Hplaylists Hgo).
      apply forEach_removals. intros i Hi. rewrite Hcleared. now apply Hsb. }
    rewrite E. split; [reflexivity|]. cbn [snd]. now rewrite performs_world, Hcleared.
  - intros i e Hi Hok Hfail.
    assert (E : purge config w
                = (Thrown e,
                   performs (removals config removePlaylistRequest
                               (firstn i (playlists_of pdata))
                             ++ [sent config (removePlaylistRequest
                                                (nth i (playlists_of pdata) []))])
                     w2)).
    { rewrite Hpurge. unfold bind at 1.
      rewrite (forEach_removals_stop config removePlaylistRequest _ w2 i e Hi).
      - reflexivity.
      - intros j Hj. rewrite Hw2. now apply Hok.
      - now rewrite Hw2. }
    rewrite E. split; [reflexivity|]. cbn [snd]. now rewrite performs_world, Hw2.
  - intros i e Hgo Hi Hok Hfail.
    assert (E : purge config w
                = (Thrown e,
                   performs (removals config removeSoundboardRequest
                               (firstn i (soundboards_of sdata))
                             ++ [sent config (removeSoundboardRequest
                                                (nth i (soundboards_of sdata) []))])
                     (performs (removals config removePlaylistRequest
                                  (playlists_of pdata)) w2))).
    { rewrite Hpurge. unfold bind at 1. rewrite (Hplaylists Hgo).
      apply (forEach_removals_stop config removeSoundboardRequest _ _ i e Hi).
      - intros j Hj. rewrite Hcleared. now apply Hok.
      - now rewrite Hcleared. }
    rewrite E. split; [reflexivity|]. cbn [snd]. now rewrite performs_world, Hcleared.
  - destruct (remote_only_purge config w) as (es & Hes & Hall). now exists es.
  - destruct (remote_only_purge config w) as (es & Hes & Hall).
    now rewrite Hes, performs_world.
  - destruct (remote_only_purge config w) as (es & Hes & Hall).
    now rewrite Hes, performs_world.
Qed.

(* ================================================================== *)
(** ** Classification *)

Lemma gated_None (g : bool) : gated g None = None.
Proof. now destruct g. Qed.

Lemma no_stray_marks (s : str) :
  forallb (in_class fileClass) s = true ->
  existsb isStrayMark s = false ->
  forallb (fun c => folderChar c || isDot c) s = true.
Proof.
  induction s as [|c s IH]; cbn [forallb existsb]; [reflexivity|].
  intros Hall Hstray.
  apply andb_true_iff in Hall as [Hc Hall].
  apply orb_false_iff in Hstray as [Hm Hstray].
  rewrite fileClass_chars, Hm, orb_false_r in Hc.
  rewrite Hc. now apply IH.
Qed.

Lemma directoryShape_grammar (d : DirectoriesConfig) (p name : str) :
  directoryShape d p name -> directoryGrammar d p.
Proof.
  intros (sub & Hp & Hsub & Hne & Hall). exists sub, name.
  repeat split; auto.
  now rewrite <- (forallb_ext_str _ _ name folderClass_chars).
Qed.

Lemma fileShape_grammar (d : DirectoriesConfig) (p name : str) :
  fileShape d p name -> existsb isStrayMark name = false ->
  fileGrammar itemName d p.
Proof.
  intros (sub & coll & Hp & Hsub & Hnec & Hallc & Hne & Hall) Hstray.
  exists sub, coll, name. repeat split; auto.
  - now rewrite <- (forallb_ext_str _ _ coll folderClass_chars).
  - now apply no_stray_marks.
Qed.

(** C3 (amended).  Under a configuration whose names hold no character of
    the pattern syntax, a path that matches neither the directory grammar nor
    the file grammar, item names being non-empty runs of letters, digits,
    spaces, hyphens and dots (any number of dots), and whose final segment
    has none of the marks of [isStrayMark], is rejected by both validators,
    and an event carrying it starts no request whatever its kind and the
    gate. *)
Theorem path_outside_the_grammar_is_not_applicable
    (d : DirectoriesConfig) (config : KenkuRemoteConfig) (p : str) :
  plain_config d = true ->
  ~ directoryGrammar d p ->
  ~ fileGrammar itemName d p ->
  existsb isStrayMark (lastSegment p) = false ->
  validateDirectory d p = None
  /\ validateFile d p = None
  /\ (forall a w rest,
        queue w = {| action := a; path := p |} :: rest ->
        handleQueue d config w = set_queue rest w
        /\ trace (handleQueue d config w) = trace w).
Proof.
  intros _ Hdir Hfile Hstray.
  assert (Hvd : validateDirectory d p = None).
  { destruct (validateDirectory d p) as [name|] eqn:E; [|reflexivity].
    apply validateDirectory_iff in E. exfalso. apply Hdir.
    now apply (directoryShape_grammar d p name). }
  assert (Hvf : validateFile d p = None).
  { destruct (validateFile d p) as [name|] eqn:E; [|reflexivity].
    apply validateFile_iff in E. exfalso. apply Hfile.
    apply (fileShape_grammar d p name E).
    now rewrite <- (fileShape_lastSegment d p name E). }
  split; [exact Hvd|]. split; [exact Hvf|].
  intros a w rest Hq.
  assert (Hdrop : handleQueue d config w = set_queue rest w).
  { destruct (handleQueue_step d config w _ rest Hq)
      as [[_ Hw]|(name & body & Hg & _)]; [exact Hw|].
    exfalso. unfold classify in Hg. simpl in Hg.
    destruct a; rewrite ?Hvd, ?Hvf, gated_None in Hg; discriminate. }
  split; [exact Hdrop | now rewrite Hdrop].
Qed.

(* ------------------------------------------------------------------ *)
(** *** [trim], [indexOf] of a dot, and [removeFileType] *)

Lemma dropWhile_nil_iff (p : ascii -> bool) (s : str) :
  dropWhile p s = [] <-> forallb p s = true.
Proof.
  induction s as [|c s IH]; simpl; [tauto|].
  destruct (p c); simpl; [exact IH|]. split; discriminate.
Qed.

Lemma dropWhile_head (p : ascii -> bool) (s r : str) (c : ascii) :
  dropWhile p s = c :: r -> p c = false.
Proof.
  induction s as [|x s IH]; simpl; [discriminate|].
  destruct (p x) eqn:E; [exact IH|]. intros H. now injection H as <- _.
Qed.

Lemma trimEnd_app_stop (a b : str) (c : ascii) :
  isWhiteSpace c = false -> trimEnd (a ++ c :: b) = a ++ c :: trimEnd b.
Proof.
  intros Hc. unfold trimEnd. rewrite rev_app_distr. simpl rev.
  rewrite <- app_assoc. simpl app.
  rewrite dropWhile_app_stop by exact Hc.
  rewrite rev_app_distr. simpl rev. rewrite rev_involutive.
  now rewrite <- app_assoc.
Qed.

Lemma trimEnd_blank (s : str) : isBlank s = true -> trimEnd s = [].
Proof.
  intros H. unfold trimEnd. rewrite dropWhile_all; [reflexivity|].
  now rewrite forallb_rev.
Qed.

(** [trim] leaves nothing exactly when the string is blank. *)
Lemma trim_nil_iff (s : str) : trim s = [] <-> isBlank s = true.
Proof.
  unfold trim, trimStart. split.
  - intros H. apply dropWhile_nil_iff.
    destruct (dropWhile isWhiteSpace s) as [|c r] eqn:E; [reflexivity|].
    apply dropWhile_head in E.
    pose proof (trimEnd_app_stop [] r c E) as H'. simpl in H'.
    rewrite H' in H. discriminate.
  - intros H. apply dropWhile_nil_iff in H. now rewrite H.
Qed.

Lemma len_zero_iff (s : str) : (len s =? 0)%Z = true <-> s = [].
Proof.
  unfold len. destruct s; simpl; split; try reflexivity; try discriminate.
Qed.

Lemma trim_blank_test (s : str) : (len (trim s) =? 0)%Z = isBlank s.
Proof.
  destruct (isBlank s) eqn:E.
  - apply len_zero_iff. now apply trim_nil_iff.
  - destruct (len (trim s) =? 0)%Z eqn:E'; [|reflexivity].
    apply len_zero_iff, trim_nil_iff in E'. congruence.
Qed.

Lemma find_first_dot (s : str) :
  find_first (js ".") s
  = if existsb isDot s then Some (length (beforeFirstDot s)) else None.
Proof.
  change (js ".") with ["."%char].
  induction s as [|c s IH]; [reflexivity|].
  cbn [find_first strip_prefix existsb beforeFirstDot takeWhile].
  change (isDot c) with (Ascii.eqb c "."). rewrite (Ascii.eqb_sym "."%char c).
  destruct (Ascii.eqb c ".") eqn:E; simpl; [reflexivity|].
  fold (beforeFirstDot s). rewrite IH. now destruct (existsb isDot s).
Qed.

Lemma includes_dot (s : str) : includes (js ".") s = existsb isDot s.
Proof.
  unfold includes, indexOf. rewrite find_first_dot.
  destruct (existsb isDot s); [|reflexivity].
  destruct (Z.of_nat (length (beforeFirstDot s)) =? -1)%Z eqn:E; [|reflexivity].
  apply Z.eqb_eq in E. lia.
Qed.

Lemma indexOf_dot (s : str) :
  existsb isDot s = true ->
  indexOf (js ".") s = Z.of_nat (length (beforeFirstDot s)).
Proof. intros H. unfold indexOf. now rewrite find_first_dot, H. Qed.

(** A string with a dot is the part before the first dot, the dot, and a
    rest. *)
Lemma split_at_first_dot (s : str) :
  existsb isDot s = true ->
  exists rest, s = beforeFirstDot s ++ "."%char :: rest.
Proof.
  induction s as [|c s IH]; [discriminate|].
  cbn [existsb beforeFirstDot takeWhile].
  change (isDot c) with (Ascii.eqb c "."). destruct (Ascii.eqb c ".") eqn:E; simpl.
  - intros _. apply Ascii.eqb_eq in E. subst c. now exists s.
  - intros H. destruct (IH H) as (rest & Hrest). exists rest.
    f_equal. exact Hrest.
Qed.

Lemma beforeFirstDot_app (a rest : str) :
  forallb (fun c => negb (isDot c)) a = true ->
  beforeFirstDot (a ++ "."%char :: rest) = a.
Proof. intros H. unfold beforeFirstDot. now apply takeWhile_app_stop. Qed.

Lemma beforeFirstDot_dotless (s : str) :
  forallb (fun c => negb (isDot c)) (beforeFirstDot s) = true.
Proof.
  unfold beforeFirstDot. induction s as [|c s IH]; simpl; [reflexivity|].
  destruct (negb (isDot c)) eqn:E; simpl; [|reflexivity]. now rewrite E.
Qed.

Lemma beforeFirstDot_no_dot (s : str) :
  existsb isDot s = false -> beforeFirstDot s = s.
Proof.
  intros H. apply takeWhile_all. induction s as [|c s IH]; simpl in *; [reflexivity|].
  apply orb_false_iff in H as [-> H]. simpl. now apply IH.
Qed.

Lemma existsb_dropWhile (p q : ascii -> bool) (s : str) :
  existsb q s = false -> existsb q (dropWhile p s) = false.
Proof.
  induction s as [|c s IH]; simpl; [reflexivity|].
  intros H. apply orb_false_iff in H as [Hc H].
  destruct (p c); [now apply IH|]. simpl. now rewrite Hc, H.
Qed.

Lemma existsb_rev (q : ascii -> bool) (s : str) : existsb q (rev s) = existsb q s.
Proof.
  induction s as [|c s IH]; simpl; [reflexivity|].
  rewrite existsb_app, IH. simpl. rewrite orb_false_r. apply orb_comm.
Qed.

Lemma trim_no_dot (s : str) : existsb isDot s = false -> existsb isDot (trim s) = false.
Proof.
  intros H. unfold trim, trimEnd, trimStart.
  rewrite existsb_rev. apply existsb_dropWhile. rewrite existsb_rev.
  now apply existsb_dropWhile.
Qed.

(** What [removeFileType] returns for a name that has no dot or does not
    begin with white space. *)
Lemma removeFileType_spec (name : str) :
  existsb isDot name && startsWithWhiteSpace name = false ->
  removeFileType name
  = let t := beforeFirstDot (trim name) in
    if isBlank t then js "UnknownTitle" else t.
Proof.
  intros H. unfold removeFileType. rewrite trim_blank_test, includes_dot.
  cbv zeta.
  destruct (existsb isDot name) eqn:Hdot.
  - simpl in H. rewrite (indexOf_dot name Hdot), slice_prefix.
    destruct (split_at_first_dot name Hdot) as (rest & Hname).
    pose proof (beforeFirstDot_dotless name) as Hless.
    set (a := beforeFirstDot name) in *.
    assert (Htrim : trim name = a ++ "."%char :: trimEnd rest).
    { unfold trim, trimStart.
      replace (dropWhile isWhiteSpace name) with name.
      - rewrite Hname at 1. now apply trimEnd_app_stop.
      - destruct name as [|c name']; [reflexivity|]. simpl in H. simpl. now rewrite H. }
    rewrite Htrim, firstn_app, Nat.sub_diag, firstn_all. simpl firstn.
    rewrite app_nil_r, beforeFirstDot_app by exact Hless. reflexivity.
  - now rewrite (beforeFirstDot_no_dot (trim name) (trim_no_dot name Hdot)).
Qed.

(** C4 (amended).  Under a configuration whose names hold no character of
    the pattern syntax, the name [validateFile] returns for a valid item path
    is the final segment of the path; when that name has no dot or does not
    begin with white space, the title is the name trimmed of surrounding white
    space with everything from its first dot on removed, and [UnknownTitle]
    when that is empty or blank. *)
Theorem title_is_trimmed_name_before_first_dot
    (d : DirectoriesConfig) (p name : str) :
  plain_config d = true ->
  validateFile d p = Some name ->
  existsb isDot name && startsWithWhiteSpace name = false ->
  lastSegment p = name
  /\ removeFileType name
     = (if isBlank (beforeFirstDot (trim name))
        then js "UnknownTitle"
        else beforeFirstDot (trim name)).
Proof.
  intros _ Hvalid Hname. split.
  - apply (fileShape_lastSegment d). now apply validateFile_iff.
  - now apply removeFileType_spec.
Qed.

(* ================================================================== *)
(** ** The requests for file and directory events *)

Lemma validateFile_nonempty (d : DirectoriesConfig) (p name : str) :
  validateFile d p = Some name -> name <> [].
Proof. intros H. apply validateFile_iff in H as (? & ? & _ & _ & _ & _ & Hne & _). exact Hne. Qed.

Lemma validateDirectory_nonempty (d : DirectoriesConfig) (p name : str) :
  validateDirectory d p = Some name -> name <> [].
Proof. intros H. apply validateDirectory_iff in H as (? & _ & _ & Hne & _). exact Hne. Qed.

Lemma handleQueue_add (d : DirectoriesConfig) (config : KenkuRemoteConfig)
    (w : World) (p name : str) (rest : list Event) :
  queue w = {| action := add; path := p |} :: rest ->
  ACTIVATED w = true ->
  validateFile d p = Some name ->
  handleQueue d config w
  = perform
      (sent config
         (if includes (playlistsDir d) p then
            {| req_path := js "playlist/addTrack"; req_method := put;
               req_body := Some (TrackBody (removeFileType name)
                                   (cleanUrl (prepareFilePath p))
                                   (cleanUrl (replace name [] p))) |}
          else
            {| req_path := js "soundboard/addSound"; req_method := put;
               req_body := Some (SoundBody (cleanUrl (replace name [] p))
                                   (removeFileType name)
                                   (cleanUrl (prepareFilePath p))
                                   true 100 500 500) |}))
      (set_queue rest w).
Proof.
  intros Hq Hgate Hname. unfold handleQueue. rewrite Hq.
  cbn [action path ACTIVATED set_queue]. rewrite Hgate, Hname.
  rewrite gated_open by now apply (validateFile_nonempty d p).
  unfold catch_log, addTrack, addSound.
  destruct (includes (playlistsDir d) p); now rewrite callKenku_world.
Qed.

Lemma handleQueue_unlink (d : DirectoriesConfig) (config : KenkuRemoteConfig)
    (w : World) (p name : str) (rest : list Event) :
  queue w = {| action := unlink; path := p |} :: rest ->
  ACTIVATED w = true ->
  validateFile d p = Some name ->
  handleQueue d config w
  = perform
      (sent config
         (if includes (playlistsDir d) p then
            {| req_path := js "playlist/removeTrack"; req_method := put;
               req_body := Some (RemoveTrackBody (cleanUrl (prepareFilePath p))
                                   (cleanUrl (replace name [] p))) |}
          else
            {| req_path := js "soundboard/removeSound"; req_method := put;
               req_body := Some (RemoveSoundBody (cleanUrl (prepareFilePath p))
                                   (cleanUrl (replace name [] p))) |}))
      (set_queue rest w).
Proof.
  intros Hq Hgate Hname. unfold handleQueue. rewrite Hq.
  cbn [action path ACTIVATED set_queue]. rewrite Hgate, Hname.
  rewrite gated_open by now apply (validateFile_nonempty d p).
  unfold catch_log, removeTrack, removeSound.
  destruct (includes (playlistsDir d) p); now rewrite callKenku_world.
Qed.

Lemma handleQueue_addDir (d : DirectoriesConfig) (config : KenkuRemoteConfig)
    (w : World) (p name : str) (rest : list Event) :
  queue w = {| action := addDir; path := p |} :: rest ->
  ACTIVATED w = true ->
  validateDirectory d p = Some name ->
  handleQueue d config w
  = perform
      (sent config
         {| req_path := if includes (playlistsDir d) p
                        then js "playlist/add" else js "soundboard/add";
            req_method := put;
            req_body := Some (CollectionBody name (cleanUrl p)) |})
      (set_queue rest w).
Proof.
  intros Hq Hgate Hname. unfold handleQueue. rewrite Hq.
  cbn [action path ACTIVATED set_queue]. rewrite Hgate, Hname.
  rewrite gated_open by now apply (validateDirectory_nonempty d p).
  unfold catch_log, addPlaylist, addSoundboard.
  destruct (includes (playlistsDir d) p); now rewrite callKenku_world.
Qed.

Lemma occurrences_at (needle hay : str) (k : nat) :
  (k <= length hay)%nat ->
  strip_prefix needle (skipn k hay) <> None ->
  (1 <= occurrences needle hay)%nat.
Proof.
  revert k; induction hay as [|c hay IH]; intros k Hk Hocc.
  - destruct k; [|simpl in Hk; lia]. simpl in *.
    destruct (strip_prefix needle []); [lia | contradiction].
  - destruct k as [|k].
    + simpl in Hocc. cbn [occurrences].
      destruct (strip_prefix needle (c :: hay)); [lia | contradiction].
    + simpl in Hk, Hocc. cbn [occurrences].
      specialize (IH k ltac:(lia) Hocc). lia.
Qed.

(** A needle that occurs once is found where it occurs. *)
Lemma find_first_unique (needle hay : str) (k : nat) :
  occurrences needle hay = 1%nat ->
  (k <= length hay)%nat ->
  strip_prefix needle (skipn k hay) <> None ->
  find_first needle hay = Some k.
Proof.
  revert k; induction hay as [|c hay IH]; intros k Hone Hk Hocc.
  - destruct k; [|simpl in Hk; lia]. simpl in *.
    destruct (strip_prefix needle []); [reflexivity | contradiction].
  - destruct k as [|k].
    + simpl in Hocc. cbn [find_first].
      destruct (strip_prefix needle (c :: hay)); [reflexivity | contradiction].
    + simpl in Hk, Hocc. cbn [occurrences find_first] in *.
      pose proof (occurrences_at needle hay k ltac:(lia) Hocc) as Hge.
      destruct (strip_prefix needle (c :: hay)); [lia|].
      rewrite (IH k); [reflexivity | lia | lia | exact Hocc].
Qed.

(** Removing the only occurrence of the item name from [parent/name] and
    cleaning the result gives [parent]. *)
Lemma collection_url_is_parent (parent name : str) :
  occurrences name (parent ++ js "/" ++ name) = 1%nat ->
  cleanUrl (replace name [] (parent ++ js "/" ++ name)) = parent.
Proof.
  intros Hone. unfold replace, indexOf.
  assert (Hskip : skipn (length parent + 1) (parent ++ js "/" ++ name) = name).
  { rewrite app_assoc, skipn_app.
    replace (length parent + 1)%nat with (length (parent ++ js "/"))
      by (rewrite length_app; reflexivity).
    now rewrite skipn_all, Nat.sub_diag. }
  rewrite (find_first_unique name _ (length parent + 1) Hone).
  - replace (Z.of_nat (length parent + 1) <? 0)%Z with false
      by (symmetry; apply Z.ltb_ge; lia).
    rewrite Nat2Z.id.
    replace (skipn (length parent + 1 + length name) (parent ++ js "/" ++ name))
      with (@nil ascii)
      by (symmetry; apply skipn_all2; rewrite !length_app; simpl; lia).
    rewrite (app_assoc parent), firstn_app.
    replace (length parent + 1)%nat with (length (parent ++ js "/"))
      by (rewrite length_app; reflexivity).
    rewrite firstn_all, Nat.sub_diag. simpl firstn. rewrite !app_nil_r.
    apply (cleanUrl_snoc parent "/"%char).
  - rewrite !length_app. simpl. lia.
  - rewrite Hskip. rewrite <- (app_nil_r name) at 2. rewrite strip_prefix_app. discriminate.
Qed.

Lemma find_first_found (needle hay : str) (k : nat) :
  (k <= length hay)%nat ->
  strip_prefix needle (skipn k hay) <> None ->
  exists k', find_first needle hay = Some k'.
Proof.
  revert k; induction hay as [|c hay IH]; intros k Hk Hocc.
  - destruct k; [|simpl in Hk; lia]. simpl in *.
    destruct (strip_prefix needle []); [now exists 0%nat | contradiction].
  - cbn [find_first]. destruct (strip_prefix needle (c :: hay)) eqn:E.
    + now exists 0%nat.
    + destruct k as [|k]; [simpl in Hocc; congruence|].
      simpl in Hk, Hocc. destruct (IH k ltac:(lia) Hocc) as (k' & ->).
      now exists (S k').
Qed.

Lemma name_occurs_at_end (parent name : str) :
  exists k, find_first name (parent ++ js "/" ++ name) = Some k.
Proof.
  apply (find_first_found name _ (length parent + 1)).
  - rewrite !length_app. simpl. lia.
  - rewrite app_assoc, skipn_app.
    replace (length parent + 1)%nat with (length (parent ++ js "/"))
      by (rewrite length_app; reflexivity).
    rewrite skipn_all, Nat.sub_diag. simpl.
    rewrite <- (app_nil_r name) at 2. rewrite strip_prefix_app. discriminate.
Qed.

Lemma fileShape_parent (d : DirectoriesConfig) (p name : str) :
  fileShape d p name -> exists parent, p = parent ++ js "/" ++ name.
Proof.
  intros (sub & coll & -> & _). exists (root d ++ js "/" ++ sub ++ js "/" ++ coll).
  now rewrite <- !app_assoc.
Qed.

(** C10.  Under a configuration whose names hold no character of the pattern
    syntax, for a file event dequeued with the gate open and a valid path, the
    request sent carries as collection url the path with the first
    occurrence of the item name deleted and one final slash stripped.  When
    the item name occurs once in the path this is the parent directory of
    the file; when it occurs more than once it need not be. *)
Theorem collection_url_is_path_without_first_occurrence_of_item_name
    (d : DirectoriesConfig) (config : KenkuRemoteConfig) (w : World)
    (a : Action) (p name : str) (rest : list Event) :
  plain_config d = true ->
  a = add \/ a = unlink ->
  queue w = {| action := a; path := p |} :: rest ->
  ACTIVATED w = true ->
  validateFile d p = Some name ->
  (exists req body k,
      handleQueue d config w = perform (sent config req) (set_queue rest w)
      /\ req_body req = Some body
      /\ collectionUrl body = Some (cleanUrl (replace name [] p))
      /\ find_first name p = Some k
      /\ replace name [] p = firstn k p ++ skipn (k + length name) p)
  /\ (exists parent,
        p = parent ++ js "/" ++ name
        /\ (occurrences name p = 1%nat -> cleanUrl (replace name [] p) = parent))
  /\ (exists p' name' parent',
        validateFile underR p' = Some name'
        /\ p' = parent' ++ js "/" ++ name'
        /\ occurrences name' p' <> 1%nat
        /\ cleanUrl (replace name' [] p') <> parent').
Proof.
  intros _ Ha Hq Hgate Hname.
  pose proof Hname as Hshape. apply validateFile_iff in Hshape.
  destruct (fileShape_parent d p name Hshape) as (parent & Hp).
  split; [|split].
  - destruct (name_occurs_at_end parent name) as (k & Hk). rewrite <- Hp in Hk.
    assert (Hrep : replace name [] p = firstn k p ++ skipn (k + length name) p).
    { unfold replace, indexOf. rewrite Hk.
      replace (Z.of_nat k <? 0)%Z with false by (symmetry; apply Z.ltb_ge; lia).
      now rewrite Nat2Z.id. }
    destruct Ha as [-> | ->].
    + rewrite (handleQueue_add d config w p name rest Hq Hgate Hname).
      destruct (includes (playlistsDir d) p);
        eexists; eexists; exists k; repeat split; try reflexivity; assumption.
    + rewrite (handleQueue_unlink d config w p name rest Hq Hgate Hname).
      destruct (includes (playlistsDir d) p);
        eexists; eexists; exists k; repeat split; try reflexivity; assumption.
  - exists parent. split; [exact Hp|]. rewrite Hp. apply collection_url_is_parent.
  - exists (js "/r/Playlists/a/a"), (js "a"), (js "/r/Playlists/a").
    repeat split; try reflexivity; vm_compute; discriminate.
Qed.

(** C5 (amended).  With root [/r] and playlists directory [Playlists],
    [/r/Playlists/Jazz] is the playlist [Jazz], and
    [/r/Playlists/Jazz/Song 1.mp3] is a track with title [Song 1], playlist
    url [/r/Playlists/Jazz] and file url
    [file:///r/Playlists/Jazz/Song%201.mp3]: [encodeURI] escapes the space
    and keeps the slashes. *)
Theorem jazz_playlist_and_its_track (config : KenkuRemoteConfig) (rest : list Event) :
  validateDirectory underR (js "/r/Playlists/Jazz") = Some (js "Jazz")
  /\ handleQueue underR config
       {| ACTIVATED := true;
          queue := {| action := addDir; path := js "/r/Playlists/Jazz" |} :: rest;
          trace := [] |}
     = perform
         (sent config
            {| req_path := js "playlist/add"; req_method := put;
               req_body := Some (CollectionBody (js "Jazz") (js "/r/Playlists/Jazz")) |})
         {| ACTIVATED := true; queue := rest; trace := [] |}
  /\ validateFile underR (js "/r/Playlists/Jazz/Song 1.mp3") = Some (js "Song 1.mp3")
  /\ handleQueue underR config
       {| ACTIVATED := true;
          queue := {| action := add; path := js "/r/Playlists/Jazz/Song 1.mp3" |} :: rest;
          trace := [] |}
     = perform
         (sent config
            {| req_path := js "playlist/addTrack"; req_method := put;
               req_body :=
                 Some (TrackBody (js "Song 1")
                         (js "file:///r/Playlists/Jazz/Song%201.mp3")
                         (js "/r/Playlists/Jazz")) |})
         {| ACTIVATED := true; queue := rest; trace := [] |}.
Proof.
  assert (Hd : validateDirectory underR (js "/r/Playlists/Jazz") = Some (js "Jazz"))
    by reflexivity.
  assert (Hf : validateFile underR (js "/r/Playlists/Jazz/Song 1.mp3")
               = Some (js "Song 1.mp3")) by reflexivity.
  repeat split; try assumption.
  - now rewrite (handleQueue_addDir underR config _ _ (js "Jazz") rest)
      by (reflexivity || exact Hd).
  - now rewrite (handleQueue_add underR config _ _ (js "Song 1.mp3") rest)
      by (reflexivity || exact Hf).
Qed.

(** C6 (amended).  [cleanUrl] strips at most one final slash and changes
    nothing else; applying it twice gives the same as applying it once
    exactly when the string does not end with two slashes. *)
Theorem cleanUrl_strips_one_slash_idempotent_unless_two (x : str) :
  ((cleanUrl x = x /\ forall y, x <> y ++ js "/") \/ x = cleanUrl x ++ js "/")
  /\ (cleanUrl (cleanUrl x) = cleanUrl x <-> ~ exists y, x = y ++ js "//").
Proof. split; [apply cleanUrl_cases | apply cleanUrl_idem_iff]. Qed.

(* ================================================================== *)
(** ** Further properties of the classifier *)

(** X1.  Under a configuration whose names hold no character of the pattern
    syntax, [validateDirectory] accepts exactly the paths
    [root/(playlists|soundboards)/name] whose name is a non-empty run of
    letters, digits, spaces and hyphens, and returns that name, which is the
    final segment of the path. *)
Theorem validateDirectory_accepts_exactly_collection_paths
    (d : DirectoriesConfig) (p name : str) :
  plain_config d = true ->
  (validateDirectory d p = Some name
   <-> exists sub,
         p = root d ++ js "/" ++ sub ++ js "/" ++ name
         /\ (sub = playlistsDir d \/ sub = soundboardsDir d)
         /\ collectionName name)
  /\ (validateDirectory d p = Some name -> lastSegment p = name).
Proof.
  intros _. split.
  - rewrite validateDirectory_iff. unfold directoryShape, collectionName.
    split; intros (sub & Hp & Hsub & Hne & Hall); exists sub; repeat split; auto.
    + now rewrite <- (forallb_ext_str _ _ name folderClass_chars).
    + now rewrite (forallb_ext_str _ _ name folderClass_chars).
  - intros H. apply (directoryShape_lastSegment d). now apply validateDirectory_iff.
Qed.

(** X2.  Under such a configuration, [validateFile] accepts exactly the paths
    [root/(playlists|soundboards)/collection/name] whose collection is a
    non-empty run of letters, digits, spaces and hyphens and whose name is a
    non-empty run of those, dots and the marks U+0021..U+002C; it returns the
    name, which is the final segment of the path and holds no slash. *)
Theorem validateFile_accepts_exactly_item_paths
    (d : DirectoriesConfig) (p name : str) :
  plain_config d = true ->
  (validateFile d p = Some name
   <-> exists sub coll,
         p = root d ++ js "/" ++ sub ++ js "/" ++ coll ++ js "/" ++ name
         /\ (sub = playlistsDir d \/ sub = soundboardsDir d)
         /\ collectionName coll
         /\ name <> []
         /\ forallb (fun c => folderChar c || isDot c || isStrayMark c) name = true)
  /\ (validateFile d p = Some name ->
      lastSegment p = name /\ existsb isSlash name = false).
Proof.
  intros _. split.
  - rewrite validateFile_iff. unfold fileShape, collectionName.
    split.
    + intros (sub & coll & Hp & Hsub & Hnec & Hallc & Hne & Hall).
      exists sub, coll. repeat split; auto.
      * now rewrite <- (forallb_ext_str _ _ coll folderClass_chars).
      * now rewrite <- (forallb_ext_str _ _ name fileClass_chars).
    + intros (sub & coll & Hp & Hsub & [Hnec Hallc] & Hne & Hall).
      exists sub, coll. repeat split; auto.
      * now rewrite (forallb_ext_str _ _ coll folderClass_chars).
      * now rewrite (forallb_ext_str _ _ name fileClass_chars).
  - intros H. apply validateFile_iff in H. split.
    + now apply (fileShape_lastSegment d).
    + destruct H as (sub & coll & _ & _ & _ & _ & _ & Hall).
      apply (forallb_impl _ _ _ fileClass_no_slash) in Hall.
      clear - Hall. induction name as [|c name IH]; simpl in *; [reflexivity|].
      apply andb_true_iff in Hall as [Hc Hall].
      apply negb_true_iff in Hc. rewrite Hc. now apply IH.
Qed.

Lemma forallb_no_slash (s : str) :
  forallb (fun c => negb (isSlash c)) s = true <-> existsb isSlash s = false.
Proof.
  induction s as [|c s IH]; simpl; [tauto|].
  rewrite andb_true_iff, orb_false_iff, negb_true_iff, IH. tauto.
Qed.

(** X3.  Under such a configuration whose two directory names hold no slash,
    no path is accepted by both validators: a path is a collection directory
    or an item, never both. *)
Theorem validators_accept_disjoint_paths (d : DirectoriesConfig) (p : str) :
  plain_config d = true ->
  existsb isSlash (playlistsDir d) = false ->
  existsb isSlash (soundboardsDir d) = false ->
  validateDirectory d p = None \/ validateFile d p = None.
Proof.
  intros _ Hpl Hsb.
  destruct (validateDirectory d p) as [dir|] eqn:Ed; [|now left]. right.
  destruct (validateFile d p) as [file|] eqn:Ef; [|reflexivity]. exfalso.
  apply validateDirectory_iff in Ed as (sub & Hp & Hsub & _ & Hdir).
  apply validateFile_iff in Ef as (sub' & coll & Hp' & Hsub' & _ & _ & _ & _).
  rewrite Hp in Hp'. apply app_inv_head in Hp'.
  change (js "/" ++ sub ++ js "/" ++ dir) with ("/"%char :: (sub ++ js "/" ++ dir)) in Hp'.
  change (js "/" ++ sub' ++ js "/" ++ coll ++ js "/" ++ file)
    with ("/"%char :: (sub' ++ js "/" ++ coll ++ js "/" ++ file)) in Hp'.
  injection Hp' as Hp'.
  assert (Hs : forall x, x = playlistsDir d \/ x = soundboardsDir d ->
                         forallb (fun c => negb (isSlash c)) x = true).
  { intros x [-> | ->]; now apply forallb_no_slash. }
  destruct (split_at_first_slash sub sub' _ _ (Hs sub Hsub) (Hs sub' Hsub') Hp')
    as [_ ->].
  rewrite forallb_app in Hdir. apply andb_true_iff in Hdir as [_ Hdir].
  vm_compute in Hdir. discriminate.
Qed.

(* ================================================================== *)
(** ** Further properties of titles and urls *)

Lemma encodeURI_app (a b : str) : encodeURI (a ++ b) = encodeURI a ++ encodeURI b.
Proof. apply flat_map_app. Qed.

(** The escape of a code unit other than the slash ends with a character
    other than the slash. *)
Lemma encodeUnit_last (c : ascii) :
  isSlash c = false ->
  exists front x, encodeUnit c = front ++ [x] /\ isSlash x = false.
Proof.
  intros Hc.
  exists (removelast (encodeUnit c)), (last (encodeUnit c) " "%char).
  revert Hc.
  destruct c as [[] [] [] [] [] [] [] []]; vm_compute; intros H;
    (discriminate H || (split; reflexivity)).
Qed.

Lemma cleanUrl_no_final_slash (s : str) (c : ascii) :
  isSlash c = false -> cleanUrl (s ++ [c]) = s ++ [c].
Proof. intros Hc. now rewrite cleanUrl_snoc, Hc. Qed.

Lemma folderClass_no_slash (c : ascii) :
  in_class folderClass c = true -> isSlash c = false.
Proof.
  destruct c as [[] [] [] [] [] [] [] []]; vm_compute; intros H;
    (reflexivity || discriminate H).
Qed.

Lemma forallb_last (p : ascii -> bool) (s : str) :
  s <> [] -> forallb p s = true -> exists front c, s = front ++ [c] /\ p c = true.
Proof.
  intros Hne Hall. destruct (exists_last Hne) as (front & c & ->).
  exists front, c. split; [reflexivity|].
  rewrite forallb_app in Hall. apply andb_true_iff in Hall as [_ Hall].
  simpl in Hall. now rewrite andb_true_r in Hall.
Qed.

Lemma handleQueue_unlinkDir (d : DirectoriesConfig) (config : KenkuRemoteConfig)
    (w : World) (p name : str) (rest : list Event) :
  queue w = {| action := unlinkDir; path := p |} :: rest ->
  ACTIVATED w = true ->
  validateDirectory d p = Some name ->
  handleQueue d config w
  = perform
      (sent config
         {| req_path := if includes (playlistsDir d) p
                        then js "playlist/remove" else js "soundboard/remove";
            req_method := put;
            req_body := Some (UrlBody (cleanUrl p)) |})
      (set_queue rest w).
Proof.
  intros Hq Hgate Hname. unfold handleQueue. rewrite Hq.
  cbn [action path ACTIVATED set_queue]. rewrite Hgate, Hname.
  rewrite gated_open by now apply (validateDirectory_nonempty d p).
  unfold catch_log, removePlaylist, removeSoundboard.
  destruct (includes (playlistsDir d) p); now rewrite callKenku_world.
Qed.

Lemma cleanUrl_valid_directory (d : DirectoriesConfig) (p name : str) :
  validateDirectory d p = Some name -> cleanUrl p = p.
Proof.
  intros H. apply validateDirectory_iff in H as (sub & -> & _ & Hne & Hall).
  destruct (forallb_last _ name Hne Hall) as (front & c & -> & Hc).
  rewrite !app_assoc. apply cleanUrl_no_final_slash.
  now apply folderClass_no_slash.
Qed.

Lemma cleanUrl_valid_file (d : DirectoriesConfig) (p name : str) :
  validateFile d p = Some name ->
  cleanUrl (prepareFilePath p) = js "file://" ++ encodeURI p.
Proof.
  intros H.
  apply validateFile_iff in H as (sub & coll & -> & _ & _ & _ & Hne & Hall).
  destruct (forallb_last _ name Hne Hall) as (front & c & -> & Hc).
  apply fileClass_no_slash, negb_true_iff in Hc.
  destruct (encodeUnit_last c Hc) as (efront & x & Hx & Hslash).
  unfold prepareFilePath. rewrite !app_assoc, encodeURI_app.
  cbn [encodeURI flat_map]. rewrite app_nil_r, Hx, !app_assoc.
  now apply cleanUrl_no_final_slash.
Qed.

(** X4.  Under a configuration whose names hold no character of the pattern
    syntax, [cleanUrl] changes nothing on the urls of valid paths: a valid
    directory path does not end with a slash, and neither does the file url
    of a valid item path.  So the url sent for a collection is its path, and
    the url sent for an item is [file://] followed by [encodeURI] of its
    path. *)
Theorem cleanUrl_keeps_urls_of_valid_paths (d : DirectoriesConfig) (p : str) :
  plain_config d = true ->
  (forall name, validateDirectory d p = Some name -> cleanUrl p = p)
  /\ (forall name, validateFile d p = Some name ->
                   cleanUrl (prepareFilePath p) = js "file://" ++ encodeURI p).
Proof.
  intros _. split; intros name H.
  - now apply (cleanUrl_valid_directory d p name).
  - now apply (cleanUrl_valid_file d p name).
Qed.

(* ------------------------------------------------------------------ *)
(** *** [Utf16.encodeURI] on the strings of the language *)

Lemma hexValue_hexDigit (n : nat) : (n < 16)%nat -> hexValue (hexDigit n) = Some n.
Proof. intros H. do 16 (destruct n as [|n]; [reflexivity|]). lia. Qed.

Lemma readOctet_percent (o : Z) (rest : str) :
  (0 <= o < 256)%Z -> Utf16.readOctet (percent (Z.to_nat o) ++ rest) = Some (o, rest).
Proof.
  intros Ho. unfold percent, Utf16.readOctet. cbn [app].
  rewrite !hexValue_hexDigit.
  - rewrite <- Nat.div_mod_eq. now rewrite Z2Nat.id by lia.
  - apply Nat.mod_upper_bound. lia.
  - apply Nat.Div0.div_lt_upper_bound. lia.
Qed.

Lemma decodeFirst_percent (o : Z) (rest : str) :
  (0 <= o < 256)%Z ->
  Utf16.decodeFirst (percent (Z.to_nat o) ++ rest)
  = (if o <? 128 then Some ([o], rest)
     else if o <? 224 then
       match Utf16.readOctets 1 rest with
       | Some ([o2], r) => Some ([(o - 192) * 64 + (o2 - 128)], r)
       | _ => None
       end
     else if o <? 240 then
       match Utf16.readOctets 2 rest with
       | Some ([o2; o3], r) =>
           Some ([(o - 224) * 4096 + (o2 - 128) * 64 + (o3 - 128)], r)
       | _ => None
       end
     else
       match Utf16.readOctets 3 rest with
       | Some ([o2; o3; o4], r) =>
           let v := (o - 240) * 262144 + (o2 - 128) * 4096
                    + (o3 - 128) * 64 + (o4 - 128) - 65536 in
           Some ([55296 + v / 1024; 56320 + v mod 1024], r)
       | _ => None
       end)%Z.
Proof.
  intros Ho. pose proof (readOctet_percent o rest Ho) as Hread.
  unfold percent in *. cbn [app] in *. unfold Utf16.decodeFirst. now rewrite Hread.
Qed.

Lemma readOctets_1 (o : Z) (rest : str) :
  (0 <= o < 256)%Z -> Utf16.readOctets 1 (percent (Z.to_nat o) ++ rest) = Some ([o], rest).
Proof. intros Ho. cbn [Utf16.readOctets]. now rewrite readOctet_percent. Qed.

Lemma readOctets_2 (o o' : Z) (rest : str) :
  (0 <= o < 256)%Z -> (0 <= o' < 256)%Z ->
  Utf16.readOctets 2 (percent (Z.to_nat o) ++ percent (Z.to_nat o') ++ rest)
  = Some ([o; o'], rest).
Proof.
  intros Ho Ho'. cbn [Utf16.readOctets].
  now rewrite readOctet_percent, readOctet_percent.
Qed.

Lemma readOctets_3 (o o' o'' : Z) (rest : str) :
  (0 <= o < 256)%Z -> (0 <= o' < 256)%Z -> (0 <= o'' < 256)%Z ->
  Utf16.readOctets 3 (percent (Z.to_nat o) ++ percent (Z.to_nat o')
                ++ percent (Z.to_nat o'') ++ rest)
  = Some ([o; o'; o''], rest).
Proof.
  intros Ho Ho' Ho''. cbn [Utf16.readOctets].
  now rewrite readOctet_percent, readOctet_percent, readOctet_percent.
Qed.

(** The Utf16.escape of a code point below 65536 reads back as that code unit. *)
Lemma decodeFirst_unit (c : Z) (rest : str) :
  (0 <= c < 65536)%Z -> Utf16.decodeFirst (Utf16.escape c ++ rest) = Some ([c], rest).
Proof.
  intros Hc. unfold Utf16.escape, Utf16.utf8.
  destruct (Z.ltb_spec c 128) as [H1|H1]; [|destruct (Z.ltb_spec c 2048) as [H2|H2];
    [|destruct (Z.ltb_spec c 65536) as [H3|H3]; [|lia]]];
    cbn [flat_map]; rewrite <- ?app_assoc; cbn [app].
  - rewrite decodeFirst_percent by lia.
    destruct (Z.ltb_spec c 128); [reflexivity | lia].
  - assert (0 <= 192 + c / 64 < 256)%Z by (Z.to_euclidean_division_equations; lia).
    assert (0 <= 128 + c mod 64 < 256)%Z by (Z.to_euclidean_division_equations; lia).
    rewrite decodeFirst_percent by assumption.
    destruct (Z.ltb_spec (192 + c / 64) 128);
      [Z.to_euclidean_division_equations; lia|].
    destruct (Z.ltb_spec (192 + c / 64) 224);
      [|Z.to_euclidean_division_equations; lia].
    rewrite readOctets_1 by assumption. do 3 f_equal.
    Z.to_euclidean_division_equations; lia.
  - assert (0 <= 224 + c / 4096 < 256)%Z by (Z.to_euclidean_division_equations; lia).
    assert (0 <= 128 + (c / 64) mod 64 < 256)%Z
      by (Z.to_euclidean_division_equations; lia).
    assert (0 <= 128 + c mod 64 < 256)%Z by (Z.to_euclidean_division_equations; lia).
    rewrite decodeFirst_percent by assumption.
    destruct (Z.ltb_spec (224 + c / 4096) 128);
      [Z.to_euclidean_division_equations; lia|].
    destruct (Z.ltb_spec (224 + c / 4096) 224);
      [Z.to_euclidean_division_equations; lia|].
    destruct (Z.ltb_spec (224 + c / 4096) 240);
      [|Z.to_euclidean_division_equations; lia].
    rewrite readOctets_2 by assumption. do 3 f_equal.
    Z.to_euclidean_division_equations; lia.
Qed.

(** The Utf16.escape of the code point of a surrogate pair reads back as the
    pair. *)
Lemma decodeFirst_pair (high low : Z) (rest : str) :
  Utf16.isHigh high = true -> Utf16.isLow low = true ->
  Utf16.decodeFirst (Utf16.escape (Utf16.codePoint high low) ++ rest) = Some ([high; low], rest).
Proof.
  unfold Utf16.isHigh, Utf16.isLow. rewrite !andb_true_iff, !Z.leb_le. intros Hh Hl.
  unfold Utf16.escape, Utf16.utf8. set (v := Utf16.codePoint high low).
  assert (Hv : (65536 <= v < 1114112)%Z) by (unfold v, Utf16.codePoint; lia).
  destruct (Z.ltb_spec v 128); [lia|]. destruct (Z.ltb_spec v 2048); [lia|].
  destruct (Z.ltb_spec v 65536); [lia|].
  cbn [flat_map]. rewrite <- ?app_assoc. cbn [app].
  assert (0 <= 240 + v / 262144 < 256)%Z by (Z.to_euclidean_division_equations; lia).
  assert (0 <= 128 + (v / 4096) mod 64 < 256)%Z
    by (Z.to_euclidean_division_equations; lia).
  assert (0 <= 128 + (v / 64) mod 64 < 256)%Z
    by (Z.to_euclidean_division_equations; lia).
  assert (0 <= 128 + v mod 64 < 256)%Z by (Z.to_euclidean_division_equations; lia).
  rewrite decodeFirst_percent by assumption.
  destruct (Z.ltb_spec (240 + v / 262144) 128);
    [Z.to_euclidean_division_equations; lia|].
  destruct (Z.ltb_spec (240 + v / 262144) 224);
    [Z.to_euclidean_division_equations; lia|].
  destruct (Z.ltb_spec (240 + v / 262144) 240);
    [Z.to_euclidean_division_equations; lia|].
  rewrite readOctets_3 by assumption. cbv zeta.
  assert (Hback : ((240 + v / 262144 - 240) * 262144
                   + (128 + (v / 4096) mod 64 - 128) * 4096
                   + (128 + (v / 64) mod 64 - 128) * 64
                   + (128 + v mod 64 - 128) - 65536 = v - 65536)%Z)
    by (Z.to_euclidean_division_equations; lia).
  rewrite Hback. do 3 f_equal; [|f_equal];
    unfold v, Utf16.codePoint; Z.to_euclidean_division_equations; lia.
Qed.

Lemma decodeFirst_kept (a : ascii) (rest : str) :
  uriKept a = true -> Utf16.decodeFirst (a :: rest) = Some ([Z.of_nat (code a)], rest).
Proof.
  destruct a as [[] [] [] [] [] [] [] []]; intros H;
    (reflexivity || (vm_compute in H; discriminate H)).
Qed.

Lemma kept_range (c : Z) :
  Utf16.kept c = true ->
  (0 <= c < 128)%Z /\ Utf16.isLow c = false /\ Utf16.isHigh c = false
  /\ uriKept (Utf16.unit_ascii c) = true /\ Z.of_nat (code (Utf16.unit_ascii c)) = c.
Proof.
  unfold Utf16.kept, Utf16.isLow, Utf16.isHigh. rewrite !andb_true_iff, Z.leb_le, Z.ltb_lt.
  intros [[H0 H1] Hk]. split; [lia|]. split; [|split; [|split; [exact Hk|]]].
  - apply andb_false_iff. left. apply Z.leb_gt. lia.
  - apply andb_false_iff. left. apply Z.leb_gt. lia.
  - unfold Utf16.unit_ascii, code. rewrite nat_ascii_embedding by lia. lia.
Qed.

(** Induction on a string one or two code Utf16.units at a time. *)
Lemma ustr_ind2 (P : Utf16.ustr -> Prop) :
  P [] ->
  (forall c rest,
      P rest -> (forall c' rest', rest = c' :: rest' -> P rest') -> P (c :: rest)) ->
  forall s, P s.
Proof.
  intros Hnil Hcons s.
  enough (H : P s /\ (forall c' rest', s = c' :: rest' -> P rest')) by apply H.
  induction s as [|c rest [IH1 IH2]].
  - split; [exact Hnil | discriminate].
  - split; [now apply Hcons|]. now intros c' rest' [= <- <-].
Qed.

(** One step of [Utf16.encodeURI]: the code Utf16.units it consumes are read back from
    what it wrote. *)
Lemma encodeURI_step (c : Z) (rest : Utf16.ustr) (u : str) :
  Utf16.units (c :: rest) ->
  Utf16.encodeURI (c :: rest) = Some u ->
  exists consumed remaining u',
    c :: rest = consumed ++ remaining
    /\ (length remaining < length (c :: rest))%nat
    /\ Utf16.encodeURI remaining = Some u'
    /\ Utf16.decodeFirst u = Some (consumed, u').
Proof.
  intros Hunits. cbn [Utf16.encodeURI].
  assert (Hc : (0 <= c < 65536)%Z) by now inversion Hunits.
  destruct (Utf16.kept c) eqn:Hkept.
  - destruct (Utf16.encodeURI rest) as [u'|] eqn:E; [|discriminate]. intros [= <-].
    exists [c], rest, u'. apply kept_range in Hkept as (_ & _ & _ & Hk & Hback).
    split; [reflexivity|]. split; [cbn [length]; lia|]. split; [exact E|].
    now rewrite (decodeFirst_kept _ _ Hk), Hback.
  - destruct (Utf16.isLow c); [discriminate|]. destruct (Utf16.isHigh c) eqn:Hhigh.
    + destruct rest as [|c' rest']; [discriminate|].
      destruct (Utf16.isLow c') eqn:Hlow; [|discriminate].
      destruct (Utf16.encodeURI rest') as [u'|] eqn:E; [|discriminate]. intros [= <-].
      exists [c; c'], rest', u'.
      split; [reflexivity|]. split; [cbn [length]; lia|]. split; [exact E|].
      now apply decodeFirst_pair.
    + destruct (Utf16.encodeURI rest) as [u'|] eqn:E; [|discriminate]. intros [= <-].
      exists [c], rest, u'.
      split; [reflexivity|]. split; [cbn [length]; lia|]. split; [exact E|].
      now apply decodeFirst_unit.
Qed.

Lemma encodeURI_injective_units (n : nat) (p q : Utf16.ustr) (u : str) :
  (length p <= n)%nat -> Utf16.units p -> Utf16.units q ->
  Utf16.encodeURI p = Some u -> Utf16.encodeURI q = Some u -> p = q.
Proof.
  revert p q u; induction n as [|n IH]; intros p q u Hlen Hp Hq Ep Eq.
  - destruct p; [|cbn [length] in Hlen; lia]. injection Ep as <-.
    destruct q as [|c q]; [reflexivity|].
    destruct (encodeURI_step c q [] Hq Eq) as (? & ? & ? & _ & _ & _ & H).
    discriminate H.
  - destruct p as [|c p].
    + injection Ep as <-. destruct q as [|c q]; [reflexivity|].
      destruct (encodeURI_step c q [] Hq Eq) as (? & ? & ? & _ & _ & _ & H).
      discriminate H.
    + destruct (encodeURI_step c p u Hp Ep) as (cp & rp & up & Hsplit & Hshort & Erp & Dp).
      destruct q as [|c' q].
      { injection Eq as <-. discriminate Dp. }
      destruct (encodeURI_step c' q u Hq Eq) as (cq & rq & uq & Hsplit' & _ & Erq & Dq).
      rewrite Dp in Dq. injection Dq as <- <-.
      rewrite Hsplit, Hsplit'. f_equal.
      apply (IH rp rq up); try assumption.
      * cbn [length] in Hlen, Hshort. lia.
      * rewrite Hsplit in Hp. now apply Forall_app in Hp.
      * rewrite Hsplit' in Hq. now apply Forall_app in Hq.
Qed.

Lemma units_ofStr (s : str) : Utf16.units (Utf16.ofStr s).
Proof.
  unfold Utf16.units, Utf16.ofStr. apply Forall_forall. intros z Hz.
  apply in_map_iff in Hz as (c & <- & _).
  pose proof (nat_ascii_bounded c). unfold code. lia.
Qed.

(** On a code unit below 256 the two [Utf16.encodeURI] do the same. *)
Lemma encodeURI_ofStr_cons (c : ascii) (rest : Utf16.ustr) :
  Utf16.encodeURI (Z.of_nat (code c) :: rest)
  = option_map (app (encodeUnit c)) (Utf16.encodeURI rest).
Proof. destruct c as [[] [] [] [] [] [] [] []]; reflexivity. Qed.

Lemma encodeURI_ofStr (s : str) : Utf16.encodeURI (Utf16.ofStr s) = Some (encodeURI s).
Proof.
  induction s as [|c s IH]; [reflexivity|].
  cbn [Utf16.ofStr map]. fold (Utf16.ofStr s). rewrite encodeURI_ofStr_cons, IH. reflexivity.
Qed.

Lemma ofStr_injective (p q : str) : Utf16.ofStr p = Utf16.ofStr q -> p = q.
Proof.
  revert q; induction p as [|a p IH]; intros [|b q] H; try discriminate H;
    [reflexivity|].
  cbn [Utf16.ofStr map] in H. injection H as Hab Hpq. f_equal; [|now apply IH].
  unfold code in Hab. apply Nat2Z.inj in Hab.
  rewrite <- (ascii_nat_embedding a), <- (ascii_nat_embedding b). now rewrite Hab.
Qed.

(** X5.  [prepareFilePath] is injective: two paths, of any code Utf16.units of the
    language, for which [Utf16.encodeURI] does not throw get the same file url
    only if they are the same path.  So it is for the paths of code Utf16.units
    below 256. *)
Theorem prepareFilePath_is_injective :
  (forall (p q : Utf16.ustr) (u : str),
      Utf16.units p -> Utf16.units q ->
      Utf16.prepareFilePath p = Some u -> Utf16.prepareFilePath q = Some u -> p = q)
  /\ (forall p q : str, prepareFilePath p = prepareFilePath q <-> p = q).
Proof.
  assert (Hfull : forall (p q : Utf16.ustr) (u : str),
             Utf16.units p -> Utf16.units q ->
             Utf16.prepareFilePath p = Some u -> Utf16.prepareFilePath q = Some u ->
             p = q).
  { intros p q u Hp Hq. unfold Utf16.prepareFilePath.
    destruct (Utf16.encodeURI p) as [up|] eqn:Ep; [|discriminate].
    destruct (Utf16.encodeURI q) as [uq|] eqn:Eq; [|discriminate].
    cbn [option_map]. intros [= <-] [= H]. subst uq.
    now apply (encodeURI_injective_units (length p) p q up). }
  split; [exact Hfull|].
  intros p q. split; [|now intros ->]. intros H. apply ofStr_injective.
  apply (Hfull (Utf16.ofStr p) (Utf16.ofStr q) (prepareFilePath p));
    try apply units_ofStr; unfold Utf16.prepareFilePath;
    rewrite encodeURI_ofStr; cbn [option_map]; [reflexivity|].
  now rewrite H.
Qed.

Lemma hexDigit_alphabet (n : nat) :
  (fun x => (uriKept x || Ascii.eqb x "%"%char)
            && (code x <? 128)%nat && negb (isWhiteSpace x)) (hexDigit n) = true.
Proof. do 16 (destruct n as [|n]; [reflexivity|]). now destruct n. Qed.

Lemma escape_alphabet (v : Z) :
  forallb (fun x => (uriKept x || Ascii.eqb x "%"%char)
                    && (code x <? 128)%nat && negb (isWhiteSpace x))
    (Utf16.escape v) = true.
Proof.
  unfold Utf16.escape. induction (Utf16.utf8 v) as [|o octets IH]; [reflexivity|].
  cbn [flat_map]. rewrite forallb_app, IH, andb_true_r.
  unfold percent. cbn [forallb]. rewrite !hexDigit_alphabet. reflexivity.
Qed.

Lemma kept_alphabet (a : ascii) :
  uriKept a = true ->
  (uriKept a || Ascii.eqb a "%"%char) && (code a <? 128)%nat
  && negb (isWhiteSpace a) = true.
Proof.
  destruct a as [[] [] [] [] [] [] [] []]; intros H;
    (reflexivity || (vm_compute in H; discriminate H)).
Qed.

Lemma encodeURI_alphabet (s : Utf16.ustr) (u : str) :
  Utf16.encodeURI s = Some u ->
  forallb (fun x => (uriKept x || Ascii.eqb x "%"%char)
                    && (code x <? 128)%nat && negb (isWhiteSpace x)) u = true.
Proof.
  revert u. induction s as [|c rest IH1 IH2] using ustr_ind2; intros u.
  - now intros [= <-].
  - cbn [Utf16.encodeURI]. destruct (Utf16.kept c) eqn:Hkept.
    + destruct (Utf16.encodeURI rest) as [u'|]; [|discriminate]. intros [= <-].
      apply kept_range in Hkept as (_ & _ & _ & Hk & _).
      cbn [forallb]. now rewrite (kept_alphabet _ Hk), (IH1 u').
    + destruct (Utf16.isLow c); [discriminate|]. destruct (Utf16.isHigh c).
      * destruct rest as [|c' rest']; [discriminate|].
        destruct (Utf16.isLow c'); [|discriminate].
        destruct (Utf16.encodeURI rest') as [u'|] eqn:E; [|discriminate].
        intros [= <-]. rewrite forallb_app, escape_alphabet.
        now apply (IH2 c' rest').
      * destruct (Utf16.encodeURI rest) as [u'|]; [|discriminate]. intros [= <-].
        rewrite forallb_app, escape_alphabet. now apply IH1.
Qed.

Lemma encodeURI_kept (s : Utf16.ustr) :
  forallb Utf16.kept s = true -> Utf16.encodeURI s = Some (map Utf16.unit_ascii s).
Proof.
  induction s as [|c s IH]; [reflexivity|]. cbn [forallb].
  rewrite andb_true_iff. intros [Hc Hs]. cbn [Utf16.encodeURI map].
  now rewrite Hc, (IH Hs).
Qed.

Lemma option_map_None {A B} (f : A -> B) (o : option A) :
  option_map f o = None <-> o = None.
Proof. destruct o; cbn; split; congruence. Qed.

Lemma encodeURI_None (s : Utf16.ustr) :
  Utf16.encodeURI s = None <-> Utf16.loneSurrogate s = true.
Proof.
  induction s as [|c rest IH1 IH2] using ustr_ind2.
  - cbn. split; discriminate.
  - cbn [Utf16.encodeURI Utf16.loneSurrogate]. destruct (Utf16.kept c) eqn:Hkept.
    + apply kept_range in Hkept as (_ & -> & -> & _). now rewrite option_map_None.
    + destruct (Utf16.isLow c); [now split|]. destruct (Utf16.isHigh c).
      * destruct rest as [|c' rest']; [now split|].
        destruct (Utf16.isLow c'); [|now split].
        rewrite option_map_None. now apply (IH2 c' rest').
      * now rewrite option_map_None.
Qed.

(** X6.  A file url is made of the characters [encodeURI] keeps and of
    percent signs only, whatever the code units of the path: every character
    is below 128 and none is white space.  A path made of kept characters is
    copied as it is. *)
Theorem prepareFilePath_is_plain_ascii :
  (forall (p : Utf16.ustr) (u : str),
      Utf16.prepareFilePath p = Some u ->
      forallb (fun x => (uriKept x || Ascii.eqb x "%"%char)
                        && (code x <? 128)%nat && negb (isWhiteSpace x)) u = true)
  /\ (forall p : Utf16.ustr,
        forallb Utf16.kept p = true ->
        Utf16.prepareFilePath p = Some (js "file://" ++ map Utf16.unit_ascii p))
  /\ (forall p : str,
        forallb (fun x => (uriKept x || Ascii.eqb x "%"%char)
                          && (code x <? 128)%nat && negb (isWhiteSpace x))
          (prepareFilePath p) = true).
Proof.
  assert (Hfull : forall (p : Utf16.ustr) (u : str),
             Utf16.prepareFilePath p = Some u ->
             forallb (fun x => (uriKept x || Ascii.eqb x "%"%char)
                               && (code x <? 128)%nat && negb (isWhiteSpace x)) u
             = true).
  { intros p u. unfold Utf16.prepareFilePath.
    destruct (Utf16.encodeURI p) as [up|] eqn:Ep; [|discriminate].
    cbn [option_map]. intros E.
    apply (f_equal (fun o => match o with Some x => x | None => [] end)) in E.
    cbv beta iota in E. subst u. rewrite forallb_app.
    now rewrite (encodeURI_alphabet p up Ep). }
  split; [exact Hfull|]. split.
  - intros p Hp. unfold Utf16.prepareFilePath. now rewrite (encodeURI_kept p Hp).
  - intros p. apply (Hfull (Utf16.ofStr p)). unfold Utf16.prepareFilePath.
    now rewrite encodeURI_ofStr.
Qed.

(** X19.  [encodeURI], and with it [prepareFilePath], throws exactly when the
    path holds a surrogate that is not part of a pair, a low one first or a
    high one not followed by a low one.  On a path of code units below 256
    it never throws and gives what the [encodeURI] of this development
    gives. *)
Theorem encodeURI_throws_exactly_at_lone_surrogates :
  (forall p : Utf16.ustr,
      Utf16.prepareFilePath p = None <-> Utf16.loneSurrogate p = true)
  /\ (forall s : str, Utf16.encodeURI (Utf16.ofStr s) = Some (encodeURI s))
  /\ (forall s : str,
        Utf16.prepareFilePath (Utf16.ofStr s) = Some (prepareFilePath s)).
Proof.
  split; [|split].
  - intros p. unfold Utf16.prepareFilePath. rewrite option_map_None.
    apply encodeURI_None.
  - apply encodeURI_ofStr.
  - intros s. unfold Utf16.prepareFilePath. now rewrite encodeURI_ofStr.
Qed.

(** X7.  A title is never empty and never blank, whatever the name. *)
Theorem removeFileType_is_never_blank (name : str) :
  isBlank (removeFileType name) = false /\ removeFileType name <> [].
Proof.
  assert (H : isBlank (removeFileType name) = false).
  { unfold removeFileType. rewrite trim_blank_test.
    destruct (isBlank (if includes (js ".") name
                       then slice 0 (indexOf (js ".") name) (trim name)
                       else trim name)) eqn:E; [reflexivity | exact E]. }
  split; [exact H|]. intros Hnil. rewrite Hnil in H. discriminate.
Qed.

Lemma firstn_takeWhile (p : ascii -> bool) (s : str) :
  firstn (length (takeWhile p s)) s = takeWhile p s.
Proof.
  induction s as [|c s IH]; simpl; [reflexivity|].
  destruct (p c); simpl; [now rewrite IH | reflexivity].
Qed.

Lemma slice_drop_last (s : str) : slice 0 (-1) s = removelast s.
Proof.
  rewrite removelast_firstn_len. unfold slice, len.
  change (0 <? 0)%Z with false. change (-1 <? 0)%Z with true. cbv iota.
  replace (Z.min 0 (Z.of_nat (length s))) with 0%Z by lia.
  change (skipn (Z.to_nat 0) s) with s. f_equal.
  destruct s as [|c s]; [reflexivity|]. cbn [length pred]. lia.
Qed.

(** X8.  The earlier [removeFileType] cuts a name with a dot at its first
    dot, and drops the last character of a name without one; it does not
    guard against an empty title, so a name that begins with a dot and a
    one-character name both give the empty title. *)
Theorem earlier_removeFileType_cuts_or_drops_last (name : str) :
  Part000.removeFileType name
  = (if existsb isDot name then beforeFirstDot name else removelast name)
  /\ (forall rest, Part000.removeFileType ("."%char :: rest) = [])
  /\ (forall c, isDot c = false -> Part000.removeFileType [c] = []).
Proof.
  assert (H : forall s, Part000.removeFileType s
                        = if existsb isDot s then beforeFirstDot s else removelast s).
  { intros s. unfold Part000.removeFileType.
    destruct (existsb isDot s) eqn:E.
    - rewrite (indexOf_dot s E), slice_prefix. apply firstn_takeWhile.
    - unfold indexOf. rewrite find_first_dot, E. apply slice_drop_last. }
  split; [apply H|]. split.
  - intros rest. rewrite H. reflexivity.
  - intros c Hc. rewrite H. simpl. now rewrite Hc.
Qed.

(* ================================================================== *)
(** ** Further properties of the queue *)

(** One firing of the timer: the head of the queue goes, the gate stays, and
    the trace grows by the requests of that event handled alone. *)
Lemma handleQueue_local (d : DirectoriesConfig) (config : KenkuRemoteConfig)
    (w : World) :
  handleQueue d config w
  = {| ACTIVATED := ACTIVATED w;
       queue := tl (queue w);
       trace := trace w ++ requestsOf d config (ACTIVATED w) (firstn 1 (queue w)) |}.
Proof.
  destruct w as [gate q t]. destruct q as [|e rest].
  - simpl. now rewrite app_nil_r.
  - unfold requestsOf. cbn [firstn flat_map queue ACTIVATED trace tl].
    rewrite app_nil_r. unfold handleQueue.
    cbn [queue ACTIVATED set_queue trace].
    destruct (action e);
      match goal with
      | |- context [gated ?g ?v] => destruct (gated g v) as [name|]
      end;
      try (cbn [trace]; now rewrite app_nil_r);
      destruct (includes (playlistsDir d) (path e));
      unfold catch_log, addTrack, addSound, removeTrack, removeSound, addPlaylist,
        addSoundboard, removePlaylist, removeSoundboard;
      rewrite !callKenku_world; reflexivity.
Qed.

Lemma requestsOf_app (d : DirectoriesConfig) (config : KenkuRemoteConfig)
    (gate : bool) (es1 es2 : list Event) :
  requestsOf d config gate (es1 ++ es2)
  = requestsOf d config gate es1 ++ requestsOf d config gate es2.
Proof. apply flat_map_app. Qed.

Lemma firstn_S_skipn {A} (n : nat) (l : list A) :
  firstn (S n) l = firstn n l ++ firstn 1 (skipn n l).
Proof.
  revert l; induction n as [|n IH]; intros [|x l]; try reflexivity.
  change (firstn (S (S n)) (x :: l)) with (x :: firstn (S n) l).
  rewrite IH. reflexivity.
Qed.

(** X10.  [n] firings of the timer handle the first [n] events of the queue
    in order and independently: the requests sent are those of each event
    handled alone, one event after the other; the rest of the queue and the
    gate are as they were. *)
Theorem ticks_handle_events_in_order_and_independently
    (d : DirectoriesConfig) (config : KenkuRemoteConfig) (n : nat) (w : World) :
  ticks d config n w
  = {| ACTIVATED := ACTIVATED w;
       queue := skipn n (queue w);
       trace := trace w ++ requestsOf d config (ACTIVATED w) (firstn n (queue w)) |}.
Proof.
  induction n as [|n IH].
  - destruct w. unfold ticks, requestsOf.
    cbn [Nat.iter firstn skipn flat_map ACTIVATED queue trace].
    rewrite app_nil_r. reflexivity.
  - unfold ticks in *. simpl Nat.iter. rewrite IH, handleQueue_local.
    cbn [ACTIVATED queue trace].
    rewrite (skipn_S_tl n (queue w)), (firstn_S_skipn n (queue w)), requestsOf_app.
    now rewrite app_assoc.
Qed.

Lemma requestsOf_one (d : DirectoriesConfig) (config : KenkuRemoteConfig)
    (gate : bool) (q : list Event) :
  (requests (requestsOf d config gate (firstn 1 q)) <= length (firstn 1 q))%nat
  /\ forallb is_put (requestsOf d config gate (firstn 1 q)) = true.
Proof.
  destruct q as [|e q]; [split; [apply Nat.le_refl | reflexivity]|].
  unfold requestsOf, requests. cbn [firstn flat_map]. rewrite app_nil_r.
  destruct (handleQueue_step d config {| ACTIVATED := gate; queue := [e]; trace := [] |}
              e [] eq_refl) as [[_ ->]|(name & body & _ & ->)].
  - split; [simpl; lia | reflexivity].
  - destruct (catch_log_operation (action e) (includes (playlistsDir d) (path e)) config
                body (set_queue [] {| ACTIVATED := gate; queue := [e]; trace := [] |}))
      as (req & -> & Hput & _).
    unfold sent. cbn. rewrite Hput. split; [lia | reflexivity].
Qed.

Lemma requests_app (t1 t2 : list Effect) :
  requests (t1 ++ t2) = (requests t1 + requests t2)%nat.
Proof. unfold requests. now rewrite filter_app, length_app. Qed.

(** The invariant behind X9, from any world. *)
Lemma deliver_fifo (d : DirectoriesConfig) (config : KenkuRemoteConfig)
    (signals : list Signal) (w : World) :
  exists k,
    (k <= length (filter is_tick signals))%nat
    /\ queue (fold_left (deliver d config) signals w)
       = skipn k (queue w ++ enqueued signals)
    /\ (requests (trace (fold_left (deliver d config) signals w))
        <= requests (trace w) + k)%nat.
Proof.
  revert w; induction signals as [|s signals IH]; intros w.
  - exists 0%nat. cbn [fold_left filter length skipn]. unfold enqueued.
    cbn [flat_map]. rewrite app_nil_r. split; [lia | split; [reflexivity | lia]].
  - destruct (IH (deliver d config w s)) as (k & Hk & Hq & Hr).
    change (fold_left (deliver d config) (s :: signals) w)
      with (fold_left (deliver d config) signals (deliver d config w s)).
    rewrite Hq. destruct s as [|a p|].
    + exists k. (split; [|split]); [exact Hk | reflexivity | exact Hr].
    + exists k. (split; [|split]); [exact Hk | | exact Hr].
      cbn [deliver queue set_queue]. now rewrite <- app_assoc.
    + cbn [deliver] in Hr |- *. rewrite handleQueue_local in Hr |- *.
      cbn [queue trace] in Hr |- *. rewrite requests_app in Hr.
      pose proof (proj1 (requestsOf_one d config (ACTIVATED w) (queue w))) as Hone.
      change (enqueued (Tick :: signals)) with (enqueued signals).
      change (filter is_tick (Tick :: signals)) with (Tick :: filter is_tick signals).
      destruct (queue w) as [|e q].
      * exists k. cbn [length firstn] in *.
        (split; [|split]); [lia | reflexivity | lia].
      * exists (S k). cbn [length firstn] in *.
        (split; [|split]); [lia | reflexivity | lia].
Qed.

(** X9.  In every run the queue is first in, first out, and each firing of
    the timer sends at most one request: after any signals, the queue holds
    the events delivered so far, in the order of their delivery, less the
    [k] oldest, for some [k] at most the number of firings; and at most [k]
    requests have been sent. *)
Theorem run_is_fifo_with_at_most_one_request_per_tick
    (backfill : bool) (d : DirectoriesConfig) (config : KenkuRemoteConfig)
    (signals : list Signal) :
  exists k,
    (k <= length (filter is_tick signals))%nat
    /\ queue (run backfill d config signals) = skipn k (enqueued signals)
    /\ (requests (trace (run backfill d config signals)) <= k)%nat.
Proof.
  destruct (deliver_fifo d config signals (watch backfill d config initial))
    as (k & Hk & Hq & Hr).
  exists k. repeat split; assumption.
Qed.

(** A request is determined by what is sent for it. *)
Lemma sent_injective (config : KenkuRemoteConfig) (r r' : Request) :
  sent config r = sent config r' -> r = r'.
Proof.
  destruct r as [p m b], r' as [p' m' b']. unfold sent.
  cbn [req_path req_method req_body]. intros H.
  injection H as Hp Hm Hb. apply app_inv_head in Hp. injection Hp as Hp.
  now subst.
Qed.

(** X11.  The eight operations are told apart by their request: under one
    configuration, two operations of the table send the same request only
    if they are the same operation with the same body.  Every one of them is
    a PUT carrying its body. *)
Theorem operations_send_distinct_requests
    (config : KenkuRemoteConfig) (w : World)
    (a a' : Action) (b b' : bool) (body body' : Body) :
  (catch_log (operation a b config body) w
   = catch_log (operation a' b' config body') w
   <-> a = a' /\ b = b' /\ body = body')
  /\ (exists u, trace (catch_log (operation a b config body) w)
                = trace w ++ [Fetch u put (Some body)]).
Proof.
  split.
  - split; [|now intros (-> & -> & ->)].
    unfold catch_log.
    destruct a, b, a', b'; cbn [operation];
      unfold addTrack, addSound, removeTrack, removeSound, addPlaylist,
        addSoundboard, removePlaylist, removeSoundboard;
      rewrite !callKenku_world; intros H;
      apply (f_equal trace) in H; cbn [trace perform] in H;
      apply app_inv_head in H; apply (f_equal (hd (Delay 0))) in H;
      cbn [hd] in H; apply sent_injective in H;
      first [ apply (f_equal req_path) in H; vm_compute in H; discriminate H
            | apply (f_equal req_body) in H; cbn [req_body] in H;
              injection H as ->; auto ].
  - unfold catch_log.
    destruct a, b; cbn [operation];
      unfold addTrack, addSound, removeTrack, removeSound, addPlaylist,
        addSoundboard, removePlaylist, removeSoundboard;
      rewrite callKenku_world; eexists; reflexivity.
Qed.

(* ================================================================== *)
(** ** The branch of an event *)

Lemma find_first_Some (needle hay : str) (k : nat) :
  find_first needle hay = Some k ->
  exists rest, hay = firstn k hay ++ needle ++ rest.
Proof.
  revert k; induction hay as [|c hay IH]; intros k.
  - cbn [find_first]. destruct (strip_prefix needle []) as [rest|] eqn:E;
      [|discriminate]. intros [= <-]. exists rest.
    now apply strip_prefix_Some in E.
  - cbn [find_first]. destruct (strip_prefix needle (c :: hay)) as [rest|] eqn:E.
    + intros [= <-]. exists rest. now apply strip_prefix_Some in E.
    + destruct (find_first needle hay) as [k'|]; [|discriminate].
      intros [= <-]. destruct (IH k' eq_refl) as (rest & Hrest).
      exists rest. cbn [firstn app]. now rewrite <- Hrest.
Qed.

(** [includes] is the substring test. *)
Lemma includes_iff (needle hay : str) :
  includes needle hay = true <-> exists a b, hay = a ++ needle ++ b.
Proof.
  unfold includes, indexOf. split.
  - destruct (find_first needle hay) as [k|] eqn:E; [|discriminate].
    intros _. destruct (find_first_Some _ _ _ E) as (rest & Hrest).
    now exists (firstn k hay), rest.
  - intros (a & b & ->).
    destruct (find_first_found needle (a ++ needle ++ b) (length a)) as (k & ->).
    + rewrite length_app. lia.
    + rewrite skipn_app, skipn_all, Nat.sub_diag. cbn [skipn app].
      now rewrite strip_prefix_app.
    + destruct (Z.of_nat k =? -1)%Z eqn:E; [|reflexivity].
      apply Z.eqb_eq in E. lia.
Qed.

(** X12.  The branch of an event is chosen by a substring test on the whole
    path, not by the directory the path was accepted under: an event the
    gate lets through is sent to the playlist operations exactly when the
    name of the playlists directory occurs anywhere in its path, in the
    root, in the directory or in a name, and to the soundboard operations
    otherwise.  Every accepted path under the playlists directory is on the
    playlist branch. *)
Theorem branch_is_chosen_by_substring_of_path
    (d : DirectoriesConfig) (config : KenkuRemoteConfig)
    (w : World) (e : Event) (rest : list Event) (name : str) :
  queue w = e :: rest ->
  gated (ACTIVATED w) (classify d e) = Some name ->
  ((exists a b, path e = a ++ playlistsDir d ++ b) ->
   exists body, handleQueue d config w
                = catch_log (operation (action e) true config body) (set_queue rest w))
  /\ (~ (exists a b, path e = a ++ playlistsDir d ++ b) ->
      exists body, handleQueue d config w
                   = catch_log (operation (action e) false config body) (set_queue rest w))
  /\ (forall tail, path e = root d ++ js "/" ++ playlistsDir d ++ tail ->
      exists body, handleQueue d config w
                   = catch_log (operation (action e) true config body) (set_queue rest w)).
Proof.
  intros Hq Hgate.
  destruct (handleQueue_step d config w e rest Hq) as [[Hnone _]|(n & body & _ & ->)];
    [congruence|].
  split; [|split].
  - intros Hsub. apply includes_iff in Hsub. rewrite Hsub. now exists body.
  - intros Hsub. destruct (includes (playlistsDir d) (path e)) eqn:E.
    + apply includes_iff in E. contradiction.
    + now exists body.
  - intros tail Hpath.
    assert (Hsub : includes (playlistsDir d) (path e) = true).
    { apply includes_iff. exists (root d ++ js "/"), tail.
      now rewrite Hpath, <- app_assoc. }
    rewrite Hsub. now exists body.
Qed.

(* ================================================================== *)
(** ** What [callKenku] returns *)

(** X13.  [callKenku] sends one request whatever comes of it, and returns
    only the decoded body of an answer with a status below 400.  The body is
    decoded before the status is read: an answer whose body is not JSON
    throws the decoding error whatever its status, and an unreachable
    service throws before anything is decoded. *)
Theorem callKenku_returns_only_decoded_body_below_400
    (config : KenkuRemoteConfig) (req : Request) (w : World) :
  snd (callKenku config req w) = perform (sent config req) w
  /\ (forall data,
        fst (callKenku config req w) = Returned data
        <-> exists response,
              remote (trace w ++ [sent config req]) = Responded response
              /\ json response = Some data /\ (status response < 400)%Z)
  /\ (forall response,
        remote (trace w ++ [sent config req]) = Responded response ->
        json response = None ->
        fst (callKenku config req w) = Thrown SyntaxError)
  /\ (remote (trace w ++ [sent config req]) = Rejected ->
      fst (callKenku config req w) = Thrown FetchError).
Proof.
  split; [apply callKenku_world|].
  unfold callKenku, bind, fetch, response_json. cbn [trace perform].
  destruct (remote (trace w ++ [sent config req])) as [|response] eqn:Hremote.
  - split; [|split]; [| discriminate | reflexivity].
    intros data. split; [discriminate|]. now intros (r & [=] & _).
  - destruct (json response) as [data|] eqn:Hjson; cbn [ret throw fst].
    + destruct (status response >=? 400)%Z eqn:Hstatus; cbn [ret throw fst];
        (split; [|split]; [| intros r [= <-] Hn; congruence | discriminate]);
        intros data'; split.
      * discriminate.
      * intros (r & [= <-] & _ & Hlt). rewrite Z.geb_leb in Hstatus.
        apply Z.leb_le in Hstatus. lia.
      * intros [= <-]. exists response. rewrite Z.geb_leb in Hstatus.
        apply Z.leb_gt in Hstatus. auto.
      * intros (r & [= <-] & Hj & _). congruence.
    + split; [|split]; [| reflexivity | discriminate].
      intros data. split; [discriminate|]. intros (r & [= <-] & Hj & _). congruence.
Qed.

(* ================================================================== *)
(** ** What [purge] and [driver] do *)

Lemma emits_ret {A} (P : Effect -> Prop) (a : A) : emits P (ret a).
Proof. intros w. now exists []. Qed.

Lemma emits_throw {A} (P : Effect -> Prop) (e : Exn) : emits P (@throw A e).
Proof. intros w. now exists []. Qed.

Lemma emits_bind {A B} (P : Effect -> Prop) (m : M A) (f : A -> M B) :
  emits P m -> (forall a, emits P (f a)) -> emits P (bind m f).
Proof.
  intros Hm Hf w. unfold bind. destruct (Hm w) as (es1 & H1 & Hall1).
  destruct (m w) as [[a|e] w1]; cbn [snd] in H1; subst w1.
  - destruct (Hf a (performs es1 w)) as (es2 & H2 & Hall2).
    exists (es1 ++ es2). rewrite performs_app. split; [exact H2|].
    apply Forall_app. now split.
  - exists es1. now split.
Qed.

Lemma emits_callKenku (P : Effect -> Prop) (config : KenkuRemoteConfig)
    (req : Request) :
  P (sent config req) -> emits P (callKenku config req).
Proof.
  intros HP w. exists [sent config req]. rewrite callKenku_world.
  split; [reflexivity|]. now constructor.
Qed.

Lemma emits_delay (P : Effect -> Prop) (ms : Z) : P (Delay ms) -> emits P (delay ms).
Proof. intros HP w. exists [Delay ms]. split; [reflexivity|]. now constructor. Qed.

Lemma emits_forEach {A} (P : Effect -> Prop) (xs : list A) (body : A -> M unit) :
  (forall x, emits P (body x)) -> emits P (forEach xs body).
Proof.
  intros Hbody. induction xs as [|x xs IH]; cbn [forEach].
  - apply emits_ret.
  - apply emits_bind; auto.
Qed.

Lemma emits_weaken {A} (P Q : Effect -> Prop) (m : M A) :
  (forall e, P e -> Q e) -> emits P m -> emits Q m.
Proof.
  intros HPQ Hm w. destruct (Hm w) as (es & Hes & Hall). exists es.
  split; [exact Hes|]. eapply Forall_impl; eauto.
Qed.

(** The removals of [purge], after the listings. *)
Lemma emits_removals (config : KenkuRemoteConfig) (pl sb : list str) :
  emits (purgeEffect config)
    ((match pl with
      | [] => ret tt
      | _ :: _ =>
          forEach pl (fun playlist =>
            removePlaylist config (UrlBody playlist) ;;; delay 500)
      end) ;;;
     (match sb with
      | [] => ret tt
      | _ :: _ =>
          forEach sb (fun soundboard =>
            removeSoundboard config (UrlBody soundboard) ;;; delay 500)
      end)).
Proof.
  apply emits_bind.
  - destruct pl; [apply emits_ret|].
    apply emits_forEach. intros u. unfold removePlaylist.
    apply emits_bind; [| intros _; apply emits_delay; now left].
    apply emits_callKenku. right; right; right; left. now exists u.
  - intros _. destruct sb; [apply emits_ret|].
    apply emits_forEach. intros u. unfold removeSoundboard.
    apply emits_bind; [| intros _; apply emits_delay; now left].
    apply emits_callKenku. right; right; right; right. now exists u.
Qed.

Lemma emits_purge (config : KenkuRemoteConfig) :
  emits (purgeEffect config) (purge config).
Proof.
  unfold purge, listPlaylists, listSoundboards.
  apply emits_bind; [apply emits_callKenku; right; now left | intros pl].
  apply emits_bind; [apply emits_callKenku; right; right; now left | intros sb].
  apply emits_removals.
Qed.

(** X14.  [purge] only lists, removes collections and waits: it never adds
    anything, and it leaves the gate and the queue alone.  Both listings are
    awaited before the first removal: when either of them fails, [purge]
    fails with that error and nothing has been removed. *)
Theorem purge_only_removes_and_only_after_both_listings
    (config : KenkuRemoteConfig) (w : World) :
  (exists es, snd (purge config w) = performs es w
              /\ Forall (purgeEffect config) es)
  /\ (forall e,
        fst (listPlaylists config w) = Thrown e ->
        purge config w = (Thrown e, performs [sent config listPlaylistsRequest] w))
  /\ (forall pdata e,
        fst (listPlaylists config w) = Returned pdata ->
        fst (listSoundboards config (perform (sent config listPlaylistsRequest) w))
        = Thrown e ->
        purge config w
        = (Thrown e, performs [sent config listPlaylistsRequest;
                               sent config listSoundboardsRequest] w)).
Proof.
  split; [apply emits_purge|]. split.
  - intros e He. unfold purge, bind.
    pose proof (callKenku_world config listPlaylistsRequest w) as Hw.
    change (callKenku config listPlaylistsRequest) with (listPlaylists config) in Hw.
    destruct (listPlaylists config w) as [[a|e'] w1]; cbn [fst snd] in *;
      [discriminate|]. now injection He as ->; subst w1.
  - intros pdata e Hp Hs. unfold purge. unfold bind at 1.
    pose proof (callKenku_world config listPlaylistsRequest w) as Hw.
    change (callKenku config listPlaylistsRequest) with (listPlaylists config) in Hw.
    destruct (listPlaylists config w) as [[a|e'] w1]; cbn [fst snd] in *;
      [|discriminate]. subst w1. unfold bind at 1.
    pose proof (callKenku_world config listSoundboardsRequest
                  (perform (sent config listPlaylistsRequest) w)) as Hw.
    change (callKenku config listSoundboardsRequest) with (listSoundboards config) in Hw.
    destruct (listSoundboards config (perform (sent config listPlaylistsRequest) w))
      as [[b|e'] w2]; cbn [fst snd] in *; [discriminate|].
    now injection Hs as ->; subst w2.
Qed.

(** A computation that begins with a request changes the world. *)
Lemma request_first_changes_world {B} (P : Effect -> Prop)
    (config : KenkuRemoteConfig) (req : Request) (f : Json -> M B) (w : World) :
  (forall a, emits P (f a)) ->
  snd (bind (callKenku config req) f w) <> w.
Proof.
  intros Hf Heq. apply (f_equal (fun w => length (trace w))) in Heq.
  unfold bind in Heq.
  pose proof (callKenku_world config req w) as Hw.
  destruct (callKenku config req w) as [[a|e] w1]; cbn [snd] in Hw; subst w1.
  - destruct (Hf a (perform (sent config req) w)) as (es & Hes & _).
    rewrite Hes, performs_world in Heq. cbn [trace perform] in Heq.
    rewrite !length_app in Heq. cbn [length] in Heq. lia.
  - cbn [snd trace perform] in Heq. rewrite length_app in Heq.
    cbn [length] in Heq. lia.
Qed.

Lemma In_actions (a : str) :
  existsb (str_eqb a) actions = true ->
  a = js "purge" \/ a = js "backfill" \/ a = js "watch" \/ a = js "view".
Proof.
  unfold actions. cbn [existsb]. rewrite !orb_true_iff, !str_eqb_eq. intuition discriminate.
Qed.

(** The action passes the test of [driver] exactly when it is one of the
    four strings. *)
Lemma action_accepted (v : Value) :
  negb (truthy v) || negb (existsb (sameValue v) actions) = false
  <-> exists a, v = VString a /\ In a actions.
Proof.
  split.
  - intros H. apply orb_false_iff in H as [_ H]. apply negb_false_iff in H.
    destruct v as [|a|t shown]; try discriminate H. exists a. split; [reflexivity|].
    cbn [sameValue] in H. apply In_actions in H. unfold actions. cbn [In].
    intuition auto.
  - intros (a & -> & Hin). unfold actions in Hin. cbn [In] in Hin.
    destruct Hin as [<- | [<- | [<- | [<- | []]]]]; reflexivity.
Qed.

Lemma watch_changes_world (backfill : bool) (d : DirectoriesConfig)
    (config : KenkuRemoteConfig) (w : World) :
  watch backfill d config w <> w.
Proof.
  intros H. apply (f_equal (fun w => length (trace w))) in H.
  unfold watch, perform, set_ACTIVATED in H. cbn [trace] in H.
  rewrite !length_app in H. cbn [length] in H. lia.
Qed.

Lemma driver_watch_fails_early (backfill : bool) (argv : Argv) (w : World) (e : Exn) :
  driver_watch backfill argv w = (Thrown e, w) -> truthy (argv_rootDir argv) = false.
Proof.
  unfold driver_watch. destruct (truthy (argv_rootDir argv)); [|reflexivity].
  cbn [negb]. intros H. exfalso.
  apply (watch_changes_world backfill (driver_directories argv)
           (driver_kenkuConfig argv) w).
  destruct (argv_rootDir argv) as [|r|t shown];
    try destruct (subscribe _); now injection H.
Qed.

(** X15.  [driver] fails before doing anything exactly when the action is
    missing or not one of the four strings, or when a watching mode has a
    root directory that is missing or falsy (the empty string, the number 0
    of [--rootDir 0], [false]); the error names the action, or the missing
    root.  In every other case [driver] has sent a request or started the
    watcher. *)
Theorem driver_fails_before_any_effect (argv : Argv) (w : World) :
  ((forall a, argv_action argv = VString a -> ~ In a actions) ->
   driver argv w
   = (Thrown (Error (js "Invalid action: " ++ toString (argv_action argv))), w))
  /\ ((argv_action argv = VString (js "backfill")
       \/ argv_action argv = VString (js "watch")) ->
      truthy (argv_rootDir argv) = false ->
      driver argv w = (Thrown (Error (js "Missing rootDir!")), w))
  /\ ((exists e, driver argv w = (Thrown e, w)) ->
      (forall a, argv_action argv = VString a -> ~ In a actions)
      \/ ((argv_action argv = VString (js "backfill")
           \/ argv_action argv = VString (js "watch"))
          /\ truthy (argv_rootDir argv) = false)).
Proof.
  split; [|split].
  - intros Hbad. unfold driver.
    destruct (negb (truthy (argv_action argv))
              || negb (existsb (sameValue (argv_action argv)) actions)) eqn:E;
      [reflexivity|].
    apply action_accepted in E as (a & Ha & Hin). exfalso. exact (Hbad a Ha Hin).
  - intros Hmode Hroot. unfold driver, driver_watch.
    destruct Hmode as [-> | ->]; cbn [truthy sameValue negb orb];
      rewrite Hroot; reflexivity.
  - intros (e & He). unfold driver in He.
    destruct (negb (truthy (argv_action argv))
              || negb (existsb (sameValue (argv_action argv)) actions)) eqn:E.
    + left. intros a Ha Hin.
      assert (Hok : negb (truthy (argv_action argv))
                    || negb (existsb (sameValue (argv_action argv)) actions) = false).
      { apply action_accepted. now exists a. }
      congruence.
    + apply action_accepted in E as (a & Ha & Hin). rewrite Ha in He.
      unfold actions in Hin. cbn [In] in Hin.
      destruct Hin as [<- | [<- | [<- | [<- | []]]]].
      * exfalso. change (purge (driver_kenkuConfig argv) w = (Thrown e, w)) in He.
        apply (f_equal snd) in He. cbn [snd] in He. revert He.
        unfold purge, listPlaylists, listSoundboards.
        apply (request_first_changes_world (purgeEffect (driver_kenkuConfig argv))).
        intros pl. apply emits_bind; [|intros sb; apply emits_removals].
        apply emits_callKenku. right; right; now left.
      * right. split; [left; exact Ha|].
        change (driver_watch true argv w = (Thrown e, w)) in He.
        now apply (driver_watch_fails_early true argv w e).
      * right. split; [right; exact Ha|].
        change (driver_watch false argv w = (Thrown e, w)) in He.
        now apply (driver_watch_fails_early false argv w e).
      * exfalso.
        change ((playlists <- listPlaylists (driver_kenkuConfig argv) ;;
                 soundboards <- listSoundboards (driver_kenkuConfig argv) ;;
                 ret tt) w = (Thrown e, w)) in He.
        apply (f_equal snd) in He. cbn [snd] in He. revert He.
        unfold listPlaylists, listSoundboards.
        apply (request_first_changes_world (fun _ => True)).
        intros pl. apply emits_bind; [|intros sb; apply emits_ret].
        now apply emits_callKenku.
Qed.

(** X16.  The modes [view] and [purge] never add anything and never start
    the watcher: all [driver] does is list, remove and wait, against the
    host and the port of the command line; the gate and the queue are as
    they were.  [view] only reads: it sends the two listing requests, or the
    first one alone when it fails, and both are GET. *)
Theorem driver_view_and_purge_never_add (argv : Argv) (w : World) (a : str) :
  argv_action argv = VString a ->
  a = js "view" \/ a = js "purge" ->
  exists es,
    snd (driver argv w) = performs es w
    /\ Forall (purgeEffect (driver_kenkuConfig argv)) es
    /\ (a = js "view" ->
        (es = [sent (driver_kenkuConfig argv) listPlaylistsRequest]
         /\ (exists e, fst (listPlaylists (driver_kenkuConfig argv) w) = Thrown e))
        \/ es = [sent (driver_kenkuConfig argv) listPlaylistsRequest;
                 sent (driver_kenkuConfig argv) listSoundboardsRequest]).
Proof.
  intros Ha [-> | ->]; unfold driver; rewrite Ha.
  - change (negb (truthy (VString (js "view")))
            || negb (existsb (sameValue (VString (js "view"))) actions)) with false.
    change (sameValue (VString (js "view")) (js "view")) with true. cbv iota.
    unfold bind at 1.
    pose proof (callKenku_world (driver_kenkuConfig argv) listPlaylistsRequest w) as Hw.
    change (callKenku (driver_kenkuConfig argv) listPlaylistsRequest)
      with (listPlaylists (driver_kenkuConfig argv)) in Hw.
    destruct (listPlaylists (driver_kenkuConfig argv) w) as [[pl|e] w1];
      cbn [snd] in Hw; subst w1.
    + exists [sent (driver_kenkuConfig argv) listPlaylistsRequest;
              sent (driver_kenkuConfig argv) listSoundboardsRequest].
      split; [|split].
      * unfold bind.
        pose proof (callKenku_world (driver_kenkuConfig argv) listSoundboardsRequest
                      (perform (sent (driver_kenkuConfig argv) listPlaylistsRequest) w))
          as Hw.
        change (callKenku (driver_kenkuConfig argv) listSoundboardsRequest)
          with (listSoundboards (driver_kenkuConfig argv)) in Hw.
        destruct (listSoundboards (driver_kenkuConfig argv)
                    (perform (sent (driver_kenkuConfig argv) listPlaylistsRequest) w))
          as [[sb|e] w2]; cbn [snd] in Hw |- *; now subst w2.
      * apply Forall_cons; [right; now left|].
        apply Forall_cons; [right; right; now left | apply Forall_nil].
      * intros _. now right.
    + exists [sent (driver_kenkuConfig argv) listPlaylistsRequest].
      split; [reflexivity|]. split.
      * apply Forall_cons; [right; now left | apply Forall_nil].
      * intros _. left. split; [reflexivity|]. now exists e.
  - change (negb (truthy (VString (js "purge")))
            || negb (existsb (sameValue (VString (js "purge"))) actions)) with false.
    change (sameValue (VString (js "purge")) (js "view")) with false.
    change (sameValue (VString (js "purge")) (js "purge")) with true. cbv iota.
    destruct (emits_purge (driver_kenkuConfig argv) w) as (es & Hes & Hall).
    exists es. split; [exact Hes|]. split; [exact Hall|]. discriminate.
Qed.


(* ================================================================== *)
(** ** Additions and removals *)

(** X18.  A removal names what the addition named.  Under a configuration
    whose names hold no character of the pattern syntax and with the gate open, the
    events [add] and [unlink] of one valid item path send, on the same
    branch, an addition and a removal with the same item url, which is
    [file://] followed by [encodeURI] of the path, and the same collection
    url; the events [addDir] and [unlinkDir] of one valid directory path
    send an addition and a removal of the url that is the path itself.  A
    sound is added looping, at volume 100, fading 500 in and out. *)
Theorem removal_names_what_addition_named
    (d : DirectoriesConfig) (config : KenkuRemoteConfig) (p name : str) :
  plain_config d = true ->
  (validateFile d p = Some name ->
   let title := removeFileType name in
   let u := js "file://" ++ encodeURI p in
   let c := cleanUrl (replace name [] p) in
   requestsOf d config true
     [{| action := add; path := p |}; {| action := unlink; path := p |}]
   = if includes (playlistsDir d) p then
       [sent config {| req_path := js "playlist/addTrack"; req_method := put;
                       req_body := Some (TrackBody title u c) |};
        sent config {| req_path := js "playlist/removeTrack"; req_method := put;
                       req_body := Some (RemoveTrackBody u c) |}]
     else
       [sent config {| req_path := js "soundboard/addSound"; req_method := put;
                       req_body := Some (SoundBody c title u true 100 500 500) |};
        sent config {| req_path := js "soundboard/removeSound"; req_method := put;
                       req_body := Some (RemoveSoundBody u c) |}])
  /\ (validateDirectory d p = Some name ->
      requestsOf d config true
        [{| action := addDir; path := p |}; {| action := unlinkDir; path := p |}]
      = if includes (playlistsDir d) p then
          [sent config {| req_path := js "playlist/add"; req_method := put;
                          req_body := Some (CollectionBody name p) |};
           sent config {| req_path := js "playlist/remove"; req_method := put;
                          req_body := Some (UrlBody p) |}]
        else
          [sent config {| req_path := js "soundboard/add"; req_method := put;
                          req_body := Some (CollectionBody name p) |};
           sent config {| req_path := js "soundboard/remove"; req_method := put;
                          req_body := Some (UrlBody p) |}]).
Proof.
  intros _. split; intros H; cbv zeta; unfold requestsOf; cbn [flat_map].
  - rewrite (handleQueue_add d config
               {| ACTIVATED := true; queue := [{| action := add; path := p |}];
                  trace := [] |} p name [] eq_refl eq_refl H).
    rewrite (handleQueue_unlink d config
               {| ACTIVATED := true; queue := [{| action := unlink; path := p |}];
                  trace := [] |} p name [] eq_refl eq_refl H).
    rewrite (cleanUrl_valid_file d p name H).
    destruct (includes (playlistsDir d) p); reflexivity.
  - rewrite (handleQueue_addDir d config
               {| ACTIVATED := true; queue := [{| action := addDir; path := p |}];
                  trace := [] |} p name [] eq_refl eq_refl H).
    rewrite (handleQueue_unlinkDir d config
               {| ACTIVATED := true; queue := [{| action := unlinkDir; path := p |}];
                  trace := [] |} p name [] eq_refl eq_refl H).
    rewrite (cleanUrl_valid_directory d p name H).
    destruct (includes (playlistsDir d) p); reflexivity.
Qed.

End Kenku.

(* ================================================================== *)
(** ** Concrete runs *)

(* ------------------------------------------------------------------ *)
(** *** The gate and the queue *)

(** At a run: two events dequeued behind a closed gate send nothing, and a
    track enqueued before [ready] is sent by the first tick after it. *)
Lemma closed_gate_run :
  ACTIVATED (closedWorld [{| action := add; path := song |};
                          {| action := addDir; path := js "/r/Playlists/Jazz" |}]) = false
  /\ classify underR {| action := add; path := song |} = Some (js "Song 1.mp3")
  /\ trace (ticks Listing show_listing unreachable underR DEFAULT_KENKU_CONFIG 2
              (closedWorld [{| action := add; path := song |};
                            {| action := addDir; path := js "/r/Playlists/Jazz" |}]))
     = []
  /\ exists call,
       is_fetch call = true
       /\ trace (run Listing show_listing unreachable false underR DEFAULT_KENKU_CONFIG
                   [enqueue {| action := add; path := song |}; Ready; Tick])
          = trace (run Listing show_listing unreachable false underR DEFAULT_KENKU_CONFIG
                     [enqueue {| action := add; path := song |}; Ready]) ++ [call].
Proof.
  pose proof (closed_gate_discards_and_gate_is_read_at_dequeue
                Listing show_listing unreachable underR DEFAULT_KENKU_CONFIG)
    as (Hclosed & _ & Hopen).
  split; [reflexivity|]. split; [reflexivity|]. split.
  - apply (Hclosed (closedWorld [{| action := add; path := song |};
                                 {| action := addDir; path := js "/r/Playlists/Jazz" |}])
             2%nat eq_refl).
  - apply (Hopen {| action := add; path := song |} (js "Song 1.mp3") eq_refl eq_refl).
Defined.

(** C1.  A watch-only run over a root that already holds the track of the
    example: the watcher reports the track during its initial scan, while
    the gate is closed, then [ready], and the timer fires.  The event is
    dequeued after [ready] and its request is sent; the claim has it
    discarded. *)
Lemma event_enqueued_before_ready_is_sent_after_it :
  ACTIVATED (run Listing show_listing unreachable false underR DEFAULT_KENKU_CONFIG
               [Changed add song]) = false
  /\ queue (run Listing show_listing unreachable false underR DEFAULT_KENKU_CONFIG
              [Changed add song; Ready]) = [{| action := add; path := song |}]
  /\ trace (run Listing show_listing unreachable false underR DEFAULT_KENKU_CONFIG
           [Changed add song; Ready; Tick])
  = [SetInterval 500; Watch (js "/r");
     Fetch (js "http://127.0.0.1:3333/v1/playlist/addTrack") put
       (Some (TrackBody (js "Song 1")
                (js "file:///r/Playlists/Jazz/Song%201.mp3")
                (js "/r/Playlists/Jazz")))]
  /\ trace (run Listing show_listing unreachable false underR DEFAULT_KENKU_CONFIG
              [Changed add song; Ready; Tick])
     <> trace (run Listing show_listing unreachable false underR DEFAULT_KENKU_CONFIG
                 [Changed add song; Ready]).
Proof.
  split; [reflexivity|]. split; [reflexivity|].
  split; [reflexivity | vm_compute; discriminate].
Qed.

(** C2, under configured directory names: a track under [Music] starts
    [addTrack], though its path does not contain [Playlists]. *)
Lemma song_dispatches_one_operation :
  plain_config underMusic = true
  /\ classify underMusic {| action := add; path := tune |} = Some (js "Song 1.mp3")
  /\ includes (js "Playlists") tune = false
  /\ (exists body,
        handleQueue Listing show_listing unreachable underMusic DEFAULT_KENKU_CONFIG
          (openWorld [{| action := add; path := tune |}])
        = catch_log (addTrack Listing show_listing unreachable DEFAULT_KENKU_CONFIG body)
            (set_queue [] (openWorld [{| action := add; path := tune |}])))
  /\ (exists call,
        is_fetch call = true
        /\ trace (handleQueue Listing show_listing unreachable underMusic
                    DEFAULT_KENKU_CONFIG
                    (openWorld [{| action := add; path := tune |}]))
           = trace (openWorld [{| action := add; path := tune |}]) ++ [call]).
Proof.
  split; [reflexivity|]. split; [reflexivity|]. split; [reflexivity|].
  destruct (classified_event_dispatches_one_operation
              Listing show_listing unreachable underMusic DEFAULT_KENKU_CONFIG
              (openWorld [{| action := add; path := tune |}])
              {| action := add; path := tune |} [] (js "Song 1.mp3")
              eq_refl eq_refl eq_refl eq_refl) as (Hop & Hcall & _).
  split; [exact Hop | exact Hcall].
Defined.

(** C9, at a run: a watch-only run whose gate [ready] has opened keeps it
    open through later events and ticks. *)
Lemma gate_stays_open_after_ready :
  ACTIVATED (run Listing show_listing unreachable false underR DEFAULT_KENKU_CONFIG
               [Changed add song; Ready]) = true
  /\ ACTIVATED (run Listing show_listing unreachable false underR DEFAULT_KENKU_CONFIG
                  ([Changed add song; Ready] ++ [Tick; Changed unlink song; Ready; Tick]))
     = true.
Proof.
  split; [reflexivity|].
  apply (proj2 (proj2 (proj2 (gate_follows_mode_and_ready
                                Listing show_listing unreachable underR
                                DEFAULT_KENKU_CONFIG)))
           false [Changed add song; Ready] [Tick; Changed unlink song; Ready; Tick]
           eq_refl).
Defined.

(* ------------------------------------------------------------------ *)
(** *** Classification, titles and urls *)

(** C3, at a path outside the root: both validators reject it and the worker
    drops it. *)
Lemma path_outside_root_is_dropped :
  plain_config underR = true
  /\ ~ directoryGrammar underR (js "/tmp/notes.txt")
  /\ ~ fileGrammar itemName underR (js "/tmp/notes.txt")
  /\ existsb isStrayMark (lastSegment (js "/tmp/notes.txt")) = false
  /\ validateDirectory underR (js "/tmp/notes.txt") = None
  /\ validateFile underR (js "/tmp/notes.txt") = None
  /\ trace (handleQueue Listing show_listing unreachable underR DEFAULT_KENKU_CONFIG
              (openWorld [{| action := add; path := js "/tmp/notes.txt" |}]))
     = [].
Proof.
  assert (Hd : ~ directoryGrammar underR (js "/tmp/notes.txt")).
  { intros (sub & name & H & _). cbn in H. discriminate H. }
  assert (Hf : ~ fileGrammar itemName underR (js "/tmp/notes.txt")).
  { intros (sub & coll & name & H & _). cbn in H. discriminate H. }
  split; [reflexivity|]. split; [exact Hd|]. split; [exact Hf|]. split; [reflexivity|].
  pose proof (path_outside_the_grammar_is_not_applicable
                Listing show_listing unreachable underR DEFAULT_KENKU_CONFIG
                (js "/tmp/notes.txt") eq_refl Hd Hf eq_refl) as (H1 & H2 & H3).
  split; [exact H1|]. split; [exact H2|].
  apply (H3 add (openWorld [{| action := add; path := js "/tmp/notes.txt" |}]) []
            eq_refl).
Defined.

(** The claim of C3 fails: the name [Rock & Roll, Vol. 2.mp3] has two dots,
    an ampersand and a comma, so the path matches neither grammar, whether
    an item name may hold one dot or any number of them; it is classified
    and sent as a track all the same. *)
Lemma path_outside_the_grammar_is_classified :
  ~ directoryGrammar underR (js "/r/Playlists/Jazz/Rock & Roll, Vol. 2.mp3")
  /\ ~ fileGrammar itemNameOneDot underR (js "/r/Playlists/Jazz/Rock & Roll, Vol. 2.mp3")
  /\ ~ fileGrammar itemName underR (js "/r/Playlists/Jazz/Rock & Roll, Vol. 2.mp3")
  /\ validateFile underR (js "/r/Playlists/Jazz/Rock & Roll, Vol. 2.mp3")
     = Some (js "Rock & Roll, Vol. 2.mp3")
  /\ trace (handleQueue Listing show_listing unreachable underR DEFAULT_KENKU_CONFIG
              (openWorld [{| action := add;
                             path := js "/r/Playlists/Jazz/Rock & Roll, Vol. 2.mp3" |}]))
     = [Fetch (js "http://127.0.0.1:3333/v1/playlist/addTrack") put
          (Some (TrackBody (js "Rock & Roll, Vol")
                   (js "file:///r/Playlists/Jazz/Rock%20&%20Roll,%20Vol.%202.mp3")
                   (js "/r/Playlists/Jazz")))].
Proof.
  assert (Hany : ~ fileGrammar itemName underR
                     (js "/r/Playlists/Jazz/Rock & Roll, Vol. 2.mp3")).
  { intros (sub & coll & name & H & [-> | ->] & [_ Hcoll] & [_ Hname]); cbn in H.
    - injection H as H.
      destruct (split_at_first_slash (js "Jazz") coll (js "Rock & Roll, Vol. 2.mp3") name)
        as [_ <-]; [reflexivity | | exact H |].
      + revert Hcoll. apply forallb_impl, folderChar_no_slash.
      + vm_compute in Hname. discriminate.
    - discriminate H. }
  split; [|split; [|split; [exact Hany | split; reflexivity]]].
  - intros (sub & name & H & [-> | ->] & _ & Hall); cbn in H.
    + injection H as <-. vm_compute in Hall. discriminate.
    + discriminate H.
  - intros (sub & coll & name & H & Hsub & Hcoll & [Hname _]). apply Hany.
    now exists sub, coll, name.
Qed.

(** Two dots alone: the path is outside the grammar when an item name may
    hold one dot, and it is classified. *)
Example item_name_with_two_dots_is_classified :
  ~ fileGrammar itemNameOneDot underR (js "/r/Playlists/Jazz/01. Intro.mp3")
  /\ validateFile underR (js "/r/Playlists/Jazz/01. Intro.mp3")
     = Some (js "01. Intro.mp3").
Proof.
  split; [|reflexivity].
  intros (sub & coll & name & H & [-> | ->] & [_ Hcoll] & [_ Hdots]); cbn in H.
  - injection H as H.
    destruct (split_at_first_slash (js "Jazz") coll (js "01. Intro.mp3") name)
      as [_ <-]; [reflexivity | | exact H |].
    + revert Hcoll. apply forallb_impl, folderChar_no_slash.
    + vm_compute in Hdots. lia.
  - discriminate H.
Qed.

(** The marks between the space and the dot are accepted in item names,
    because [ -\.] in [fileRegex] is a range. *)
Example stray_mark_in_item_name_is_accepted :
  validateFile underR (js "/r/Playlists/Jazz/rock+roll.mp3") = Some (js "rock+roll.mp3")
  /\ validateDirectory underR (js "/r/Playlists/rock+roll") = None.
Proof. split; reflexivity. Qed.

(** C4, at the track of the example. *)
Lemma song_title :
  plain_config underR = true
  /\ validateFile underR song = Some (js "Song 1.mp3")
  /\ existsb isDot (js "Song 1.mp3") && startsWithWhiteSpace (js "Song 1.mp3") = false
  /\ lastSegment song = js "Song 1.mp3"
  /\ removeFileType (js "Song 1.mp3") = js "Song 1".
Proof.
  split; [reflexivity|]. split; [reflexivity|]. split; [reflexivity|].
  apply (title_is_trimmed_name_before_first_dot underR song (js "Song 1.mp3")
           eq_refl eq_refl eq_refl).
Defined.

(** The claim of C4 fails for a name that ends with a space: the title is
    trimmed, the final segment with its extension removed is not. *)
Lemma title_is_trimmed :
  validateFile underR (js "/r/Playlists/Jazz/Intro ") = Some (js "Intro ")
  /\ lastSegment (js "/r/Playlists/Jazz/Intro ") = js "Intro "
  /\ statedTitle (js "Intro ") = js "Intro "
  /\ removeFileType (js "Intro ") = js "Intro"
  /\ removeFileType (js "Intro ") <> statedTitle (js "Intro ").
Proof. repeat split; try reflexivity. vm_compute. discriminate. Qed.

(** A name that begins with a space and has a dot: the cut is made at the
    position of the dot in the untrimmed name. *)
Example title_of_name_with_leading_space :
  removeFileType (js " a.mp3") = js "a."
  /\ removeFileType (js " .mp3") = js ".".
Proof. split; reflexivity. Qed.

(** The claim of C5 fails on the file url: the slashes of the path are not
    escaped. *)
Lemma file_url_keeps_slashes :
  handleQueue Listing show_listing unreachable underR DEFAULT_KENKU_CONFIG
    (openWorld [{| action := add; path := song |}])
  = perform
      (sent DEFAULT_KENKU_CONFIG
         {| req_path := js "playlist/addTrack"; req_method := put;
            req_body := Some (TrackBody (js "Song 1")
                                (cleanUrl (prepareFilePath song))
                                (js "/r/Playlists/Jazz")) |})
      (openWorld [])
  /\ cleanUrl (prepareFilePath song) = js "file:///r/Playlists/Jazz/Song%201.mp3"
  /\ cleanUrl (prepareFilePath song)
     <> js "file://%2Fr%2FPlaylists%2FJazz%2FSong%201.mp3".
Proof. repeat split; try reflexivity. vm_compute. discriminate. Qed.

(** C6, at a url with one final slash. *)
Lemma cleanUrl_twice_on_one_slash :
  (~ exists y, js "/r/Playlists/Jazz/" = y ++ js "//")
  /\ cleanUrl (cleanUrl (js "/r/Playlists/Jazz/")) = cleanUrl (js "/r/Playlists/Jazz/").
Proof.
  assert (H : ~ exists y, js "/r/Playlists/Jazz/" = y ++ js "//").
  { intros [y Hy]. apply (f_equal (@rev ascii)) in Hy.
    rewrite rev_app_distr in Hy. cbn in Hy. discriminate Hy. }
  split; [exact H|].
  apply (proj2 (cleanUrl_strips_one_slash_idempotent_unless_two (js "/r/Playlists/Jazz/"))).
  exact H.
Defined.

(** The claim of C6 fails on idempotence: two final slashes need two
    applications. *)
Lemma cleanUrl_not_idempotent :
  cleanUrl (js "/r/Playlists/Jazz//") = js "/r/Playlists/Jazz/"
  /\ cleanUrl (cleanUrl (js "/r/Playlists/Jazz//")) = js "/r/Playlists/Jazz"
  /\ cleanUrl (cleanUrl (js "/r/Playlists/Jazz//")) <> cleanUrl (js "/r/Playlists/Jazz//").
Proof. repeat split; try reflexivity. vm_compute. discriminate. Qed.

(** C10, at the track of the example: its name occurs once in the path and
    the playlist url is the parent directory. *)
Lemma song_collection_url :
  plain_config underR = true
  /\ validateFile underR song = Some (js "Song 1.mp3")
  /\ occurrences (js "Song 1.mp3") song = 1%nat
  /\ exists parent,
       song = parent ++ js "/" ++ js "Song 1.mp3"
       /\ cleanUrl (replace (js "Song 1.mp3") [] song) = parent.
Proof.
  split; [reflexivity|]. split; [reflexivity|]. split; [reflexivity|].
  destruct (collection_url_is_path_without_first_occurrence_of_item_name
              Listing show_listing unreachable underR DEFAULT_KENKU_CONFIG
              (openWorld [{| action := add; path := song |}])
              add song (js "Song 1.mp3") []
              eq_refl (or_introl eq_refl) eq_refl eq_refl eq_refl)
    as (_ & (parent & Hp & Hparent) & _).
  exists parent. split; [exact Hp | exact (Hparent eq_refl)].
Defined.

(* ------------------------------------------------------------------ *)
(** *** The remote client and purge *)

(** C8, at a refused removal: status 500 with a JSON body is thrown as an
    error carrying the serialised body. *)
Lemma refused_removal_throws :
  refusing (trace initial
            ++ [sent DEFAULT_KENKU_CONFIG (removePlaylistRequest (js "/r/Playlists/Jazz"))])
  = Responded {| status := 500; json := Some [] |}
  /\ json {| status := 500; json := Some ([] : Listing) |} = Some []
  /\ fst (callKenku Listing show_listing refusing DEFAULT_KENKU_CONFIG
            (removePlaylistRequest (js "/r/Playlists/Jazz")) initial)
     = Thrown (Error (show_listing [])).
Proof.
  split; [reflexivity|]. split; [reflexivity|].
  apply (proj1 (callKenku_throws_iff_status_at_least_400
                  Listing show_listing refusing DEFAULT_KENKU_CONFIG
                  (removePlaylistRequest (js "/r/Playlists/Jazz")) initial
                  {| status := 500; json := Some [] |} [] eq_refl eq_refl)).
  simpl. discriminate.
Defined.

(** C7, at a service with a state, listing two playlists and one soundboard:
    every removal is accepted when it is sent, though the same removal sent
    again is refused, and the listing is empty afterwards.  And at a service
    that refuses every removal: the run ends at the first one. *)
Lemma purge_of_a_healthy_service :
  answers Listing live
    (trace initial ++ [sent DEFAULT_KENKU_CONFIG listPlaylistsRequest]) remotePlaylists
  /\ answers Listing live
       (trace initial ++ [sent DEFAULT_KENKU_CONFIG listPlaylistsRequest;
                          sent DEFAULT_KENKU_CONFIG listSoundboardsRequest])
       remoteSoundboards
  /\ fst (purge Listing show_listing live (fun l => l) (fun l => l)
            DEFAULT_KENKU_CONFIG initial) = Returned tt
  /\ trace (snd (purge Listing show_listing live (fun l => l) (fun l => l)
                   DEFAULT_KENKU_CONFIG initial))
     = [sent DEFAULT_KENKU_CONFIG listPlaylistsRequest;
        sent DEFAULT_KENKU_CONFIG listSoundboardsRequest;
        sent DEFAULT_KENKU_CONFIG (removePlaylistRequest (js "/r/Playlists/Jazz"));
        Delay 500;
        sent DEFAULT_KENKU_CONFIG (removePlaylistRequest (js "/r/Playlists/Rock"));
        Delay 500;
        sent DEFAULT_KENKU_CONFIG (removeSoundboardRequest (js "/r/Soundboards/Combat"));
        Delay 500]
  /\ live (trace (snd (purge Listing show_listing live (fun l => l) (fun l => l)
                         DEFAULT_KENKU_CONFIG initial))
           ++ [sent DEFAULT_KENKU_CONFIG listPlaylistsRequest])
     = Responded {| status := 200; json := Some [] |}
  /\ live (trace (snd (purge Listing show_listing live (fun l => l) (fun l => l)
                         DEFAULT_KENKU_CONFIG initial))
           ++ [sent DEFAULT_KENKU_CONFIG (removePlaylistRequest (js "/r/Playlists/Jazz"))])
     = Responded {| status := 404; json := Some [] |}
  /\ fst (purge Listing show_listing refusing (fun l => l) (fun l => l)
            DEFAULT_KENKU_CONFIG initial) = Thrown (Error (show_listing []))
  /\ trace (snd (purge Listing show_listing refusing (fun l => l) (fun l => l)
                   DEFAULT_KENKU_CONFIG initial))
     = [sent DEFAULT_KENKU_CONFIG listPlaylistsRequest;
        sent DEFAULT_KENKU_CONFIG listSoundboardsRequest;
        sent DEFAULT_KENKU_CONFIG (removePlaylistRequest (js "/r/Playlists/Jazz"))].
Proof.
  assert (Hlp : answers Listing live
                  (trace initial ++ [sent DEFAULT_KENKU_CONFIG listPlaylistsRequest])
                  remotePlaylists).
  { eexists. split; [reflexivity|]. split; reflexivity. }
  assert (Hls : answers Listing live
                  (trace initial ++ [sent DEFAULT_KENKU_CONFIG listPlaylistsRequest;
                                     sent DEFAULT_KENKU_CONFIG listSoundboardsRequest])
                  remoteSoundboards).
  { eexists. split; [reflexivity|]. split; reflexivity. }
  split; [exact Hlp|]. split; [exact Hls|].
  pose proof (purge_removes_every_listed_collection_when_removals_succeed
                Listing show_listing live (fun l => l) (fun l => l)
                DEFAULT_KENKU_CONFIG initial remotePlaylists remoteSoundboards
                Hlp Hls) as Hlive.
  cbv zeta in Hlive. destruct Hlive as (Hall & _).
  destruct Hall as (Hret & Htrace).
  { intros i Hi. destruct i as [|[|i]]; [| |cbn [length remotePlaylists] in Hi; lia];
      eexists; eexists; (split; [reflexivity|]); split; reflexivity. }
  { intros i Hi. destruct i as [|i]; [|cbn [length remoteSoundboards] in Hi; lia].
    eexists; eexists; (split; [reflexivity|]); split; reflexivity. }
  split; [exact Hret|]. split; [exact Htrace|].
  split; [rewrite Htrace; reflexivity|]. split; [rewrite Htrace; reflexivity|].
  pose proof (purge_removes_every_listed_collection_when_removals_succeed
                Listing show_listing refusing (fun l => l) (fun l => l)
                DEFAULT_KENKU_CONFIG initial remotePlaylists remoteSoundboards)
    as Hrefusing.
  cbv zeta in Hrefusing. destruct Hrefusing as (_ & Hstop & _).
  { eexists. split; [reflexivity|]. split; reflexivity. }
  { eexists. split; [reflexivity|]. split; reflexivity. }
  apply (Hstop 0%nat (Error (show_listing []))).
  - cbn [length remotePlaylists]. lia.
  - intros j Hj. lia.
  - vm_compute. split; [discriminate | reflexivity].
Defined.

(** The claim of C7 fails when a removal is refused: of two listed playlists
    and one listed soundboard, one [removePlaylist] is sent and the run ends
    there. *)
Lemma purge_stops_at_a_refused_removal :
  answers Listing refusing
    (trace initial ++ [sent DEFAULT_KENKU_CONFIG listPlaylistsRequest]) remotePlaylists
  /\ answers Listing refusing
       (trace initial ++ [sent DEFAULT_KENKU_CONFIG listPlaylistsRequest;
                          sent DEFAULT_KENKU_CONFIG listSoundboardsRequest])
       remoteSoundboards
  /\ purge Listing show_listing refusing (fun l => l) (fun l => l)
       DEFAULT_KENKU_CONFIG initial
     = (Thrown (Error (show_listing [])),
        {| ACTIVATED := false; queue := [];
           trace :=
             [sent DEFAULT_KENKU_CONFIG listPlaylistsRequest;
              sent DEFAULT_KENKU_CONFIG listSoundboardsRequest;
              sent DEFAULT_KENKU_CONFIG
                (removePlaylistRequest (js "/r/Playlists/Jazz"))] |}).
Proof.
  split; [eexists; split; [reflexivity|]; split; reflexivity|].
  split; [eexists; split; [reflexivity|]; split; reflexivity|].
  reflexivity.
Qed.

(* ================================================================== *)
(** ** The further properties, at concrete inputs *)

(** X1, at the playlist of the example. *)
Lemma jazz_is_a_collection_path :
  plain_config underR = true
  /\ validateDirectory underR (js "/r/Playlists/Jazz") = Some (js "Jazz")
  /\ lastSegment (js "/r/Playlists/Jazz") = js "Jazz".
Proof.
  split; [reflexivity|].
  destruct (validateDirectory_accepts_exactly_collection_paths
              underR (js "/r/Playlists/Jazz") (js "Jazz") eq_refl) as [Hiff Hlast].
  assert (H : validateDirectory underR (js "/r/Playlists/Jazz") = Some (js "Jazz")).
  { apply Hiff. exists (js "Playlists"). split; [reflexivity|].
    split; [now left|]. split; [discriminate | reflexivity]. }
  split; [exact H | exact (Hlast H)].
Defined.

(** X2, at the track of the example. *)
Lemma song_is_an_item_path :
  plain_config underR = true
  /\ validateFile underR song = Some (js "Song 1.mp3")
  /\ lastSegment song = js "Song 1.mp3"
  /\ existsb isSlash (js "Song 1.mp3") = false.
Proof.
  split; [reflexivity|].
  destruct (validateFile_accepts_exactly_item_paths
              underR song (js "Song 1.mp3") eq_refl) as [Hiff Hlast].
  assert (H : validateFile underR song = Some (js "Song 1.mp3")).
  { apply Hiff. exists (js "Playlists"), (js "Jazz"). split; [reflexivity|].
    split; [now left|]. split; [split; [discriminate | reflexivity]|].
    split; [discriminate | reflexivity]. }
  split; [exact H | exact (Hlast H)].
Defined.

(** X3, at the track of the example: it is no collection. *)
Lemma song_is_not_a_collection_path :
  plain_config underR = true
  /\ existsb isSlash (playlistsDir underR) = false
  /\ existsb isSlash (soundboardsDir underR) = false
  /\ (validateDirectory underR song = None \/ validateFile underR song = None).
Proof.
  split; [reflexivity|]. split; [reflexivity|]. split; [reflexivity|].
  apply (validators_accept_disjoint_paths underR song eq_refl eq_refl eq_refl).
Defined.

(** X12, at a soundboard named [Old Playlists]: its directory is accepted
    under the soundboards directory and added as a playlist. *)
Lemma soundboard_named_after_playlists_is_added_as_playlist :
  validateDirectory underR oldPlaylists = Some (js "Old Playlists")
  /\ strip_prefix (js "/r/Soundboards/") oldPlaylists = Some (js "Old Playlists")
  /\ exists body,
       handleQueue Listing show_listing unreachable underR DEFAULT_KENKU_CONFIG
         (openWorld [{| action := addDir; path := oldPlaylists |}])
       = catch_log
           (operation Listing show_listing unreachable addDir true
              DEFAULT_KENKU_CONFIG body)
           (set_queue [] (openWorld [{| action := addDir; path := oldPlaylists |}])).
Proof.
  split; [reflexivity|]. split; [reflexivity|].
  apply (branch_is_chosen_by_substring_of_path
           Listing show_listing unreachable underR DEFAULT_KENKU_CONFIG
           (openWorld [{| action := addDir; path := oldPlaylists |}])
           {| action := addDir; path := oldPlaylists |} [] (js "Old Playlists")
           eq_refl eq_refl).
  now exists (js "/r/Soundboards/Old "), [].
Defined.

(** X16, at [--action view --port 3334] against a service that is not
    reached: one listing request to that port and nothing else. *)
Lemma view_of_an_unreachable_service :
  exists es,
    snd (driver Listing show_listing unreachable id id stringsOnly viewArgv initial)
    = performs es initial
    /\ Forall (purgeEffect {| host := js "127.0.0.1"; port := js "3334" |}) es
    /\ es = [Fetch (js "http://127.0.0.1:3334/v1/playlist/list") get None].
Proof.
  destruct (driver_view_and_purge_never_add
              Listing show_listing unreachable id id stringsOnly viewArgv initial
              (js "view") eq_refl (or_introl eq_refl)) as (es & Hes & Hall & Hview).
  exists es. split; [exact Hes|]. split; [exact Hall|].
  destruct (Hview eq_refl) as [[-> _] | ->]; [reflexivity|].
  vm_compute in Hes. discriminate Hes.
Defined.


(** X4, at the track of the example: its file url is sent as it is. *)
Lemma song_url_is_kept :
  plain_config underR = true
  /\ validateFile underR song = Some (js "Song 1.mp3")
  /\ cleanUrl (prepareFilePath song) = js "file:///r/Playlists/Jazz/Song%201.mp3".
Proof.
  split; [reflexivity|]. split; [reflexivity|].
  apply (proj2 (cleanUrl_keeps_urls_of_valid_paths underR song eq_refl)
           (js "Song 1.mp3")).
  reflexivity.
Defined.

(** X13, at an answer of status 200 whose body is not JSON. *)
Lemma answer_that_is_not_json_throws :
  fst (callKenku Listing show_listing
         (fun _ => Responded {| status := 200; json := None |})
         DEFAULT_KENKU_CONFIG listPlaylistsRequest initial)
  = Thrown SyntaxError.
Proof.
  apply (proj1 (proj2 (proj2
           (callKenku_returns_only_decoded_body_below_400
              Listing show_listing
              (fun _ => Responded {| status := 200; json := None |})
              DEFAULT_KENKU_CONFIG listPlaylistsRequest initial)))
           {| status := 200; json := None |});
    reflexivity.
Defined.

(** X14, at a service that is not reached: [purge] stops at the first
    listing. *)
Lemma purge_of_an_unreachable_service :
  purge Listing show_listing unreachable id id DEFAULT_KENKU_CONFIG initial
  = (Thrown FetchError,
     performs [sent DEFAULT_KENKU_CONFIG listPlaylistsRequest] initial).
Proof.
  apply (proj1 (proj2
           (purge_only_removes_and_only_after_both_listings
              Listing show_listing unreachable id id DEFAULT_KENKU_CONFIG initial))
           FetchError).
  reflexivity.
Defined.

(** X15, at [--action delete --rootDir /r], and at
    [--action watch --rootDir 0], where the root is the number 0. *)
Lemma unknown_action_is_refused :
  driver Listing show_listing healthy id id stringsOnly deleteArgv initial
  = (Thrown (Error (js "Invalid action: delete")), initial)
  /\ driver Listing show_listing healthy id id stringsOnly watchZeroArgv initial
     = (Thrown (Error (js "Missing rootDir!")), initial).
Proof.
  destruct (driver_fails_before_any_effect Listing show_listing healthy id id
              stringsOnly deleteArgv initial) as (Hbad & _).
  destruct (driver_fails_before_any_effect Listing show_listing healthy id id
              stringsOnly watchZeroArgv initial) as (_ & Hroot & _).
  split.
  - apply Hbad. intros a [= <-]. vm_compute. intuition discriminate.
  - apply Hroot; [now right | reflexivity].
Defined.

(** X18, at the track of the example. *)
Lemma song_is_removed_as_it_was_added :
  plain_config underR = true
  /\ validateFile underR song = Some (js "Song 1.mp3")
  /\ requestsOf Listing show_listing unreachable underR DEFAULT_KENKU_CONFIG true
    [{| action := add; path := song |}; {| action := unlink; path := song |}]
  = [sent DEFAULT_KENKU_CONFIG
       {| req_path := js "playlist/addTrack"; req_method := put;
          req_body := Some (TrackBody (js "Song 1")
                              (js "file:///r/Playlists/Jazz/Song%201.mp3")
                              (js "/r/Playlists/Jazz")) |};
     sent DEFAULT_KENKU_CONFIG
       {| req_path := js "playlist/removeTrack"; req_method := put;
          req_body := Some (RemoveTrackBody
                              (js "file:///r/Playlists/Jazz/Song%201.mp3")
                              (js "/r/Playlists/Jazz")) |}].
Proof.
  split; [reflexivity|]. split; [reflexivity|].
  apply (proj1 (removal_names_what_addition_named
                  Listing show_listing unreachable underR DEFAULT_KENKU_CONFIG
                  song (js "Song 1.mp3") eq_refl)).
  reflexivity.
Defined.

(** X19, at paths outside the code units below 256: a character of three
    octets, a surrogate pair of four, and two paths with a surrogate that is
    not part of a pair. *)
Lemma lone_surrogate_throws :
  Utf16.encodeURI [38899%Z] = Some (js "%E9%9F%B3")
  /\ Utf16.encodeURI [55357%Z; 56832%Z] = Some (js "%F0%9F%98%80")
  /\ Utf16.prepareFilePath [47%Z; 114%Z; 47%Z; 55357%Z] = None
  /\ Utf16.prepareFilePath [56832%Z; 55357%Z] = None.
Proof.
  split; [reflexivity|]. split; [reflexivity|].
  split; apply (proj1 encodeURI_throws_exactly_at_lone_surrogates); reflexivity.
Defined.
